(** * Oak: the parser of [parse.go], embedded and checked against the
      language description.

    The development follows [parse.go] top to bottom: tokens and positions,
    the AST node variants, the [parser] cursor with its primitive moves
    ([isEOF], [peek], [peekAhead], [next], [back], [expect]), then
    [parseMaybeAssignment], [parseAtom], [nextNode] and [parse].  The
    statements come after the definitions: the loop of [nextNode] that
    stalls on operators, the tokens [parseAtom] does not report, the panics,
    atoms and braces, rest arguments, and the comma [parse] expects after
    every top-level expression.

    Go features and how they appear here:
    - a method on [*parser] that may mutate [p.index] is a function from the
      parser state to an [outcome] that carries the new state;
    - [(value, error)] results are [Ok] and [Err];
    - a Go panic (the explicit [panic] in [expect], or the runtime's
      index-out-of-range on [p.tokens[i]]) is [Panic];
    - [for] loops and the recursion between [nextNode] and [parseAtom] are
      driven by a fuel counter; running out of it is [OutOfFuel]. *)

From Stdlib Require Import List String Ascii ZArith Lia Bool Arith Floats.
Import ListNotations.
Set Warnings "-register-all".
Local Open Scope string_scope.
Local Open Scope nat_scope.
Local Open Scope list_scope.

(** ** Tokens and positions *)

Module Kind.

(** Modelled from the spec: the closed enumeration of token kinds ([tokKind],
    declared in token.go, which is not part of the source tree).  The names
    are the ones [parse.go] uses, completed by the kinds the language
    description lists in its token section. *)
Inductive t : Set :=
| unknown
| comma | dot | colon | underscore | qmark | exclam | ellipsis
| leftParen | rightParen | leftBracket | rightBracket | leftBrace | rightBrace
| assign | nonlocalAssign | branchArrow | pipeArrow | pushArrow
| plus | minus | times | divide | modulus
| eq | geq | leq | greater | less | neq
| and | or | xor
| ifKeyword | fnKeyword | withKeyword | trueLiteral | falseLiteral
| stringLiteral | numberLiteral | identifier.

End Kind.

Definition tokKind := Kind.t.

Definition tokKind_eq_dec (a b : tokKind) : {a = b} + {a <> b}.
Proof. decide equality. Defined.

(** [a.kind == b] on token kinds. *)
Definition kindIs (a b : tokKind) : bool :=
  if tokKind_eq_dec a b then true else false.

(** Modelled from the spec: a source position (file, line, column); the
    [pos] struct is declared outside [parse.go]. *)
Record pos : Set := mkPos { fileName : string; line : Z; col : Z }.

(** The zero value of [pos], which a composite literal leaves in place when
    the field is not named. *)
Definition zeroPos : pos := mkPos "" 0 0.

(** Modelled from the spec: a token carries a kind, an optional string
    payload and a position. *)
Record token : Set := mkToken { kind : tokKind; payload : string; tokPos : pos }.

(** [token{kind: k}] *)
Definition tokenOfKind (k : tokKind) : token := mkToken k "" zeroPos.

(** ** AST nodes *)

Inductive astNode : Set :=
| emptyNode
| nullNode
| stringNode (payload : string)
| numberNode (isInteger : bool) (intPayload : Z) (floatPayload : float)
| booleanNode (payload : bool)
| atomNode (payload : string)
| listNode (elems : list astNode)
| objectEntry (entry : objectEntryNode)
| objectNode (entries : list objectEntryNode)
| fnNode (name : string) (args : list string) (restArg : string) (body : astNode)
| identifierNode (payload : string)
| assignmentNode (isLocal : bool) (left right : astNode)
| propertyAccessNode (left right : astNode)
| unaryNode (op : tokKind) (right : astNode)
| binaryNode (op : tokKind) (left right : astNode)
| fnCallNode (fn : astNode) (args : list astNode)
| ifBranch (branch : ifBranchNode)
| ifExprNode (cond : astNode) (branches : list ifBranchNode)
| blockNode (exprs : list astNode)
with objectEntryNode : Set :=
| mkObjectEntryNode (key val : astNode)
with ifBranchNode : Set :=
| mkIfBranchNode (target body : astNode).

(** ** The parser cursor *)

(** [index] is a Go [int].  It starts at 0, [next] increments it only below
    [len(tokens)] and [back] decrements it only above 0, so it stays within
    [0 .. len(tokens)] and a natural number represents it exactly. *)
Record parser : Set := mkParser { tokens : list token; index : nat }.

Definition newParser (toks : list token) : parser := mkParser toks 0.

Record parseError : Set := mkParseError { reason : string; errPos : pos }.

(** [parseError{reason: r}]: the embedded position keeps its zero value. *)
Definition parseErrorOf (r : string) : parseError := mkParseError r zeroPos.

Inductive panicValue : Set :=
| IndexOutOfRange (i len : nat)   (* runtime error: index out of range *)
| PanicString (msg : string).     (* panic(msg) *)

Inductive outcome (A : Type) : Type :=
| Ok (a : A) (p : parser)
| Err (e : parseError) (p : parser)
| Panic (v : panicValue)
| OutOfFuel.
Arguments Ok {A} a p.
Arguments Err {A} e p.
Arguments Panic {A} v.
Arguments OutOfFuel {A}.

(** A parser method returning [A]. *)
Definition M (A : Type) : Type := parser -> outcome A.

Definition ret {A} (a : A) : M A := fun p => Ok a p.
Definition fail {A} (e : parseError) : M A := fun p => Err e p.
Definition bind {A B} (m : M A) (k : A -> M B) : M B :=
  fun p =>
    match m p with
    | Ok a p' => k a p'
    | Err e p' => Err e p'
    | Panic v => Panic v
    | OutOfFuel => OutOfFuel
    end.

Declare Scope parser_scope.
Delimit Scope parser_scope with parser.
Notation "x <- m ;; k" := (bind m (fun x => k))
  (at level 61, m at next level, right associativity) : parser_scope.
Notation "m ;;; k" := (bind m (fun _ => k))
  (at level 61, right associativity) : parser_scope.
Local Open Scope parser_scope.

Definition isEOF (p : parser) : bool := index p =? List.length (tokens p).

(** [p.tokens[i]], with the runtime's bounds check. *)
Definition tokenAt (i : nat) : M token :=
  fun p =>
    match nth_error (tokens p) i with
    | Some tok => Ok tok p
    | None => Panic (IndexOutOfRange i (List.length (tokens p)))
    end.

Definition peek : M token := fun p => tokenAt (index p) p.

Definition peekAhead (n : nat) : M token :=
  fun p =>
    if List.length (tokens p) <? index p + n
    then (* Use comma as "nothing is here" value *)
      Ok (tokenOfKind Kind.comma) p
    else tokenAt (index p + n) p.

Definition next : M token :=
  fun p =>
    match tokenAt (index p) p with
    | Ok tok _ =>
        if index p <? List.length (tokens p)
        then Ok tok (mkParser (tokens p) (S (index p)))
        else Ok tok p
    | other => other
    end.

Definition back : M unit :=
  fun p =>
    if 0 <? index p
    then Ok tt (mkParser (tokens p) (index p - 1))
    else Ok tt p.

(** ** The library calls of [parseAtom]

    [strings.ContainsRune] and [strconv.ParseInt] are modelled on their Go
    definitions; [strconv.ParseFloat], [strconv.Quote] and the [String]
    method of [token] are taken as parameters of the parser below. *)

(** [strings.ContainsRune(s, r)] for a rune below 128, where it is a search
    for the byte. *)
Definition ContainsRune (s : string) (r : ascii) : bool :=
  existsb (Ascii.eqb r) (list_ascii_of_string s).

Inductive numErr : Set := ErrSyntax | ErrRange.

Definition isDigit (c : ascii) : bool :=
  (48 <=? nat_of_ascii c) && (nat_of_ascii c <=? 57).

Definition maxUint64 : Z := 2 ^ 64 - 1.

(** The digit loop of [strconv.ParseUint(s, 10, 64)], [n] being a [uint64]:
    a byte that is no decimal digit is a syntax error, and an accumulator
    that leaves the 64 bits is a range error, whichever comes first. *)
Fixpoint parseUintLoop (cs : list ascii) (n : Z) : Z * option numErr :=
  match cs with
  | [] => (n, None)
  | c :: cs' =>
      if isDigit c then
        let d := (Z.of_nat (nat_of_ascii c) - 48)%Z in
        if (n >=? maxUint64 / 10 + 1)%Z then (maxUint64, Some ErrRange)
        else
          let n10 := (n * 10)%Z in
          let n1 := ((n10 + d) mod 2 ^ 64)%Z in
          if ((n1 <? n10) || (n1 >? maxUint64))%Z
          then (maxUint64, Some ErrRange)
          else parseUintLoop cs' n1
      else (0%Z, Some ErrSyntax)
  end.

Definition ParseUint (cs : list ascii) : Z * option numErr :=
  match cs with
  | [] => (0%Z, Some ErrSyntax)
  | _ => parseUintLoop cs 0%Z
  end.

(** [strconv.ParseInt(s, 10, 64)]. *)
Definition ParseInt (s : string) : Z * option numErr :=
  match list_ascii_of_string s with
  | [] => (0%Z, Some ErrSyntax)
  | c :: cs' =>
      let neg := Ascii.eqb c "-" in
      let digits := if Ascii.eqb c "+" || neg then cs' else c :: cs' in
      match ParseUint digits with
      | (_, Some ErrSyntax) => (0%Z, Some ErrSyntax)
      | (un, _) =>
          let cutoff := (2 ^ 63)%Z in
          if negb neg && (un >=? cutoff)%Z then ((cutoff - 1)%Z, Some ErrRange)
          else if neg && (un >? cutoff)%Z then ((- cutoff)%Z, Some ErrRange)
          else ((if neg then - un else un)%Z, None)
      end
  end.

Definition numErrText (e : numErr) : string :=
  match e with
  | ErrSyntax => "invalid syntax"
  | ErrRange => "value out of range"
  end.

Section Parser.

(** [token.String()], defined in token.go; it is also what [fmt.Sprintf]
    writes for a token under [%s]. *)
Variable tokString : token -> string.

(** [strconv.Quote]. *)
Variable Quote : string -> string.

(** [strconv.ParseFloat(s, 64)]: the value, or the text of the error. *)
Variable ParseFloat : string -> float + string.

(** The [Error] text of the [strconv.NumError] that [ParseInt] returns on
    [s]. *)
Definition parseIntErrorText (s : string) (e : numErr) : string :=
  String.append "strconv.ParseInt: parsing "
    (String.append (Quote s) (String.append ": " (numErrText e))).

Definition expect (k : tokKind) : M token :=
  fun p =>
    let tok := tokenOfKind k in
    if isEOF p then
      Err (parseErrorOf
             (String.append "Unexpected end of input, expected " (tokString tok))) p
    else
      (nxt <- next ;;
       if negb (kindIs (kind nxt) k) then
         (* the return of a parseError that follows is never reached *)
         fun _ => Panic (PanicString
                    (String.append "expected "
                       (String.append (tokString tok)
                          (String.append " got " (tokString nxt)))))
       else ret nxt) p.

(** The loop of [readUntilTokenKind]; [n] counts its iterations. *)
Fixpoint readUntilTokenKindLoop (n : nat) (k : tokKind) (acc : list token)
  : M (list token) :=
  fun p =>
    match n with
    | 0 => OutOfFuel
    | S n' =>
        if isEOF p then Ok acc p
        else
          (t <- peek ;;
           if kindIs (kind t) k then ret acc
           else (t' <- next ;; readUntilTokenKindLoop n' k (acc ++ [t']))) p
    end.

(** [readUntilTokenKind].  Every iteration but the last one moves the
    cursor by one token, so one iteration more than there are tokens left
    is all the loop can take. *)
Definition readUntilTokenKind (k : tokKind) : M (list token) :=
  fun p =>
    readUntilTokenKindLoop (S (List.length (tokens p) - index p)) k [] p.

(** [parseMaybeAssignment]; [nextNode] is the recursive call. *)
Definition parseMaybeAssignment (nextNode : M astNode) (left : astNode)
  : M astNode :=
  t <- peek ;;
  if negb (kindIs (kind t) Kind.assign) && negb (kindIs (kind t) Kind.nonlocalAssign)
  then ret left
  else
    op <- next ;;
    right <- nextNode ;;
    ret (assignmentNode (kindIs (kind op) Kind.assign) left right).

(** The loop shared by the list literal, the block, the parenthesized block
    and the call arguments:
    [for !p.isEOF() && p.peek().kind != close] parses a node, expects a
    comma and appends the node.  (The call arguments append before they
    expect the comma; the list is dropped on an error either way.) *)
Fixpoint parseExprsUntil (nextNode : M astNode) (close : tokKind) (n : nat)
    (acc : list astNode) : M (list astNode) :=
  fun p =>
    match n with
    | 0 => OutOfFuel
    | S n' =>
        if isEOF p then Ok acc p
        else
          (t <- peek ;;
           if kindIs (kind t) close then ret acc
           else
             node <- nextNode ;;
             expect Kind.comma ;;;
             parseExprsUntil nextNode close n' (acc ++ [node])) p
    end.

(** The loop over the entries of an object literal after the first one. *)
Fixpoint parseEntriesUntil (nextNode : M astNode) (n : nat)
    (entries : list objectEntryNode) : M (list objectEntryNode) :=
  fun p =>
    match n with
    | 0 => OutOfFuel
    | S n' =>
        if isEOF p then Ok entries p
        else
          (t <- peek ;;
           if kindIs (kind t) Kind.rightBrace then ret entries
           else
             key <- nextNode ;;
             expect Kind.colon ;;;
             val <- nextNode ;;
             expect Kind.comma ;;;
             parseEntriesUntil nextNode n'
               (entries ++ [mkObjectEntryNode key val])) p
    end.

(** The loop over the argument names of a [fn]: it returns [args] and
    [restArg]. *)
Fixpoint parseFnArgs (n : nat) (args : list string) : M (list string * string) :=
  fun p =>
    match n with
    | 0 => OutOfFuel
    | S n' =>
        if isEOF p then Ok (args, "") p
        else
          (t <- peek ;;
           if kindIs (kind t) Kind.rightParen then ret (args, "")
           else
             arg <- expect Kind.identifier ;;
             t' <- peek ;;
             if kindIs (kind t') Kind.ellipsis then
               (* maybe this is a rest arg *)
               next ;;;
               expect Kind.comma ;;;
               ret (args, payload arg)
             else
               expect Kind.comma ;;;
               parseFnArgs n' (args ++ [payload arg])) p
    end.

(** The body of a [fn], after its optional name and argument list. *)
Definition parseFnBody (nextNode : M astNode) : M astNode :=
  (* Exception to the "{} is empty object" rule is that `fn {}` parses as
     a function with an empty block as a body *)
  t <- peek ;;
  if kindIs (kind t) Kind.leftBrace then
    t' <- peekAhead 1 ;;
    if kindIs (kind t') Kind.rightBrace
    then (next ;;; next ;;; ret (blockNode []))
    else nextNode
  else nextNode.

(** What [parseAtom] returns when its [switch] selects no [return]: the
    cases [ifKeyword] and [withKeyword], which are still to be written, and
    every kind the [switch] does not list. *)
Definition afterSwitch : M astNode := ret (booleanNode false).

(** [parseAtom]; [nextNode] is the recursive call and [n] bounds each of
    the loops. *)
Definition parseAtom (nextNode : M astNode) (n : nat) : M astNode :=
  tok <- next ;;
  match kind tok with
  | Kind.qmark => ret nullNode
  | Kind.stringLiteral => ret (stringNode (payload tok))
  | Kind.numberLiteral =>
      if ContainsRune (payload tok) "." then
        match ParseFloat (payload tok) with
        | inr e => fail (parseErrorOf e)
        | inl f => ret (numberNode false 0%Z f)
        end
      else
        match ParseInt (payload tok) with
        | (_, Some e) =>
            fail (parseErrorOf (parseIntErrorText (payload tok) e))
        | (i, None) => ret (numberNode true i PrimFloat.zero)
        end
  | Kind.trueLiteral => ret (booleanNode true)
  | Kind.falseLiteral => ret (booleanNode false)
  | Kind.colon =>
      t <- peek ;;
      if kindIs (kind t) Kind.identifier then
        (id <- next ;; ret (atomNode (payload id)))
      else
        fail (parseErrorOf
                (String.append "Expected identifier after ':', got " (tokString t)))
  | Kind.leftBracket =>
      itemNodes <- parseExprsUntil nextNode Kind.rightBracket n [] ;;
      expect Kind.rightBracket ;;;
      parseMaybeAssignment nextNode (listNode itemNodes)
  | Kind.leftBrace =>
      t <- peek ;;
      (* empty {} is always considered an object -- an empty block is illegal *)
      if kindIs (kind t) Kind.rightBrace then
        (next ;;; ret (objectNode []))
      else
        firstExpr <- nextNode ;;
        fun p =>
          if isEOF p then
            Err (parseErrorOf "Unexpected end of input inside block or object") p
          else
            (t' <- peek ;;
             if kindIs (kind t') Kind.colon then
               (* it's an object *)
               next ;;;
               valExpr <- nextNode ;;
               expect Kind.comma ;;;
               entries <- parseEntriesUntil nextNode n
                            [mkObjectEntryNode firstExpr valExpr] ;;
               expect Kind.rightBrace ;;;
               parseMaybeAssignment nextNode (objectNode entries)
             else
               (* it's a block *)
               expect Kind.comma ;;;
               exprs <- parseExprsUntil nextNode Kind.rightBrace n [firstExpr] ;;
               expect Kind.rightBrace ;;;
               ret (blockNode exprs)) p
  | Kind.fnKeyword =>
      t <- peek ;;
      name <- (if kindIs (kind t) Kind.identifier
               then (id <- next ;; ret (payload id))
               else ret "") ;;
      t' <- peek ;;
      argsRest <- (if kindIs (kind t') Kind.leftParen
                   then
                     next ;;;
                     ar <- parseFnArgs n [] ;;
                     expect Kind.rightParen ;;;
                     ret ar
                   else ret ([], "")) ;;
      body <- parseFnBody nextNode ;;
      ret (fnNode name (fst argsRest) (snd argsRest) body)
  | Kind.underscore => ret emptyNode
  | Kind.identifier =>
      parseMaybeAssignment nextNode (identifierNode (payload tok))
  | Kind.minus | Kind.exclam =>
      right <- nextNode ;;
      ret (unaryNode (kind tok) right)
  | Kind.ifKeyword => afterSwitch     (* TODO: ifExprNode *)
  | Kind.withKeyword => afterSwitch   (* TODO: fnCallNode *)
  | Kind.leftParen =>
      exprs <- parseExprsUntil nextNode Kind.rightParen n [] ;;
      expect Kind.rightParen ;;;
      ret (blockNode exprs)
  | _ => afterSwitch
  end.

(** The loop of [nextNode] over what follows an atom.  [k] counts its
    iterations. *)
Fixpoint nextNodeLoop (nextNode : M astNode) (n k : nat) (node : astNode)
  : M astNode :=
  fun p =>
    match k with
    | 0 => OutOfFuel
    | S k' =>
        if isEOF p then Ok node p
        else
          (t <- peek ;;
           match kind t with
           | Kind.comma => ret node
           | Kind.dot =>
               next ;;;
               right <- parseAtom nextNode n ;;
               nextNodeLoop nextNode n k' (propertyAccessNode node right)
           | Kind.leftParen =>
               next ;;;
               args <- parseExprsUntil nextNode Kind.rightParen n [] ;;
               expect Kind.rightParen ;;;
               nextNodeLoop nextNode n k' (fnCallNode node args)
           | Kind.plus | Kind.minus | Kind.times | Kind.divide | Kind.modulus
           | Kind.greater | Kind.less | Kind.eq | Kind.geq | Kind.leq =>
               (* TODO: binaryNode *)
               nextNodeLoop nextNode n k' node
           | Kind.colon =>
               (* node is object key *)
               ret node
           | Kind.rightParen | Kind.rightBracket | Kind.rightBrace =>
               (* mistyped right delimiter *)
               ret node
           | _ =>
               (* TODO: infix call *)
               nextNodeLoop nextNode n k' node
           end) p
    end.

(** [nextNode], with [fuel] bounding the depth of its recursion and each of
    the loops below it. *)
Fixpoint nextNode (fuel : nat) : M astNode :=
  match fuel with
  | 0 => fun _ => OutOfFuel
  | S f =>
      node <- parseAtom (nextNode f) f ;;
      nextNodeLoop (nextNode f) f f node
  end.

(** What a run of [parse] comes to: it returns its pair, panics, or is
    still running when the fuel is spent. *)
Inductive parseOutcome : Set :=
| Returns (nodes : list astNode) (err : option parseError)
| Panics (v : panicValue)
| StillRunning.

Fixpoint parseLoop (nextNode : M astNode) (k : nat) (nodes : list astNode)
    (p : parser) : parseOutcome :=
  match k with
  | 0 => StillRunning
  | S k' =>
      if isEOF p then Returns nodes None
      else
        match (node <- nextNode ;; expect Kind.comma ;;; ret node) p with
        | Ok node p' => parseLoop nextNode k' (nodes ++ [node]) p'
        | Err e _ => Returns nodes (Some e)
        | Panic v => Panics v
        | OutOfFuel => StillRunning
        end
  end.

Definition parse (fuel : nat) (p : parser) : parseOutcome :=
  parseLoop (nextNode fuel) fuel [] p.


(** ** Vocabulary of the statements *)

(** The cursor one token further. *)
Definition advance (p : parser) : parser := mkParser (tokens p) (S (index p)).

(** The kinds on which an iteration of the loop of [nextNode] neither
    consumes a token nor returns: the operator case and the default case of
    its [switch], both still to be written. *)
Definition stalls (k : tokKind) : bool :=
  match k with
  | Kind.comma | Kind.dot | Kind.leftParen | Kind.colon
  | Kind.rightParen | Kind.rightBracket | Kind.rightBrace => false
  | _ => true
  end.

(** The kinds for which [parseAtom] returns a node from the one token alone:
    the literals without payload conversion, and every kind that runs into
    [afterSwitch]. *)
Definition oneTokenAtom (k : tokKind) : bool :=
  match k with
  | Kind.numberLiteral | Kind.colon | Kind.leftBracket | Kind.leftBrace
  | Kind.fnKeyword | Kind.identifier | Kind.minus | Kind.exclam
  | Kind.leftParen => false
  | _ => true
  end.

(** The node [parseAtom] returns for a token of such a kind. *)
Definition oneTokenNode (tok : token) : astNode :=
  match kind tok with
  | Kind.qmark => nullNode
  | Kind.stringLiteral => stringNode (payload tok)
  | Kind.trueLiteral => booleanNode true
  | Kind.underscore => emptyNode
  | _ => booleanNode false
  end.

(** The kinds that run into [afterSwitch]: every kind but the ones for
    which the [switch] of [parseAtom] returns. *)
Definition reachesAfterSwitch (k : tokKind) : bool :=
  match k with
  | Kind.qmark | Kind.stringLiteral | Kind.numberLiteral | Kind.trueLiteral
  | Kind.falseLiteral | Kind.colon | Kind.leftBracket | Kind.leftBrace
  | Kind.fnKeyword | Kind.underscore | Kind.identifier | Kind.minus
  | Kind.exclam | Kind.leftParen => false
  | _ => true
  end.

(** [node] is an object literal whose first key is [first], possibly the
    left side of an assignment that follows the closing brace. *)
Definition braceObjectOf (first node : astNode) : Prop :=
  match node with
  | objectNode (mkObjectEntryNode k _ :: _) => k = first
  | assignmentNode _ (objectNode (mkObjectEntryNode k _ :: _)) _ => k = first
  | _ => False
  end.

(** [node] is a block whose first expression is [first]. *)
Definition braceBlockOf (first node : astNode) : Prop :=
  match node with
  | blockNode (e :: _) => e = first
  | _ => False
  end.

(** The tokens from the cursor on. *)
Definition remaining (p : parser) : list token := skipn (index p) (tokens p).

(** The cursor [k] tokens further. *)
Definition advanceBy (k : nat) (p : parser) : parser :=
  mkParser (tokens p) (k + index p).

(** The tokens of the leading arguments of a [fn]: each name with the comma
    after it. *)
Definition argTokens (args : list (token * token)) : list token :=
  flat_map (fun ac => [fst ac; snd ac]) args.

(** [r'] is what [r] becomes with more fuel: [r] itself, unless [r] is the
    lack of fuel. *)
Definition approx {A : Type} (r r' : outcome A) : Prop :=
  r = OutOfFuel \/ r = r'.

Definition approxM {A : Type} (m m' : M A) : Prop :=
  forall p, approx (m p) (m' p).

(** The optional name of a [fn]: its token, and the name it gives. *)
Definition nameTokens (name : option token) : list token :=
  match name with Some id => [id] | None => [] end.

Definition fnName (name : option token) : string :=
  match name with Some id => payload id | None => "" end.

Definition isArgPair (ac : token * token) : Prop :=
  kind (fst ac) = Kind.identifier /\ kind (snd ac) = Kind.comma.

(** The argument list of a [fn] that has one: the parentheses, the names
    that are each followed by a comma, and the rest argument, with its
    ellipsis and its comma, when there is one. *)
Record argList : Set :=
  mkArgList { alOpen : token; alPairs : list (token * token);
              alRest : option (token * token * token); alClose : token }.

Definition restTokens (r : option (token * token * token)) : list token :=
  match r with
  | Some (id, e, c) => [id; e; c]
  | None => []
  end.

Definition restName (r : option (token * token * token)) : string :=
  match r with
  | Some (id, _, _) => payload id
  | None => ""
  end.

Definition isRest (r : option (token * token * token)) : Prop :=
  match r with
  | Some (id, e, c) =>
      kind id = Kind.identifier /\ kind e = Kind.ellipsis
      /\ kind c = Kind.comma
  | None => True
  end.

Definition argListTokens (al : option argList) : list token :=
  match al with
  | Some a =>
      alOpen a :: argTokens (alPairs a) ++ restTokens (alRest a) ++ [alClose a]
  | None => []
  end.

Definition argNames (al : option argList) : list string :=
  match al with
  | Some a => map (fun ac => payload (fst ac)) (alPairs a)
  | None => []
  end.

Definition argRest (al : option argList) : string :=
  match al with
  | Some a => restName (alRest a)
  | None => ""
  end.

Definition isArgList (al : option argList) : Prop :=
  match al with
  | Some a =>
      kind (alOpen a) = Kind.leftParen /\ Forall isArgPair (alPairs a)
      /\ isRest (alRest a) /\ kind (alClose a) = Kind.rightParen
  | None => True
  end.

(** Modelled from the spec: the runtime values (the evaluator, eval.go, is
    not part of the source tree).  "Value variants: null, empty, int, float,
    bool, atom, string, list, object, function (captured scope + argument
    names + rest-arg name + body node)". *)
Inductive Value : Set :=
| null
| empty
| IntValue (i : Z)
| FloatValue (f : float)
| BoolValue (b : bool)
| AtomValue (name : string)
| StringValue (bytes : string)
| ListValue (elems : list Value)
| ObjectValue (entries : list (string * Value))
| FnValue (captured : list (string * Value)) (args : list string)
    (restArg : string) (body : astNode).

(** Modelled from the spec: the bindings of one scope, "a mapping from name
    to value"; the latest binding of a name is the one found. *)
Definition bindings : Set := list (string * Value).

Definition put (name : string) (v : Value) (b : bindings) : bindings :=
  (name, v) :: b.

Fixpoint get (name : string) (b : bindings) : option Value :=
  match b with
  | [] => None
  | (k, v) :: b' => if String.eqb k name then Some v else get name b'
  end.

(** Modelled from the spec: what a call of a user function binds in the
    child scope it creates (the evaluator is not part of the source tree).
    "bind each formal to the corresponding actual (missing actuals bound to
    null); if a rest-arg name exists, bind it to a list of remaining
    actuals". *)
Fixpoint bindFormals (formals : list string) (actuals : list Value)
    (b : bindings) : bindings :=
  match formals with
  | [] => b
  | f :: formals' =>
      bindFormals formals' (tl actuals) (put f (hd null actuals) b)
  end.

Definition bindCall (args : list string) (restArg : string)
    (actuals : list Value) : bindings :=
  let b := bindFormals args actuals [] in
  if String.eqb restArg "" then b
  else put restArg (ListValue (skipn (List.length args) actuals)) b.

(** The cursor is within the tokens or at their end. *)
Definition inBounds (p : parser) : Prop := index p <= List.length (tokens p).

(** From [p] to [p']: the same tokens, the cursor not moved back and still
    within bounds. *)
Definition movesOn (p p' : parser) : Prop :=
  tokens p' = tokens p /\ index p <= index p' /\ inBounds p'.

(** What a method that started at [p] may come to: a return or an error
    further on in the same tokens, the error without a position. *)
Definition after {A : Type} (p : parser) (r : outcome A) : Prop :=
  match r with
  | Ok _ p' => movesOn p p'
  | Err e p' => movesOn p p' /\ errPos e = zeroPos
  | Panic _ => True
  | OutOfFuel => True
  end.

Definition keepsCursor {A : Type} (m : M A) : Prop :=
  forall p, inBounds p -> after p (m p).

(** The same, with at least one token consumed when the method returns. *)
Definition afterSome {A : Type} (p : parser) (r : outcome A) : Prop :=
  match r with
  | Ok _ p' => movesOn p p' /\ index p < index p'
  | Err e p' => movesOn p p' /\ errPos e = zeroPos
  | Panic _ => True
  | OutOfFuel => True
  end.

Definition consumes {A : Type} (m : M A) : Prop :=
  forall p, inBounds p -> afterSome p (m p).

(** The kinds on which the loop of [nextNode] returns its node. *)
Definition stops (k : tokKind) : bool :=
  match k with
  | Kind.comma | Kind.colon
  | Kind.rightParen | Kind.rightBracket | Kind.rightBrace => true
  | _ => false
  end.

(** Further tokens that are none, or start with a token on which the loop
    of [nextNode] returns. *)
Definition stopLed (ext : list token) : Prop :=
  match ext with
  | [] => True
  | c :: _ => stops (kind c) = true
  end.

(** The parser with tokens before and after its own. *)
Definition frame (pre ext : list token) (p : parser) : parser :=
  mkParser (pre ++ tokens p ++ ext) (index p + List.length pre).

(** [rec'] returns within the longer tokens what [rec] returns on the
    tokens alone. *)
Definition Framed (pre ext : list token) (rec rec' : M astNode) : Prop :=
  forall p a p',
    rec p = Ok a p' -> rec' (frame pre ext p) = Ok a (frame pre ext p').

(** The tokens of [q], from [off] on, are those of [p] up to position [j],
    which [p] has, and the cursor of [q] is [off] further than that of
    [p]. *)
Definition agree (off j : nat) (p q : parser) : Prop :=
  index q = index p + off
  /\ j < List.length (tokens p)
  /\ forall i, i <= j -> nth_error (tokens q) (i + off) = nth_error (tokens p) i.

(** What [m] returns without moving past position [j], [m'] returns on any
    tokens that agree up to [j]. *)
Definition sameUpTo {A : Type} (m m' : M A) : Prop :=
  forall off j p q a p',
    inBounds p -> agree off j p q ->
    m p = Ok a p' -> index p' <= j ->
    m' q = Ok a (mkParser (tokens q) (index p' + off)).

Definition stable {A : Type} (m m' : M A) : Prop :=
  keepsCursor m /\ sameUpTo m m'.

(** The parser [p] on the tokens [s], its own without their last one. *)
Definition short (s : list token) (p : parser) : parser :=
  mkParser s (index p).

(** The panic of indexing the tokens [s] at their end. *)
Definition pastEnd (s : list token) : panicValue :=
  IndexOutOfRange (List.length s) (List.length s).

(** What [m] returns on the tokens [s ++ [c]] without moving past [c], it
    returns on [s] alone, unless it indexes [s] at its end there. *)
Definition cuts {A : Type} (s : list token) (c : token) (m : M A) : Prop :=
  forall p a p',
    inBounds p -> tokens p = s ++ [c] ->
    m p = Ok a p' -> index p' <= List.length s ->
    m (short s p) = Ok a (short s p')
    \/ m (short s p) = Panic (pastEnd s).

Definition cut {A : Type} (s : list token) (c : token) (m : M A) : Prop :=
  keepsCursor m /\ cuts s c m.

(** The tokens [s] are one expression before the token [c]: on [s] followed
    by [c], [nextNode] returns [n] with the cursor on [c]. *)
Definition parsesBefore (fuel : nat) (s : list token) (c : token)
    (n : astNode) : Prop :=
  nextNode fuel (newParser (s ++ [c]))
  = Ok n (mkParser (s ++ [c]) (List.length s)).

(** An expression of a sequence: its tokens, the comma token after them and
    its node. *)
Record item : Set :=
  mkItem { itemTokens : list token; itemComma : token; itemNode : astNode }.

Definition itemsTokens (items : list item) : list token :=
  flat_map (fun it => itemTokens it ++ [itemComma it]) items.

Definition isItem (fuel : nat) (it : item) : Prop :=
  parsesBefore fuel (itemTokens it) (itemComma it) (itemNode it)
  /\ kind (itemComma it) = Kind.comma.

(** No expression of the sequence starts with a token of kind [close]. *)
Definition startsNot (close : tokKind) (it : item) : Prop :=
  forall t, hd_error (itemTokens it) = Some t -> kind t <> close.

(** The targets of a chain of assignments: each identifier with the
    assignment operator after it. *)
Definition isTarget (io : token * token) : Prop :=
  kind (fst io) = Kind.identifier
  /\ (kind (snd io) = Kind.assign \/ kind (snd io) = Kind.nonlocalAssign).

Definition targetTokens (targets : list (token * token)) : list token :=
  flat_map (fun io => [fst io; snd io]) targets.

Definition assignAll (targets : list (token * token)) (n : astNode) : astNode :=
  fold_right
    (fun io acc =>
       assignmentNode (kindIs (kind (snd io)) Kind.assign)
         (identifierNode (payload (fst io))) acc)
    n targets.

(** A chain of property accesses by name: each dot with the identifier
    after it. *)
Definition isAccess (dk : token * token) : Prop :=
  kind (fst dk) = Kind.dot /\ kind (snd dk) = Kind.identifier.

Definition accessTokens (keys : list (token * token)) : list token :=
  flat_map (fun dk => [fst dk; snd dk]) keys.

Definition accessAll (keys : list (token * token)) (n : astNode) : astNode :=
  fold_left
    (fun acc dk => propertyAccessNode acc (identifierNode (payload (snd dk))))
    keys n.

(** A chain of unary operators. *)
Definition isUnary (op : token) : Prop :=
  kind op = Kind.minus \/ kind op = Kind.exclam.

Definition unaryAll (ops : list token) (n : astNode) : astNode :=
  fold_right (fun op acc => unaryNode (kind op) acc) n ops.

(** The cursor is at the end of the tokens or on a token on which the loop
    of [nextNode] returns. *)
Definition atStop (p : parser) : Prop :=
  isEOF p = true
  \/ exists t, nth_error (tokens p) (index p) = Some t /\ stops (kind t) = true.

(** The tokens of [l] before the first one of kind [k]. *)
Fixpoint takeUntil (k : tokKind) (l : list token) : list token :=
  match l with
  | [] => []
  | t :: l' => if kindIs (kind t) k then [] else t :: takeUntil k l'
  end.

(** An entry of an object literal: the tokens of its key, the colon, the
    tokens of its value, the comma, and the two nodes. *)
Record entry : Set :=
  mkEntry { keyTokens : list token; entryColon : token;
            valTokens : list token; entryComma : token;
            keyNode : astNode; valNode : astNode }.

Definition entryTokens (e : entry) : list token :=
  keyTokens e ++ entryColon e :: valTokens e ++ [entryComma e].

Definition entriesTokens (es : list entry) : list token :=
  flat_map entryTokens es.

Definition entryNode (e : entry) : objectEntryNode :=
  mkObjectEntryNode (keyNode e) (valNode e).

Definition isEntry (fuel : nat) (e : entry) : Prop :=
  parsesBefore fuel (keyTokens e) (entryColon e) (keyNode e)
  /\ kind (entryColon e) = Kind.colon
  /\ parsesBefore fuel (valTokens e) (entryComma e) (valNode e)
  /\ kind (entryComma e) = Kind.comma.

(** No key starts with a right brace. *)
Definition keyStartsNotBrace (e : entry) : Prop :=
  forall t, hd_error (keyTokens e) = Some t -> kind t <> Kind.rightBrace.

(** The tokens start with the two braces of [{}]. *)
Definition emptyBraces (body : list token) : bool :=
  match body with
  | t1 :: t2 :: _ =>
      kindIs (kind t1) Kind.leftBrace && kindIs (kind t2) Kind.rightBrace
  | _ => false
  end.

(** The decimal digit of [d] below ten, and the numeral of a list of
    digits. *)
Definition digitChar (d : nat) : ascii := ascii_of_nat (48 + d).

Definition numeral (ds : list nat) : string :=
  string_of_list_ascii (map digitChar ds).

(** The number a list of decimal digits denotes, most significant first. *)
Definition digitsValue (ds : list nat) : Z :=
  fold_left (fun n d => (n * 10 + Z.of_nat d)%Z) ds 0%Z.

(** Tokens as the examples write them. *)
Definition tk (k : tokKind) : token := tokenOfKind k.
Definition num (s : string) : token := mkToken Kind.numberLiteral s zeroPos.
Definition ident (s : string) : token := mkToken Kind.identifier s zeroPos.

(** The expressions [1,] and [x,] of a sequence, and the entry [k: 1,] of
    an object literal. *)
Definition numItem (s : string) (v : Z) : item :=
  mkItem [num s] (tk Kind.comma) (numberNode true v PrimFloat.zero).

Definition identItem (s : string) : item :=
  mkItem [ident s] (tk Kind.comma) (identifierNode s).

Definition numEntry (k s : string) (v : Z) : entry :=
  mkEntry [ident k] (tk Kind.colon) [num s] (tk Kind.comma)
    (identifierNode k) (numberNode true v PrimFloat.zero).

(** The tokens of [1,] and of [1, x,]. *)
Definition oneComma : list token := [num "1"; tk Kind.comma].

Definition oneAndX : list item := [numItem "1" 1; identItem "x"].

(** The tokens of [1 + 2]. *)
Definition onePlusTwo : list token := [num "1"; tk Kind.plus; num "2"].

(** The tokens of [fn getRest(first, rest...) { rest }], with no comma
    between the ellipsis and the closing parenthesis. *)
Definition getRestNoComma : list token :=
  [tk Kind.fnKeyword; ident "getRest"; tk Kind.leftParen;
   ident "first"; tk Kind.comma; ident "rest"; tk Kind.ellipsis;
   tk Kind.rightParen;
   tk Kind.leftBrace; ident "rest"; tk Kind.comma; tk Kind.rightBrace].

(** The same with a comma between the ellipsis and the closing
    parenthesis. *)
Definition getRestWithComma : list token :=
  [tk Kind.fnKeyword; ident "getRest"; tk Kind.leftParen;
   ident "first"; tk Kind.comma; ident "rest"; tk Kind.ellipsis;
   tk Kind.comma; tk Kind.rightParen;
   tk Kind.leftBrace; ident "rest"; tk Kind.comma; tk Kind.rightBrace].

(** The tokens of [{ a: 1, },] and of [{ a, b, },]. *)
Definition braceObject : list token :=
  [tk Kind.leftBrace; ident "a"; tk Kind.colon; num "1"; tk Kind.comma;
   tk Kind.rightBrace; tk Kind.comma].

Definition braceBlock : list token :=
  [tk Kind.leftBrace; ident "a"; tk Kind.comma; ident "b"; tk Kind.comma;
   tk Kind.rightBrace; tk Kind.comma].

(** The tokens of [if 12 { 10 -> :a, 11, 12 -> :b, _ -> :c }]. *)
Definition ifTwelve : list token :=
  [tk Kind.ifKeyword; num "12"; tk Kind.leftBrace;
   num "10"; tk Kind.branchArrow; tk Kind.colon; ident "a"; tk Kind.comma;
   num "11"; tk Kind.comma;
   num "12"; tk Kind.branchArrow; tk Kind.colon; ident "b"; tk Kind.comma;
   tk Kind.underscore; tk Kind.branchArrow; tk Kind.colon; ident "c";
   tk Kind.rightBrace].

(** ** Basic facts about the cursor *)

Lemma kindIs_true (a b : tokKind) : kindIs a b = true <-> a = b.
Proof.
  unfold kindIs. destruct (tokKind_eq_dec a b); split; intros; congruence.
Qed.

Lemma kindIs_false (a b : tokKind) : kindIs a b = false <-> a <> b.
Proof.
  unfold kindIs. destruct (tokKind_eq_dec a b); split; intros; congruence.
Qed.

Lemma kindIs_refl (a : tokKind) : kindIs a a = true.
Proof. apply kindIs_true. reflexivity. Qed.

Lemma isEOF_at (p : parser) (t : token) :
  nth_error (tokens p) (index p) = Some t -> isEOF p = false.
Proof.
  intros H. unfold isEOF. apply Nat.eqb_neq. intros E.
  assert (nth_error (tokens p) (index p) <> None) by congruence.
  apply nth_error_Some in H0. lia.
Qed.

Lemma peek_at (p : parser) (t : token) :
  nth_error (tokens p) (index p) = Some t -> peek p = Ok t p.
Proof. intros H. unfold peek, tokenAt. rewrite H. reflexivity. Qed.

Lemma next_at (p : parser) (t : token) :
  nth_error (tokens p) (index p) = Some t -> next p = Ok t (advance p).
Proof.
  intros H. unfold next, tokenAt. rewrite H.
  assert (L : index p < List.length (tokens p))
    by (apply nth_error_Some; congruence).
  apply Nat.ltb_lt in L. rewrite L. reflexivity.
Qed.

Lemma expect_at (p : parser) (t : token) (k : tokKind) :
  nth_error (tokens p) (index p) = Some t -> kind t = k ->
  expect k p = Ok t (advance p).
Proof.
  intros H K. unfold expect. rewrite (isEOF_at p t H).
  unfold bind. rewrite (next_at p t H).
  subst k. rewrite kindIs_refl. reflexivity.
Qed.

(** ** The loop of [nextNode] on operators *)

(** An iteration of the loop of [nextNode] that meets a stalling kind leaves
    the node and the cursor as they are, so no number of iterations ends
    the loop. *)
Lemma nextNodeLoop_stalls (rec : M astNode) (n k : nat) (node : astNode)
    (p : parser) (t : token) :
  nth_error (tokens p) (index p) = Some t ->
  stalls (kind t) = true ->
  nextNodeLoop rec n k node p = OutOfFuel.
Proof.
  intros Hat Hst. induction k as [|k IH]; [reflexivity|].
  cbn [nextNodeLoop]. rewrite (isEOF_at p t Hat).
  unfold bind at 1. rewrite (peek_at p t Hat).
  destruct (kind t); try discriminate Hst; exact IH.
Qed.

(** [parseAtom] on a token it turns into a node by itself. *)
Lemma parseAtom_oneToken (rec : M astNode) (n : nat) (p : parser) (t : token) :
  nth_error (tokens p) (index p) = Some t ->
  oneTokenAtom (kind t) = true ->
  parseAtom rec n p = Ok (oneTokenNode t) (advance p).
Proof.
  intros Hat H1. unfold parseAtom, bind. rewrite (next_at p t Hat).
  unfold oneTokenNode.
  destruct (kind t); try discriminate H1; reflexivity.
Qed.

Lemma nextNode_stalls_after_atom (fuel : nat) (p : parser) (a op : token) :
  nth_error (tokens p) (index p) = Some a ->
  nth_error (tokens p) (S (index p)) = Some op ->
  oneTokenAtom (kind a) = true ->
  stalls (kind op) = true ->
  nextNode fuel p = OutOfFuel.
Proof.
  intros Ha Hop H1 Hst. destruct fuel as [|f]; [reflexivity|].
  cbn [nextNode]. unfold bind at 1.
  rewrite (parseAtom_oneToken _ _ p a Ha H1).
  apply (nextNodeLoop_stalls _ _ _ _ (advance p) op); assumption.
Qed.

Lemma parseLoop_OutOfFuel (rec : M astNode) (k : nat) (nodes : list astNode)
    (p : parser) (t : token) :
  nth_error (tokens p) (index p) = Some t ->
  rec p = OutOfFuel ->
  parseLoop rec k nodes p = StillRunning.
Proof.
  intros Hat H. destruct k as [|k]; [reflexivity|].
  cbn [parseLoop]. rewrite (isEOF_at p t Hat). unfold bind at 1.
  rewrite H. reflexivity.
Qed.

(** C3. The loop of [nextNode] makes no progress on an operator token (nor
    on any other kind its [switch] leaves to the default case): when the
    tokens start with an atom followed by such a token, [parse] is still
    running after any number of steps. *)
Theorem parse_stalls_on_operator (a op : token) (rest : list token) :
  oneTokenAtom (kind a) = true ->
  stalls (kind op) = true ->
  forall fuel, parse fuel (newParser (a :: op :: rest)) = StillRunning.
Proof.
  intros H1 Hst fuel. unfold parse.
  apply (parseLoop_OutOfFuel _ _ _ _ a); [reflexivity|].
  apply (nextNode_stalls_after_atom fuel _ a op); auto.
Qed.

Lemma parseAtom_int (rec : M astNode) (n : nat) (p : parser) (t : token) (i : Z) :
  nth_error (tokens p) (index p) = Some t ->
  kind t = Kind.numberLiteral ->
  ContainsRune (payload t) "." = false ->
  ParseInt (payload t) = (i, None) ->
  parseAtom rec n p = Ok (numberNode true i PrimFloat.zero) (advance p).
Proof.
  intros Hat K C I. unfold parseAtom, bind. rewrite (next_at p t Hat).
  rewrite K, C, I. reflexivity.
Qed.

(** C1. On the tokens of [1 + 2] (whatever follows them) [parseAtom] returns
    the integer node 1, the loop of [nextNode] then stays on the [plus]
    token without building a binary node, and [parse] is still running
    after any number of steps: no value 3 is ever produced. *)
Theorem one_plus_two_is_never_parsed (rest : list token) :
  (forall rec n,
      parseAtom rec n (newParser (onePlusTwo ++ rest))
      = Ok (numberNode true 1 PrimFloat.zero)
           (mkParser (onePlusTwo ++ rest) 1))
  /\ (forall rec n k node,
         nextNodeLoop rec n k node (mkParser (onePlusTwo ++ rest) 1)
         = OutOfFuel)
  /\ (forall fuel, parse fuel (newParser (onePlusTwo ++ rest)) = StillRunning).
Proof.
  assert (A : forall rec n,
             parseAtom rec n (newParser (onePlusTwo ++ rest))
             = Ok (numberNode true 1 PrimFloat.zero)
                  (mkParser (onePlusTwo ++ rest) 1)).
  { intros rec n.
    apply (parseAtom_int rec n (newParser (onePlusTwo ++ rest)) (num "1"));
      reflexivity. }
  assert (L : forall rec n k node,
             nextNodeLoop rec n k node (mkParser (onePlusTwo ++ rest) 1)
             = OutOfFuel).
  { intros rec n k node.
    apply (nextNodeLoop_stalls rec n k node _ (tk Kind.plus)); reflexivity. }
  split; [exact A|]. split; [exact L|].
  intros fuel. unfold parse.
  apply (parseLoop_OutOfFuel _ _ _ _ (num "1")); [reflexivity|].
  destruct fuel as [|f]; [reflexivity|].
  cbn [nextNode]. unfold bind at 1. rewrite A. apply L.
Qed.

(** C7. On the tokens of [if 12 { 10 -> :a, 11, 12 -> :b, _ -> :c }]
    (whatever follows them) [parseAtom] answers the [if] keyword with the
    boolean node [false], no [ifExprNode] is built, and [parse] is still
    running after any number of steps: the atom [:b] is never produced. *)
Theorem if_twelve_is_never_parsed (rest : list token) :
  (forall rec n,
      parseAtom rec n (newParser (ifTwelve ++ rest))
      = Ok (booleanNode false) (mkParser (ifTwelve ++ rest) 1))
  /\ (forall fuel, parse fuel (newParser (ifTwelve ++ rest)) = StillRunning).
Proof.
  split.
  - intros rec n.
    apply (parseAtom_oneToken rec n (newParser (ifTwelve ++ rest))
             (tk Kind.ifKeyword)); reflexivity.
  - intros fuel. unfold parse.
    apply (parseLoop_OutOfFuel _ _ _ _ (tk Kind.ifKeyword)); [reflexivity|].
    apply (nextNode_stalls_after_atom fuel _ (tk Kind.ifKeyword) (num "12"));
      reflexivity.
Qed.

(** ** Tokens that are not reported, and panics *)

(** C2. A token that the [switch] of [parseAtom] does not handle is not
    reported: [parseAtom] answers it with the boolean node [false], and
    [parse] returns that node without an error. *)
Theorem unexpected_token_yields_false_node (t : token) :
  reachesAfterSwitch (kind t) = true ->
  forall fuel,
    parse (S (S fuel)) (newParser [t; tk Kind.comma])
    = Returns [booleanNode false] None.
Proof.
  intros H fuel.
  assert (A : forall rec n,
             parseAtom rec n (newParser [t; tk Kind.comma])
             = Ok (booleanNode false) (mkParser [t; tk Kind.comma] 1)).
  { intros rec n.
    rewrite (parseAtom_oneToken rec n (newParser [t; tk Kind.comma]) t)
      by (try reflexivity; destruct (kind t); try discriminate H; reflexivity).
    unfold oneTokenNode.
    destruct (kind t); try discriminate H; reflexivity. }
  unfold parse. cbn [parseLoop].
  change (isEOF (newParser [t; tk Kind.comma])) with false. cbv iota.
  unfold bind at 1. cbn [nextNode]. unfold bind at 1.
  rewrite A. reflexivity.
Qed.

Lemma expect_mismatch (k : tokKind) (p : parser) (t : token) :
  nth_error (tokens p) (index p) = Some t ->
  kind t <> k ->
  expect k p
  = Panic (PanicString
             (String.append "expected "
                (String.append (tokString (tokenOfKind k))
                   (String.append " got " (tokString t))))).
Proof.
  intros H K. unfold expect. rewrite (isEOF_at p t H).
  unfold bind. rewrite (next_at p t H).
  apply kindIs_false in K. rewrite K. reflexivity.
Qed.

Lemma tokenAt_end (p : parser) (i : nat) :
  List.length (tokens p) <= i ->
  tokenAt i p = Panic (IndexOutOfRange i (List.length (tokens p))).
Proof.
  intros H. unfold tokenAt. apply nth_error_None in H. now rewrite H.
Qed.

(** C9. [parse] does panic.  [expect] panics on every token of another kind
    than the expected one; [peek] and [next] index past the tokens when
    they are called at the end, as [parseMaybeAssignment] does after a last
    identifier; [peekAhead 1] indexes past the tokens on the last token, as
    the body of a [fn] does on a last left brace. *)
Theorem parse_panics :
  (forall k p t,
      nth_error (tokens p) (index p) = Some t ->
      kind t <> k ->
      expect k p
      = Panic (PanicString
                 (String.append "expected "
                    (String.append (tokString (tokenOfKind k))
                       (String.append " got " (tokString t))))))
  /\ (forall p,
         isEOF p = true ->
         peek p = Panic (IndexOutOfRange (index p) (List.length (tokens p)))
         /\ next p = Panic (IndexOutOfRange (index p) (List.length (tokens p))))
  /\ (forall p,
         index p + 1 = List.length (tokens p) ->
         peekAhead 1 p
         = Panic (IndexOutOfRange (index p + 1) (List.length (tokens p))))
  /\ (forall fuel,
         parse (S (S fuel)) (newParser [num "1"; tk Kind.rightParen])
         = Panics (PanicString
                     (String.append "expected "
                        (String.append (tokString (tk Kind.comma))
                           (String.append " got "
                              (tokString (tk Kind.rightParen)))))))
  /\ (forall fuel,
         parse (S (S fuel)) (newParser [ident "x"])
         = Panics (IndexOutOfRange 1 1))
  /\ (forall fuel,
         parse (S (S fuel)) (newParser [tk Kind.fnKeyword; tk Kind.leftBrace])
         = Panics (IndexOutOfRange 2 2)).
Proof.
  split; [exact expect_mismatch|].
  split.
  { intros p E. unfold isEOF in E. apply Nat.eqb_eq in E.
    unfold peek, next. rewrite (tokenAt_end p (index p)) by lia. auto. }
  split.
  { intros p E. unfold peekAhead.
    replace (List.length (tokens p) <? index p + 1) with false
      by (symmetry; apply Nat.ltb_ge; lia).
    apply tokenAt_end. lia. }
  split; [|split]; intros fuel; reflexivity.
Qed.

(** ** Atoms after a colon, and empty braces *)

(** C10. When the token after a colon is not an identifier, [parseAtom]
    returns the parse error "Expected identifier after ':'" and no node,
    and so does [nextNode]. *)
Theorem colon_without_identifier_is_an_error (rec : M astNode) (n : nat)
    (p : parser) (c t : token) :
  nth_error (tokens p) (index p) = Some c ->
  kind c = Kind.colon ->
  nth_error (tokens p) (S (index p)) = Some t ->
  kind t <> Kind.identifier ->
  parseAtom rec n p
  = Err (parseErrorOf
           (String.append "Expected identifier after ':', got " (tokString t)))
        (advance p)
  /\ forall fuel,
      nextNode (S fuel) p
      = Err (parseErrorOf
               (String.append "Expected identifier after ':', got "
                  (tokString t)))
            (advance p).
Proof.
  intros Hc Kc Ht Kt.
  assert (A : forall rec' n',
             parseAtom rec' n' p
             = Err (parseErrorOf
                      (String.append "Expected identifier after ':', got "
                         (tokString t)))
                   (advance p)).
  { intros rec' n'. unfold parseAtom. unfold bind at 1.
    rewrite (next_at p c Hc), Kc. unfold bind at 1.
    rewrite (peek_at (advance p) t Ht).
    apply kindIs_false in Kt. rewrite Kt. reflexivity. }
  split; [apply A|].
  intros fuel. cbn [nextNode]. unfold bind at 1. rewrite A. reflexivity.
Qed.

(** ** Braces: block or object *)

Lemma expect_Ok (k : tokKind) (p p' : parser) (t : token) :
  expect k p = Ok t p' ->
  nth_error (tokens p) (index p) = Some t /\ kind t = k /\ p' = advance p.
Proof.
  unfold expect. destruct (isEOF p); [discriminate|].
  unfold bind, next, tokenAt.
  destruct (nth_error (tokens p) (index p)) as [t0|] eqn:E; [|discriminate].
  destruct (index p <? List.length (tokens p)) eqn:L.
  - destruct (kindIs (kind t0) k) eqn:K; cbn; [|discriminate].
    intros H. injection H as <- <-. apply kindIs_true in K. auto.
  - apply Nat.ltb_ge in L.
    assert (nth_error (tokens p) (index p) <> None) by congruence.
    apply nth_error_Some in H. lia.
Qed.

Lemma parseMaybeAssignment_shape (rec : M astNode) (left node : astNode)
    (p p' : parser) :
  parseMaybeAssignment rec left p = Ok node p' ->
  node = left \/ exists b r, node = assignmentNode b left r.
Proof.
  unfold parseMaybeAssignment, bind.
  destruct (peek p) as [t p1| | |]; try discriminate.
  destruct (negb (kindIs (kind t) Kind.assign)
            && negb (kindIs (kind t) Kind.nonlocalAssign)).
  - unfold ret. intros H. injection H as <- _. now left.
  - destruct (next p1) as [op p2| | |]; try discriminate.
    destruct (rec p2) as [r p3| | |]; try discriminate.
    unfold ret. intros H. injection H as <- _. right. eauto.
Qed.

Lemma parseExprsUntil_extends (rec : M astNode) (close : tokKind) (n : nat) :
  forall acc p res p',
    parseExprsUntil rec close n acc p = Ok res p' ->
    exists more, res = acc ++ more.
Proof.
  induction n as [|n IH]; intros acc p res p'; [discriminate|].
  cbn [parseExprsUntil]. destruct (isEOF p).
  - intros H. injection H as <- _. exists []. now rewrite app_nil_r.
  - unfold bind at 1. destruct (peek p) as [t p1| | |]; try discriminate.
    destruct (kindIs (kind t) close).
    + unfold ret. intros H. injection H as <- _. exists [].
      now rewrite app_nil_r.
    + unfold bind at 1. destruct (rec p1) as [node p2| | |]; try discriminate.
      unfold bind at 1.
      destruct (expect Kind.comma p2) as [c p3| | |]; try discriminate.
      intros H. apply IH in H. destruct H as [more ->].
      exists (node :: more). now rewrite <- app_assoc.
Qed.

Lemma parseEntriesUntil_extends (rec : M astNode) (n : nat) :
  forall acc p res p',
    parseEntriesUntil rec n acc p = Ok res p' ->
    exists more, res = acc ++ more.
Proof.
  induction n as [|n IH]; intros acc p res p'; [discriminate|].
  cbn [parseEntriesUntil]. destruct (isEOF p).
  - intros H. injection H as <- _. exists []. now rewrite app_nil_r.
  - unfold bind at 1. destruct (peek p) as [t p1| | |]; try discriminate.
    destruct (kindIs (kind t) Kind.rightBrace).
    + unfold ret. intros H. injection H as <- _. exists [].
      now rewrite app_nil_r.
    + unfold bind at 1. destruct (rec p1) as [key p2| | |]; try discriminate.
      unfold bind at 1.
      destruct (expect Kind.colon p2) as [c p3| | |]; try discriminate.
      unfold bind at 1. destruct (rec p3) as [val p4| | |]; try discriminate.
      unfold bind at 1.
      destruct (expect Kind.comma p4) as [c' p5| | |]; try discriminate.
      intros H. apply IH in H. destruct H as [more ->].
      exists (mkObjectEntryNode key val :: more). now rewrite <- app_assoc.
Qed.

(** The head of a non-empty brace form that [parseAtom] parses: the one
    token after its first inner expression is a colon and the node an
    object literal with that expression as its first key, or it is a comma
    and the node a block that starts with that expression. *)
Lemma brace_form_head (rec : M astNode) (n : nat)
    (p p' : parser) (l t : token) (node : astNode) :
  nth_error (tokens p) (index p) = Some l ->
  kind l = Kind.leftBrace ->
  nth_error (tokens p) (S (index p)) = Some t ->
  kind t <> Kind.rightBrace ->
  parseAtom rec n p = Ok node p' ->
  exists first p1 t1,
    rec (advance p) = Ok first p1
    /\ nth_error (tokens p1) (index p1) = Some t1
    /\ if kindIs (kind t1) Kind.colon
       then braceObjectOf first node
       else kind t1 = Kind.comma /\ braceBlockOf first node.
Proof.
  intros Hl Kl Ht Kt. unfold parseAtom. unfold bind at 1.
  rewrite (next_at p l Hl), Kl. unfold bind at 1.
  rewrite (peek_at (advance p) t Ht).
  apply kindIs_false in Kt. rewrite Kt. unfold bind at 1.
  destruct (rec (advance p)) as [first p1| | |] eqn:R; try discriminate.
  destruct (isEOF p1); [discriminate|].
  unfold bind at 1. unfold peek, tokenAt.
  destruct (nth_error (tokens p1) (index p1)) as [t1|] eqn:E1; [|discriminate].
  intros H. exists first, p1, t1. split; [reflexivity|]. split; [exact E1|].
  destruct (kindIs (kind t1) Kind.colon) eqn:K1.
  - (* object *)
    revert H. unfold bind at 1.
    destruct (next p1) as [c p2| | |]; try discriminate.
    unfold bind at 1. destruct (rec p2) as [v p3| | |]; try discriminate.
    unfold bind at 1.
    destruct (expect Kind.comma p3) as [c' p4| | |]; try discriminate.
    unfold bind at 1.
    destruct (parseEntriesUntil rec n [mkObjectEntryNode first v] p4)
      as [entries p5| | |] eqn:En; try discriminate.
    apply parseEntriesUntil_extends in En. destruct En as [more ->].
    unfold bind at 1.
    destruct (expect Kind.rightBrace p5) as [c'' p6| | |]; try discriminate.
    intros H. apply parseMaybeAssignment_shape in H.
    destruct H as [->|(b & r & ->)]; reflexivity.
  - (* block *)
    revert H. unfold bind at 1.
    destruct (expect Kind.comma p1) as [c p2| | |] eqn:Ex; try discriminate.
    apply expect_Ok in Ex. destruct Ex as (Ec & Kc & _).
    rewrite E1 in Ec. injection Ec as ->.
    unfold bind at 1.
    destruct (parseExprsUntil rec Kind.rightBrace n [first] p2)
      as [exprs p3| | |] eqn:En; try discriminate.
    apply parseExprsUntil_extends in En. destruct En as [more ->].
    unfold bind at 1.
    destruct (expect Kind.rightBrace p3) as [c'' p4| | |]; try discriminate.
    unfold ret. intros H. injection H as <- _. split; [exact Kc|reflexivity].
Qed.

(** ** Rest arguments *)

Lemma remaining_cons (p : parser) (t : token) (rest : list token) :
  remaining p = t :: rest ->
  nth_error (tokens p) (index p) = Some t /\ remaining (advance p) = rest.
Proof.
  unfold remaining, advance. cbn [tokens index].
  generalize (index p) as i. generalize (tokens p) as l.
  induction l as [|x l IH]; intros i H.
  - rewrite skipn_nil in H. discriminate.
  - destruct i as [|i]; cbn in *.
    + injection H as -> ->. auto.
    + apply IH. exact H.
Qed.

Lemma advance_advanceBy (k : nat) (p : parser) :
  advance (advanceBy k p) = advanceBy (S k) p.
Proof. reflexivity. Qed.

Lemma advance_as_advanceBy (p : parser) : advance p = advanceBy 1 p.
Proof. reflexivity. Qed.

(** The argument loop on names that are each followed by a comma, up to a
    name followed by an ellipsis and a comma. *)
Lemma parseFnArgs_rest (pairs : list (token * token)) :
  forall (n : nat) (args : list string) (p : parser) (r e c : token)
         (rest : list token),
    Forall isArgPair pairs ->
    remaining p = argTokens pairs ++ r :: e :: c :: rest ->
    kind r = Kind.identifier -> kind e = Kind.ellipsis -> kind c = Kind.comma ->
    List.length pairs < n ->
    parseFnArgs n args p
    = Ok (args ++ map (fun ac => payload (fst ac)) pairs, payload r)
         (advanceBy (2 * List.length pairs + 3) p)
    /\ remaining (advanceBy (2 * List.length pairs + 3) p) = rest.
Proof.
  induction pairs as [|[a c0] pairs IH];
    intros n args p r e c rest HF Hrem Kr Ke Kc Hn.
  - destruct n as [|n]; [lia|]. cbn [argTokens flat_map app] in Hrem.
    apply remaining_cons in Hrem. destruct Hrem as [Hr Hrem].
    apply remaining_cons in Hrem. destruct Hrem as [He Hrem].
    apply remaining_cons in Hrem. destruct Hrem as [Hc Hrem].
    split; [|exact Hrem].
    cbn [parseFnArgs]. rewrite (isEOF_at p r Hr). unfold bind at 1.
    rewrite (peek_at p r Hr), Kr.
    change (kindIs Kind.identifier Kind.rightParen) with false. cbv iota.
    unfold bind at 1. rewrite (expect_at p r _ Hr Kr).
    unfold bind at 1. rewrite (peek_at (advance p) e He), Ke, kindIs_refl.
    unfold bind at 1. rewrite (next_at (advance p) e He).
    unfold bind at 1. rewrite (expect_at (advance (advance p)) c _ Hc Kc).
    rewrite app_nil_r. reflexivity.
  - destruct n as [|n]; [cbn in Hn; lia|].
    inversion HF as [|? ? [Ka Kc0] HF']; subst. cbn [fst snd] in Ka, Kc0.
    cbn [argTokens flat_map app fst snd] in Hrem.
    apply remaining_cons in Hrem. destruct Hrem as [Ha Hrem].
    apply remaining_cons in Hrem. destruct Hrem as [Hc0 Hrem].
    fold (argTokens pairs) in Hrem.
    destruct (IH n (args ++ [payload a]) (advance (advance p)) r e c rest
                HF' Hrem Kr Ke Kc ltac:(cbn in Hn; lia)) as [E R].
    replace (advanceBy (2 * List.length pairs + 3) (advance (advance p)))
      with (advanceBy (2 * List.length ((a, c0) :: pairs) + 3) p) in E, R
      by (unfold advanceBy, advance; cbn [tokens index List.length]; f_equal; lia).
    split; [|exact R].
    cbn [parseFnArgs]. rewrite (isEOF_at p a Ha). unfold bind at 1.
    rewrite (peek_at p a Ha), Ka.
    change (kindIs Kind.identifier Kind.rightParen) with false. cbv iota.
    unfold bind at 1. rewrite (expect_at p a _ Ha Ka).
    unfold bind at 1. rewrite (peek_at (advance p) c0 Hc0), Kc0.
    change (kindIs Kind.comma Kind.ellipsis) with false. cbv iota.
    unfold bind at 1. rewrite (expect_at (advance p) c0 _ Hc0 Kc0).
    rewrite E. cbn [map fst]. rewrite <- app_assoc. reflexivity.
Qed.

Lemma get_bindCall_rest (args : list string) (restArg : string)
    (actuals : list Value) :
  restArg <> "" ->
  get restArg (bindCall args restArg actuals)
  = Some (ListValue (skipn (List.length args) actuals)).
Proof.
  intros H. unfold bindCall.
  destruct (String.eqb restArg "") eqn:E.
  - apply String.eqb_eq in E. contradiction.
  - cbn [put get]. rewrite String.eqb_refl. reflexivity.
Qed.

(** C8, amended. A [fn] whose parenthesized argument list ends with an
    identifier, an ellipsis, a comma and the closing parenthesis, and whose
    body parses, is parsed into a function node whose rest-argument name is
    that identifier and whose arguments are the names before it; under the
    call rule of the language description a call binds that name to the
    list of the actuals beyond the named arguments. *)
Theorem rest_argument_with_comma (rec : M astNode) (n : nat) (p p' : parser)
    (f lp r e c rp : token) (name : option token)
    (pairs : list (token * token)) (rest : list token) (body : astNode) :
  remaining p
  = f :: nameTokens name ++ lp :: argTokens pairs ++ r :: e :: c :: rp :: rest ->
  kind f = Kind.fnKeyword ->
  (forall id, name = Some id -> kind id = Kind.identifier) ->
  kind lp = Kind.leftParen ->
  Forall isArgPair pairs ->
  kind r = Kind.identifier -> kind e = Kind.ellipsis ->
  kind c = Kind.comma -> kind rp = Kind.rightParen ->
  List.length pairs < n ->
  parseFnBody rec
    (advanceBy (List.length (nameTokens name) + 2 * List.length pairs + 6) p)
  = Ok body p' ->
  parseAtom rec n p
  = Ok (fnNode (fnName name) (map (fun ac => payload (fst ac)) pairs)
          (payload r) body) p'
  /\ (payload r <> "" ->
      forall actuals,
        get (payload r)
          (bindCall (map (fun ac => payload (fst ac)) pairs) (payload r) actuals)
        = Some (ListValue (skipn (List.length pairs) actuals))).
Proof.
  intros Hrem Kf Kname Klp HF Kr Ke Kc Krp Hn Hbody.
  split.
  2:{ intros Hne actuals. rewrite get_bindCall_rest by exact Hne.
      now rewrite length_map. }
  apply remaining_cons in Hrem. destruct Hrem as [Hf Hrem].
  unfold parseAtom. unfold bind at 1. rewrite (next_at p f Hf), Kf.
  assert (Hdr : exists q,
             (forall (k : string -> M astNode),
                 (t <- peek ;;
                  name' <- (if kindIs (kind t) Kind.identifier
                            then id <- next ;; ret (payload id)
                            else ret "") ;;
                  k name') (advance p) = k (fnName name) q)
             /\ q = advanceBy (List.length (nameTokens name) + 1) p
             /\ remaining q
                = lp :: argTokens pairs ++ r :: e :: c :: rp :: rest).
  { destruct name as [id|]; cbn [nameTokens fnName app List.length] in *.
    - apply remaining_cons in Hrem. destruct Hrem as [Hid Hrem].
      exists (advance (advance p)). split; [|split; [reflexivity|exact Hrem]].
      intros k. unfold bind at 1. rewrite (peek_at (advance p) id Hid).
      rewrite (Kname id eq_refl), kindIs_refl. unfold bind.
      rewrite (next_at (advance p) id Hid). reflexivity.
    - exists (advance p). split; [|split; [reflexivity|exact Hrem]].
      pose proof (remaining_cons _ _ _ Hrem) as [Hlp _].
      intros k. unfold bind at 1. rewrite (peek_at (advance p) lp Hlp), Klp.
      reflexivity. }
  destruct Hdr as (q & Hq & Eq & Hrem').
  rewrite Hq.
  apply remaining_cons in Hrem'. destruct Hrem' as [Hlp Hrem'].
  unfold bind at 1. rewrite (peek_at q lp Hlp), Klp, kindIs_refl.
  unfold bind at 1. unfold bind at 1. rewrite (next_at q lp Hlp).
  destruct (parseFnArgs_rest pairs n [] (advance q) r e c (rp :: rest)
              HF Hrem' Kr Ke Kc Hn) as [E R].
  unfold bind at 1. rewrite E.
  apply remaining_cons in R. destruct R as [Hrp _].
  unfold bind at 1. rewrite (expect_at _ rp _ Hrp Krp).
  unfold ret at 1. unfold bind at 1.
  replace (advance (advanceBy (2 * List.length pairs + 3) (advance q)))
    with (advanceBy (List.length (nameTokens name) + 2 * List.length pairs + 6) p)
    by (subst q; unfold advanceBy, advance; cbn [tokens index]; f_equal; lia).
  rewrite Hbody. reflexivity.
Qed.

(** ** Steps of a run

    What a [bind] that returns went through, and the step that a known
    first result lets it take. *)

Lemma bind_Ok {A B : Type} (m : M A) (k : A -> M B) (p p' : parser) (b : B) :
  bind m k p = Ok b p' ->
  exists a p1, m p = Ok a p1 /\ k a p1 = Ok b p'.
Proof.
  unfold bind. destruct (m p) as [a p1| | |]; try discriminate. eauto.
Qed.

Lemma bind_step {A B : Type} (m : M A) (k : A -> M B) (p p1 : parser) (a : A) :
  m p = Ok a p1 -> bind m k p = k a p1.
Proof. intros H. unfold bind. now rewrite H. Qed.

Lemma peek_Ok (p p' : parser) (t : token) :
  peek p = Ok t p' -> nth_error (tokens p) (index p) = Some t /\ p' = p.
Proof.
  unfold peek, tokenAt.
  destruct (nth_error (tokens p) (index p)); [|discriminate].
  intros H. injection H as -> ->. auto.
Qed.

Lemma next_Ok (p p' : parser) (t : token) :
  next p = Ok t p' -> nth_error (tokens p) (index p) = Some t /\ p' = advance p.
Proof.
  intros H. unfold next, tokenAt in H.
  destruct (nth_error (tokens p) (index p)) as [t0|] eqn:E; [|discriminate].
  assert (L : index p < List.length (tokens p))
    by (apply nth_error_Some; congruence).
  apply Nat.ltb_lt in L. rewrite L in H. injection H as -> <-. auto.
Qed.

(** ** More fuel

    Fuel only bounds a run: an outcome other than the lack of fuel is the
    outcome for every larger amount of fuel. *)

Lemma approxM_refl {A : Type} (m : M A) : approxM m m.
Proof. intros p. now right. Qed.

Lemma bind_approx {A B : Type} (m m' : M A) (k k' : A -> M B) :
  approxM m m' -> (forall a, approxM (k a) (k' a)) ->
  approxM (bind m k) (bind m' k').
Proof.
  intros Hm Hk p. unfold bind. destruct (Hm p) as [E|E]; rewrite E.
  - now left.
  - destruct (m' p); try (now right). apply Hk.
Qed.

Ltac approx_step :=
  first
    [ apply approxM_refl
    | assumption
    | apply bind_approx; [|intros ?]
    | match goal with
      | |- approxM (if ?c then _ else _) (if ?c then _ else _) => destruct c
      | |- approxM (match ?x with inl _ => _ | inr _ => _ end) _ => destruct x
      | |- approxM (match ?x with (_, _) => _ end) _ => destruct x
      | |- approxM (match ?x with Some _ => _ | None => _ end) _ => destruct x
      end ].

Lemma parseMaybeAssignment_approx (rec rec' : M astNode) (left : astNode) :
  approxM rec rec' ->
  approxM (parseMaybeAssignment rec left) (parseMaybeAssignment rec' left).
Proof. intros HR. unfold parseMaybeAssignment. repeat approx_step. Qed.

Lemma parseExprsUntil_approx (rec rec' : M astNode) (close : tokKind) :
  approxM rec rec' ->
  forall n n' acc,
    n <= n' ->
    approxM (parseExprsUntil rec close n acc) (parseExprsUntil rec' close n' acc).
Proof.
  intros HR. induction n as [|n IH]; intros n' acc Hn p; [now left|].
  destruct n' as [|n']; [lia|]. cbn [parseExprsUntil].
  destruct (isEOF p); [now right|].
  revert p. change (approxM
    (t <- peek ;;
     (if kindIs (kind t) close then ret acc
      else node <- rec ;; expect Kind.comma ;;;
           parseExprsUntil rec close n (acc ++ [node])))
    (t <- peek ;;
     (if kindIs (kind t) close then ret acc
      else node <- rec' ;; expect Kind.comma ;;;
           parseExprsUntil rec' close n' (acc ++ [node])))).
  repeat approx_step. apply IH. lia.
Qed.

Lemma parseEntriesUntil_approx (rec rec' : M astNode) :
  approxM rec rec' ->
  forall n n' acc,
    n <= n' ->
    approxM (parseEntriesUntil rec n acc) (parseEntriesUntil rec' n' acc).
Proof.
  intros HR. induction n as [|n IH]; intros n' acc Hn p; [now left|].
  destruct n' as [|n']; [lia|]. cbn [parseEntriesUntil].
  destruct (isEOF p); [now right|].
  revert p. change (approxM
    (t <- peek ;;
     (if kindIs (kind t) Kind.rightBrace then ret acc
      else key <- rec ;; expect Kind.colon ;;; val <- rec ;;
           expect Kind.comma ;;;
           parseEntriesUntil rec n (acc ++ [mkObjectEntryNode key val])))
    (t <- peek ;;
     (if kindIs (kind t) Kind.rightBrace then ret acc
      else key <- rec' ;; expect Kind.colon ;;; val <- rec' ;;
           expect Kind.comma ;;;
           parseEntriesUntil rec' n' (acc ++ [mkObjectEntryNode key val])))).
  repeat approx_step. apply IH. lia.
Qed.

Lemma parseFnArgs_approx :
  forall n n' args,
    n <= n' -> approxM (parseFnArgs n args) (parseFnArgs n' args).
Proof.
  induction n as [|n IH]; intros n' args Hn p; [now left|].
  destruct n' as [|n']; [lia|]. cbn [parseFnArgs].
  destruct (isEOF p); [now right|].
  revert p. change (approxM
    (t <- peek ;;
     (if kindIs (kind t) Kind.rightParen then ret (args, "")
      else arg <- expect Kind.identifier ;; t' <- peek ;;
           (if kindIs (kind t') Kind.ellipsis
            then next ;;; expect Kind.comma ;;; ret (args, payload arg)
            else expect Kind.comma ;;; parseFnArgs n (args ++ [payload arg]))))
    (t <- peek ;;
     (if kindIs (kind t) Kind.rightParen then ret (args, "")
      else arg <- expect Kind.identifier ;; t' <- peek ;;
           (if kindIs (kind t') Kind.ellipsis
            then next ;;; expect Kind.comma ;;; ret (args, payload arg)
            else expect Kind.comma ;;; parseFnArgs n' (args ++ [payload arg]))))).
  repeat approx_step. apply IH. lia.
Qed.

Lemma parseAtom_approx (rec rec' : M astNode) (n n' : nat) :
  approxM rec rec' -> n <= n' ->
  approxM (parseAtom rec n) (parseAtom rec' n').
Proof.
  intros HR Hn. unfold parseAtom. apply bind_approx; [apply approxM_refl|].
  intros tok.
  pose proof (fun close acc =>
                parseExprsUntil_approx rec rec' close HR n n' acc Hn) as HE.
  pose proof (fun acc => parseEntriesUntil_approx rec rec' HR n n' acc Hn) as HO.
  pose proof (fun args => parseFnArgs_approx n n' args Hn) as HA.
  pose proof (parseMaybeAssignment_approx rec rec') as HM.
  destruct (kind tok); unfold afterSwitch, parseFnBody;
    repeat first [ approx_step | apply HE | apply HO | apply HA | apply HM ].
  (* the brace form, after its first expression *)
  intros p. destruct (isEOF p); [now right|]. revert p.
  match goal with
  | |- forall p, approx (?m p) (?m' p) => change (approxM m m')
  end.
  repeat first [ approx_step | apply HE | apply HO | apply HM ].
Qed.

Lemma nextNodeLoop_approx (rec rec' : M astNode) (n n' : nat) :
  approxM rec rec' -> n <= n' ->
  forall k k' node,
    k <= k' ->
    approxM (nextNodeLoop rec n k node) (nextNodeLoop rec' n' k' node).
Proof.
  intros HR Hn. induction k as [|k IH]; intros k' node Hk p; [now left|].
  destruct k' as [|k']; [lia|]. cbn [nextNodeLoop].
  destruct (isEOF p); [now right|]. revert p.
  match goal with
  | |- forall p, approx (?m p) (?m' p) => change (approxM m m')
  end.
  pose proof (fun close acc =>
                parseExprsUntil_approx rec rec' close HR n n' acc Hn) as HE.
  pose proof (parseAtom_approx rec rec' n n' HR Hn) as HP.
  assert (HL : forall node', approxM (nextNodeLoop rec n k node')
                               (nextNodeLoop rec' n' k' node'))
    by (intros node'; apply IH; lia).
  apply bind_approx; [apply approxM_refl|]. intros t.
  destruct (kind t);
    repeat first [ approx_step | apply HE | apply HP | apply HL ].
Qed.

Lemma nextNode_approx (fuel : nat) :
  forall fuel', fuel <= fuel' -> approxM (nextNode fuel) (nextNode fuel').
Proof.
  induction fuel as [|f IH]; intros fuel' Hf; [intros p; now left|].
  destruct fuel' as [|f']; [lia|]. cbn [nextNode].
  assert (HR : approxM (nextNode f) (nextNode f')) by (apply IH; lia).
  apply bind_approx.
  - apply parseAtom_approx; [exact HR|lia].
  - intros node. apply nextNodeLoop_approx; [exact HR|lia|lia].
Qed.

Lemma parseLoop_approx (rec rec' : M astNode) :
  approxM rec rec' ->
  forall k k' nodes p,
    k <= k' ->
    parseLoop rec k nodes p = StillRunning
    \/ parseLoop rec k nodes p = parseLoop rec' k' nodes p.
Proof.
  intros HR. induction k as [|k IH]; intros k' nodes p Hk; [now left|].
  destruct k' as [|k']; [lia|]. cbn [parseLoop].
  destruct (isEOF p); [now right|].
  assert (HB : approxM (node <- rec ;; expect Kind.comma ;;; ret node)
                 (node <- rec' ;; expect Kind.comma ;;; ret node))
    by (repeat approx_step).
  destruct (HB p) as [E|E]; rewrite E; [now left|].
  destruct ((node <- rec' ;; expect Kind.comma ;;; ret node) p);
    try (now right).
  apply IH. lia.
Qed.

(** What [parse] returns, or the panic it ends in, is the same for every
    larger amount of fuel. *)
Lemma parse_more_fuel (fuel fuel' : nat) (p : parser) :
  fuel <= fuel' ->
  parse fuel p = StillRunning \/ parse fuel p = parse fuel' p.
Proof.
  intros H. unfold parse.
  apply parseLoop_approx; [apply nextNode_approx, H|exact H].
Qed.

(** ** The cursor: never back, never out of bounds

    Every method leaves the tokens as they are and the cursor at or after
    where it was, within bounds; [parseAtom] and [nextNode] consume at least
    one token when they return; and no error they build has a position. *)

Lemma movesOn_refl (p : parser) : inBounds p -> movesOn p p.
Proof. intros H. unfold movesOn. auto. Qed.

Lemma movesOn_trans (p q r : parser) :
  movesOn p q -> movesOn q r -> movesOn p r.
Proof.
  unfold movesOn. intros (T1 & I1 & B1) (T2 & I2 & B2).
  repeat split; [congruence|lia|exact B2].
Qed.

Lemma movesOn_inBounds (p q : parser) : movesOn p q -> inBounds q.
Proof. unfold movesOn. tauto. Qed.

Lemma keepsCursor_bind {A B : Type} (m : M A) (k : A -> M B) :
  keepsCursor m -> (forall a, keepsCursor (k a)) -> keepsCursor (bind m k).
Proof.
  intros Hm Hk p Hp. unfold bind. specialize (Hm p Hp).
  destruct (m p) as [a p1|e p1| |]; cbn in *; auto.
  specialize (Hk a p1 (movesOn_inBounds _ _ Hm)).
  destruct (k a p1) as [b p2|e p2| |]; cbn in *; auto.
  - eapply movesOn_trans; eauto.
  - destruct Hk. split; [eapply movesOn_trans; eauto|assumption].
Qed.

Lemma consumes_bind {A B : Type} (m : M A) (k : A -> M B) :
  consumes m -> (forall a, keepsCursor (k a)) -> consumes (bind m k).
Proof.
  intros Hm Hk p Hp. unfold bind. specialize (Hm p Hp).
  destruct (m p) as [a p1|e p1| |]; cbn in *; auto.
  destruct Hm as [Hm Hlt].
  specialize (Hk a p1 (movesOn_inBounds _ _ Hm)).
  destruct (k a p1) as [b p2|e p2| |]; cbn in *; auto.
  - split; [eapply movesOn_trans; eauto|]. destruct Hk as (_ & ? & _). lia.
  - destruct Hk. split; [eapply movesOn_trans; eauto|assumption].
Qed.

Lemma consumes_keepsCursor {A : Type} (m : M A) : consumes m -> keepsCursor m.
Proof.
  intros H p Hp. specialize (H p Hp).
  destruct (m p); cbn in *; tauto.
Qed.

Lemma keepsCursor_ret {A : Type} (a : A) : keepsCursor (ret a).
Proof. intros p Hp. cbn. now apply movesOn_refl. Qed.

Lemma keepsCursor_fail {A : Type} (r : string) :
  keepsCursor (@fail A (parseErrorOf r)).
Proof. intros p Hp. cbn. split; [now apply movesOn_refl|reflexivity]. Qed.

Lemma keepsCursor_peek : keepsCursor peek.
Proof.
  intros p Hp. unfold peek, tokenAt.
  destruct (nth_error (tokens p) (index p)); cbn; [now apply movesOn_refl|exact I].
Qed.

Lemma keepsCursor_peekAhead (n : nat) : keepsCursor (peekAhead n).
Proof.
  intros p Hp. unfold peekAhead, tokenAt.
  destruct (List.length (tokens p) <? index p + n);
    [cbn; now apply movesOn_refl|].
  destruct (nth_error (tokens p) (index p + n)); cbn;
    [now apply movesOn_refl|exact I].
Qed.

Lemma consumes_next : consumes next.
Proof.
  intros p Hp. destruct (next p) as [t p'| | |] eqn:E; cbn; auto.
  - apply next_Ok in E. destruct E as [E ->].
    assert (index p < List.length (tokens p))
      by (apply nth_error_Some; congruence).
    unfold movesOn, inBounds, advance. cbn. repeat split; lia.
  - unfold next, tokenAt in E.
    destruct (nth_error (tokens p) (index p)); [|discriminate].
    destruct (index p <? List.length (tokens p)); discriminate.
Qed.

Lemma consumes_expect (k : tokKind) : consumes (expect k).
Proof.
  intros p Hp. unfold expect. destruct (isEOF p).
  - cbn. split; [now apply movesOn_refl|reflexivity].
  - unfold bind. pose proof (consumes_next p Hp) as H.
    destruct (next p) as [t p'| | |]; cbn in *; auto.
    destruct (negb (kindIs (kind t) k)); cbn; auto.
Qed.

Ltac cursor_step :=
  first
    [ assumption
    | apply keepsCursor_ret
    | apply keepsCursor_fail
    | apply keepsCursor_peek
    | apply keepsCursor_peekAhead
    | apply consumes_keepsCursor, consumes_next
    | apply consumes_keepsCursor, consumes_expect
    | apply keepsCursor_bind; [|intros ?]
    | match goal with
      | |- keepsCursor (if ?c then _ else _) => destruct c
      | |- keepsCursor (match ?x with inl _ => _ | inr _ => _ end) => destruct x
      | |- keepsCursor (match ?x with (_, _) => _ end) => destruct x
      | |- keepsCursor (match ?x with Some _ => _ | None => _ end) => destruct x
      end ].

Lemma keepsCursor_parseMaybeAssignment (rec : M astNode) (left : astNode) :
  keepsCursor rec -> keepsCursor (parseMaybeAssignment rec left).
Proof. intros HR. unfold parseMaybeAssignment. repeat cursor_step. Qed.

Lemma keepsCursor_parseExprsUntil (rec : M astNode) (close : tokKind) :
  keepsCursor rec ->
  forall n acc, keepsCursor (parseExprsUntil rec close n acc).
Proof.
  intros HR. induction n as [|n IH]; intros acc p Hp; [exact I|].
  cbn [parseExprsUntil]. destruct (isEOF p); [cbn; now apply movesOn_refl|].
  revert p Hp.
  change (keepsCursor
    (t <- peek ;;
     (if kindIs (kind t) close then ret acc
      else node <- rec ;; expect Kind.comma ;;;
           parseExprsUntil rec close n (acc ++ [node])))).
  repeat cursor_step. apply IH.
Qed.

Lemma keepsCursor_parseEntriesUntil (rec : M astNode) :
  keepsCursor rec ->
  forall n acc, keepsCursor (parseEntriesUntil rec n acc).
Proof.
  intros HR. induction n as [|n IH]; intros acc p Hp; [exact I|].
  cbn [parseEntriesUntil]. destruct (isEOF p); [cbn; now apply movesOn_refl|].
  revert p Hp.
  change (keepsCursor
    (t <- peek ;;
     (if kindIs (kind t) Kind.rightBrace then ret acc
      else key <- rec ;; expect Kind.colon ;;; val <- rec ;;
           expect Kind.comma ;;;
           parseEntriesUntil rec n (acc ++ [mkObjectEntryNode key val])))).
  repeat cursor_step. apply IH.
Qed.

Lemma keepsCursor_parseFnArgs :
  forall n args, keepsCursor (parseFnArgs n args).
Proof.
  induction n as [|n IH]; intros args p Hp; [exact I|].
  cbn [parseFnArgs]. destruct (isEOF p); [cbn; now apply movesOn_refl|].
  revert p Hp.
  change (keepsCursor
    (t <- peek ;;
     (if kindIs (kind t) Kind.rightParen then ret (args, "")
      else arg <- expect Kind.identifier ;; t' <- peek ;;
           (if kindIs (kind t') Kind.ellipsis
            then next ;;; expect Kind.comma ;;; ret (args, payload arg)
            else expect Kind.comma ;;; parseFnArgs n (args ++ [payload arg]))))).
  repeat cursor_step. apply IH.
Qed.

Lemma consumes_parseAtom (rec : M astNode) (n : nat) :
  keepsCursor rec -> consumes (parseAtom rec n).
Proof.
  intros HR. unfold parseAtom. apply consumes_bind; [apply consumes_next|].
  intros tok.
  pose proof (keepsCursor_parseExprsUntil rec) as HE.
  pose proof (keepsCursor_parseEntriesUntil rec HR n) as HO.
  pose proof (keepsCursor_parseFnArgs n) as HA.
  pose proof (keepsCursor_parseMaybeAssignment rec) as HM.
  destruct (kind tok); unfold afterSwitch, parseFnBody;
    repeat first [ cursor_step | apply HE | apply HO | apply HA | apply HM ].
  (* the brace form, after its first expression *)
  intros p Hp. destruct (isEOF p);
    [cbn; split; [now apply movesOn_refl|reflexivity]|].
  revert p Hp.
  match goal with
  | |- forall p, inBounds p -> after p (?m p) => change (keepsCursor m)
  end.
  repeat first [ cursor_step | apply HE | apply HO | apply HM ].
Qed.

Lemma keepsCursor_nextNodeLoop (rec : M astNode) (n : nat) :
  keepsCursor rec ->
  forall k node, keepsCursor (nextNodeLoop rec n k node).
Proof.
  intros HR. induction k as [|k IH]; intros node p Hp; [exact I|].
  cbn [nextNodeLoop]. destruct (isEOF p); [cbn; now apply movesOn_refl|].
  revert p Hp.
  match goal with
  | |- forall p, inBounds p -> after p (?m p) => change (keepsCursor m)
  end.
  pose proof (keepsCursor_parseExprsUntil rec) as HE.
  pose proof (consumes_keepsCursor _ (consumes_parseAtom rec n HR)) as HP.
  apply keepsCursor_bind; [apply keepsCursor_peek|]. intros t.
  destruct (kind t);
    repeat first [ cursor_step | apply HE | apply HP | apply IH ].
Qed.

Lemma consumes_nextNode (fuel : nat) : consumes (nextNode fuel).
Proof.
  induction fuel as [|f IH]; [intros p Hp; exact I|].
  cbn [nextNode]. apply consumes_keepsCursor in IH.
  apply consumes_bind; [apply consumes_parseAtom, IH|].
  intros node. apply keepsCursor_nextNodeLoop, IH.
Qed.

Lemma nextNode_Ok_moves (fuel : nat) (p p' : parser) (a : astNode) :
  inBounds p ->
  nextNode fuel p = Ok a p' ->
  tokens p' = tokens p
  /\ index p < index p'
  /\ index p' <= List.length (tokens p).
Proof.
  intros Hp H. pose proof (consumes_nextNode fuel p Hp) as C.
  rewrite H in C. cbn in C. destruct C as ((T & _ & B) & L).
  unfold inBounds in B. rewrite T in B. auto.
Qed.

(** X1. A node that [nextNode] returns has cost at least one token: the
    cursor is further on, within the same tokens and within bounds. *)
Theorem nextNode_consumes_a_token (fuel : nat) (p p' : parser) (a : astNode) :
  inBounds p ->
  nextNode fuel p = Ok a p' ->
  tokens p' = tokens p
  /\ index p < index p'
  /\ index p' <= List.length (tokens p).
Proof.
  intros Hp H. pose proof (consumes_nextNode fuel p Hp) as C.
  rewrite H in C. cbn in C. destruct C as ((T & _ & B) & L).
  unfold inBounds in B. rewrite T in B.
  split; [exact T|]. split; [exact L|exact B].
Qed.

(** One statement of [parse]: a node, then the comma. *)
Lemma statement_Ok (rec : M astNode) (p p2 : parser) (node : astNode) :
  consumes rec -> inBounds p ->
  (node' <- rec ;; expect Kind.comma ;;; ret node') p = Ok node p2 ->
  exists p1 c,
    rec p = Ok node p1
    /\ tokens p1 = tokens p /\ index p < index p1
    /\ nth_error (tokens p) (index p1) = Some c /\ kind c = Kind.comma
    /\ p2 = advance p1.
Proof.
  intros HC Hp H. apply bind_Ok in H. destruct H as (n1 & p1 & Hr & H).
  apply bind_Ok in H. destruct H as (c & p2' & Hc & H).
  unfold ret in H. injection H as -> ->.
  apply expect_Ok in Hc. destruct Hc as (Hat & Kc & ->).
  pose proof (HC p Hp) as C. rewrite Hr in C. cbn in C.
  destruct C as ((T & _ & _) & L).
  exists p1, c. rewrite <- T. repeat split; auto.
Qed.

Lemma statement_Err (rec : M astNode) (p p2 : parser) (e : parseError) :
  consumes rec -> inBounds p ->
  (node' <- rec ;; expect Kind.comma ;;; ret node') p = Err e p2 ->
  errPos e = zeroPos.
Proof.
  intros HC Hp H.
  assert (K : keepsCursor (node' <- rec ;; expect Kind.comma ;;; ret node')).
  { apply consumes_keepsCursor in HC. repeat cursor_step. }
  specialize (K p Hp). rewrite H in K. cbn in K. tauto.
Qed.

Lemma parseLoop_returns (rec : M astNode) :
  consumes rec ->
  forall k nodes p nodes' err,
    inBounds p ->
    parseLoop rec k nodes p = Returns nodes' err ->
    match err with Some e => errPos e = zeroPos | None => True end
    /\ 2 * List.length nodes' + index p
       <= 2 * List.length nodes + List.length (tokens p)
    /\ (err = None ->
        index p = List.length (tokens p)
        \/ exists c,
            nth_error (tokens p) (List.length (tokens p) - 1) = Some c
            /\ kind c = Kind.comma).
Proof.
  intros HC. induction k as [|k IH]; intros nodes p nodes' err Hp H;
    [discriminate|].
  cbn [parseLoop] in H. destruct (isEOF p) eqn:E.
  - injection H as <- <-. unfold isEOF in E. apply Nat.eqb_eq in E.
    split; [exact I|]. split; [lia|]. intros _. now left.
  - destruct ((node' <- rec ;; expect Kind.comma ;;; ret node') p)
      as [node p2|e p2| |] eqn:St; try discriminate.
    + destruct (statement_Ok rec p p2 node HC Hp St)
        as (p1 & c & _ & T & L & Hc & Kc & ->).
      assert (B1 : index p1 < List.length (tokens p))
        by (apply nth_error_Some; congruence).
      assert (Hp2 : inBounds (advance p1))
        by (unfold inBounds, advance; cbn; rewrite T; lia).
      destruct (IH _ _ _ _ Hp2 H) as (A & N & C).
      cbn [advance tokens index] in N, C. rewrite T in N, C.
      rewrite length_app in N. cbn [List.length] in N.
      split; [exact A|]. split; [lia|].
      intros En. destruct (C En) as [C'|C']; [|right; exact C'].
      right. exists c. replace (List.length (tokens p) - 1) with (index p1) by lia.
      auto.
    + injection H as <- <-. split; [eapply statement_Err; eauto|].
      split; [unfold inBounds in Hp; lia|discriminate].
Qed.

Lemma inBounds_newParser (toks : list token) : inBounds (newParser toks).
Proof. unfold inBounds. cbn. lia. Qed.

(** X2. When [parse] returns without an error, the tokens are none or their
    last one is a comma: the parser accepts no token sequence that ends in
    anything else. *)
Theorem parse_accepts_only_comma_ended (fuel : nat) (toks : list token)
    (nodes : list astNode) :
  parse fuel (newParser toks) = Returns nodes None ->
  toks = []
  \/ exists front c, toks = front ++ [c] /\ kind c = Kind.comma.
Proof.
  intros H. unfold parse in H.
  destruct (parseLoop_returns _ (consumes_nextNode fuel) _ _ _ _ _
              (inBounds_newParser toks) H) as (_ & _ & C).
  cbn [newParser tokens index] in C.
  destruct (C eq_refl) as [E|(c & Hc & Kc)].
  - left. symmetry in E. now apply length_zero_iff_nil.
  - right. destruct (exists_last (l := toks)) as (front & c' & ->).
    { intros ->. discriminate Hc. }
    exists front, c'. split; [reflexivity|].
    rewrite length_app in Hc. cbn [List.length] in Hc.
    replace (List.length front + 1 - 1) with (List.length front) in Hc by lia.
    rewrite nth_error_app2 in Hc by lia. rewrite Nat.sub_diag in Hc.
    injection Hc as ->. exact Kc.
Qed.

(** X3. Whatever [parse] returns, every node in its list has cost two
    tokens at least, the expression and its comma: the list is at most half
    as long as the tokens. *)
Theorem parse_returns_at_most_half_as_many_nodes (fuel : nat)
    (toks : list token) (nodes : list astNode) (err : option parseError) :
  parse fuel (newParser toks) = Returns nodes err ->
  2 * List.length nodes <= List.length toks.
Proof.
  intros H. unfold parse in H.
  destruct (parseLoop_returns _ (consumes_nextNode fuel) _ _ _ _ _
              (inBounds_newParser toks) H) as (_ & N & _).
  cbn [newParser tokens index List.length] in N. lia.
Qed.

(** X4. An error that [parse] returns has the zero position, whatever the
    positions of the tokens. *)
Theorem parse_error_has_no_position (fuel : nat) (toks : list token)
    (nodes : list astNode) (e : parseError) :
  parse fuel (newParser toks) = Returns nodes (Some e) ->
  errPos e = zeroPos.
Proof.
  intros H. unfold parse in H.
  destruct (parseLoop_returns _ (consumes_nextNode fuel) _ _ _ _ _
              (inBounds_newParser toks) H) as (A & _ & _).
  exact A.
Qed.

(** ** Tokens before and after

    What [nextNode] returns on a token sequence it returns within any
    longer one, provided the token after the sequence, if there is one, is
    one on which the loop of [nextNode] returns. *)

Section Frame.

Variables pre ext : list token.
Hypothesis ext_stopLed : stopLed ext.

Lemma nth_frame_at (p : parser) (i : nat) (t : token) :
  nth_error (tokens p) i = Some t ->
  nth_error (tokens (frame pre ext p)) (i + List.length pre) = Some t.
Proof.
  intros H. cbn [frame tokens]. rewrite nth_error_app2 by lia.
  replace (i + List.length pre - List.length pre) with i by lia.
  rewrite nth_error_app1; [exact H|]. apply nth_error_Some. congruence.
Qed.

Lemma nth_frame (p : parser) (t : token) :
  nth_error (tokens p) (index p) = Some t ->
  nth_error (tokens (frame pre ext p)) (index (frame pre ext p)) = Some t.
Proof. apply nth_frame_at. Qed.

Lemma peek_frame (p p' : parser) (t : token) :
  peek p = Ok t p' -> peek (frame pre ext p) = Ok t (frame pre ext p').
Proof.
  intros H. apply peek_Ok in H. destruct H as [H ->].
  apply peek_at, nth_frame, H.
Qed.

Lemma next_frame (p p' : parser) (t : token) :
  next p = Ok t p' -> next (frame pre ext p) = Ok t (frame pre ext p').
Proof.
  intros H. apply next_Ok in H. destruct H as [H ->].
  apply (next_at (frame pre ext p)), nth_frame, H.
Qed.

Lemma expect_frame (k : tokKind) (p p' : parser) (t : token) :
  expect k p = Ok t p' -> expect k (frame pre ext p) = Ok t (frame pre ext p').
Proof.
  intros H. apply expect_Ok in H. destruct H as (H & K & ->).
  apply (expect_at (frame pre ext p)); [apply nth_frame, H|exact K].
Qed.

Lemma isEOF_frame_false (p : parser) (t : token) :
  nth_error (tokens p) (index p) = Some t -> isEOF (frame pre ext p) = false.
Proof. intros H. apply (isEOF_at _ t), nth_frame, H. Qed.

Lemma parseMaybeAssignment_frame (rec rec' : M astNode) (left : astNode)
    (p p' : parser) (a : astNode) :
  Framed pre ext rec rec' ->
  parseMaybeAssignment rec left p = Ok a p' ->
  parseMaybeAssignment rec' left (frame pre ext p) = Ok a (frame pre ext p').
Proof.
  intros HR H. unfold parseMaybeAssignment in *.
  apply bind_Ok in H. destruct H as (t & p1 & Hpk & H).
  rewrite (bind_step _ _ _ _ _ (peek_frame _ _ _ Hpk)).
  destruct (negb (kindIs (kind t) Kind.assign)
            && negb (kindIs (kind t) Kind.nonlocalAssign)).
  - unfold ret in *. injection H as <- <-. reflexivity.
  - apply bind_Ok in H. destruct H as (op & p2 & Hn & H).
    rewrite (bind_step _ _ _ _ _ (next_frame _ _ _ Hn)).
    apply bind_Ok in H. destruct H as (r & p3 & Hr & H).
    rewrite (bind_step _ _ _ _ _ (HR _ _ _ Hr)).
    unfold ret in *. injection H as <- <-. reflexivity.
Qed.

Lemma parseExprsUntil_frame (rec rec' : M astNode) (close : tokKind) :
  Framed pre ext rec rec' ->
  forall n n' acc p res p' t,
    n <= n' ->
    parseExprsUntil rec close n acc p = Ok res p' ->
    nth_error (tokens p') (index p') = Some t ->
    parseExprsUntil rec' close n' acc (frame pre ext p) = Ok res (frame pre ext p').
Proof.
  intros HR. induction n as [|n IH]; intros n' acc p res p' t Hn H Hp';
    [discriminate|].
  destruct n' as [|n']; [lia|]. cbn [parseExprsUntil] in *.
  destruct (isEOF p) eqn:E.
  - injection H as <- <-. unfold isEOF in E. apply Nat.eqb_eq in E.
    assert (nth_error (tokens p) (index p) <> None) by congruence.
    apply nth_error_Some in H. lia.
  - apply bind_Ok in H. destruct H as (t0 & p1 & Hpk & H).
    rewrite (isEOF_frame_false p t0) by (apply peek_Ok in Hpk; tauto).
    rewrite (bind_step _ _ _ _ _ (peek_frame _ _ _ Hpk)).
    destruct (kindIs (kind t0) close).
    + unfold ret in *. injection H as <- <-. apply peek_Ok in Hpk.
      destruct Hpk as [_ ->]. reflexivity.
    + apply bind_Ok in H. destruct H as (node & p2 & Hr & H).
      rewrite (bind_step _ _ _ _ _ (HR _ _ _ Hr)).
      apply bind_Ok in H. destruct H as (c & p3 & Hc & H).
      rewrite (bind_step _ _ _ _ _ (expect_frame _ _ _ _ Hc)).
      apply (IH n' _ _ _ _ t); [lia|exact H|exact Hp'].
Qed.

Lemma parseEntriesUntil_frame (rec rec' : M astNode) :
  Framed pre ext rec rec' ->
  forall n n' acc p res p' t,
    n <= n' ->
    parseEntriesUntil rec n acc p = Ok res p' ->
    nth_error (tokens p') (index p') = Some t ->
    parseEntriesUntil rec' n' acc (frame pre ext p) = Ok res (frame pre ext p').
Proof.
  intros HR. induction n as [|n IH]; intros n' acc p res p' t Hn H Hp';
    [discriminate|].
  destruct n' as [|n']; [lia|]. cbn [parseEntriesUntil] in *.
  destruct (isEOF p) eqn:E.
  - injection H as <- <-. unfold isEOF in E. apply Nat.eqb_eq in E.
    assert (nth_error (tokens p) (index p) <> None) by congruence.
    apply nth_error_Some in H. lia.
  - apply bind_Ok in H. destruct H as (t0 & p1 & Hpk & H).
    rewrite (isEOF_frame_false p t0) by (apply peek_Ok in Hpk; tauto).
    rewrite (bind_step _ _ _ _ _ (peek_frame _ _ _ Hpk)).
    destruct (kindIs (kind t0) Kind.rightBrace).
    + unfold ret in *. injection H as <- <-. apply peek_Ok in Hpk.
      destruct Hpk as [_ ->]. reflexivity.
    + apply bind_Ok in H. destruct H as (key & p2 & Hr & H).
      rewrite (bind_step _ _ _ _ _ (HR _ _ _ Hr)).
      apply bind_Ok in H. destruct H as (c & p3 & Hc & H).
      rewrite (bind_step _ _ _ _ _ (expect_frame _ _ _ _ Hc)).
      apply bind_Ok in H. destruct H as (val & p4 & Hv & H).
      rewrite (bind_step _ _ _ _ _ (HR _ _ _ Hv)).
      apply bind_Ok in H. destruct H as (c' & p5 & Hc' & H).
      rewrite (bind_step _ _ _ _ _ (expect_frame _ _ _ _ Hc')).
      apply (IH n' _ _ _ _ t); [lia|exact H|exact Hp'].
Qed.

Lemma parseFnArgs_frame :
  forall n n' args p res p' t,
    n <= n' ->
    parseFnArgs n args p = Ok res p' ->
    nth_error (tokens p') (index p') = Some t ->
    parseFnArgs n' args (frame pre ext p) = Ok res (frame pre ext p').
Proof.
  induction n as [|n IH]; intros n' args p res p' t Hn H Hp'; [discriminate|].
  destruct n' as [|n']; [lia|]. cbn [parseFnArgs] in *.
  destruct (isEOF p) eqn:E.
  - injection H as <- <-. unfold isEOF in E. apply Nat.eqb_eq in E.
    assert (nth_error (tokens p) (index p) <> None) by congruence.
    apply nth_error_Some in H. lia.
  - apply bind_Ok in H. destruct H as (t0 & p1 & Hpk & H).
    rewrite (isEOF_frame_false p t0) by (apply peek_Ok in Hpk; tauto).
    rewrite (bind_step _ _ _ _ _ (peek_frame _ _ _ Hpk)).
    destruct (kindIs (kind t0) Kind.rightParen).
    + unfold ret in *. injection H as <- <-. apply peek_Ok in Hpk.
      destruct Hpk as [_ ->]. reflexivity.
    + apply bind_Ok in H. destruct H as (arg & p2 & Ha & H).
      rewrite (bind_step _ _ _ _ _ (expect_frame _ _ _ _ Ha)).
      apply bind_Ok in H. destruct H as (t1 & p3 & Hpk' & H).
      rewrite (bind_step _ _ _ _ _ (peek_frame _ _ _ Hpk')).
      destruct (kindIs (kind t1) Kind.ellipsis).
      * apply bind_Ok in H. destruct H as (e & p4 & He & H).
        rewrite (bind_step _ _ _ _ _ (next_frame _ _ _ He)).
        apply bind_Ok in H. destruct H as (c & p5 & Hc & H).
        rewrite (bind_step _ _ _ _ _ (expect_frame _ _ _ _ Hc)).
        unfold ret in *. injection H as <- <-. reflexivity.
      * apply bind_Ok in H. destruct H as (c & p4 & Hc & H).
        rewrite (bind_step _ _ _ _ _ (expect_frame _ _ _ _ Hc)).
        apply (IH n' _ _ _ _ t); [lia|exact H|exact Hp'].
Qed.

Lemma parseFnBody_frame (rec rec' : M astNode) (p p' : parser) (a : astNode) :
  Framed pre ext rec rec' ->
  parseFnBody rec p = Ok a p' ->
  parseFnBody rec' (frame pre ext p) = Ok a (frame pre ext p').
Proof.
  intros HR H. unfold parseFnBody in *.
  apply bind_Ok in H. destruct H as (t & p1 & Hpk & H).
  rewrite (bind_step _ _ _ _ _ (peek_frame _ _ _ Hpk)).
  apply peek_Ok in Hpk. destruct Hpk as [Hat ->].
  destruct (kindIs (kind t) Kind.leftBrace); [|apply HR, H].
  apply bind_Ok in H. destruct H as (t' & p2 & Hpa & H).
  assert (L : index p < List.length (tokens p))
    by (apply nth_error_Some; congruence).
  assert (Hpa' : nth_error (tokens p) (index p + 1) = Some t' /\ p2 = p).
  { unfold peekAhead in Hpa.
    replace (List.length (tokens p) <? index p + 1) with false in Hpa
      by (symmetry; apply Nat.ltb_ge; lia).
    unfold tokenAt in Hpa.
    destruct (nth_error (tokens p) (index p + 1)); [|discriminate].
    injection Hpa as -> ->. auto. }
  destruct Hpa' as [Hat' ->].
  assert (Ex : peekAhead 1 (frame pre ext p) = Ok t' (frame pre ext p)).
  { unfold peekAhead. cbn [frame tokens index]. rewrite !length_app.
    replace (List.length pre + (List.length (tokens p) + List.length ext)
             <? index p + List.length pre + 1)
      with false by (symmetry; apply Nat.ltb_ge; lia).
    unfold tokenAt.
    change (tokens {| tokens := pre ++ tokens p ++ ext;
                      index := index p + List.length pre |})
      with (tokens (frame pre ext p)).
    replace (index p + List.length pre + 1)
      with (index p + 1 + List.length pre) by lia.
    rewrite (nth_frame_at p (index p + 1) t' Hat'). reflexivity. }
  rewrite (bind_step _ _ _ _ _ Ex).
  destruct (kindIs (kind t') Kind.rightBrace); [|apply HR, H].
  apply bind_Ok in H. destruct H as (x & p3 & Hn & H).
  rewrite (bind_step _ _ _ _ _ (next_frame _ _ _ Hn)).
  apply bind_Ok in H. destruct H as (y & p4 & Hn' & H).
  rewrite (bind_step _ _ _ _ _ (next_frame _ _ _ Hn')).
  unfold ret in *. injection H as <- <-. reflexivity.
Qed.

(** A loop followed by the [expect] of its closing token. *)
Lemma exprs_then_close_frame (rec rec' : M astNode) (close : tokKind)
    (n n' : nat) (acc : list astNode) (p p1 p2 : parser)
    (res : list astNode) (c : token) :
  Framed pre ext rec rec' -> n <= n' ->
  parseExprsUntil rec close n acc p = Ok res p1 ->
  expect close p1 = Ok c p2 ->
  parseExprsUntil rec' close n' acc (frame pre ext p) = Ok res (frame pre ext p1)
  /\ expect close (frame pre ext p1) = Ok c (frame pre ext p2).
Proof.
  intros HR Hn H Hc. split; [|apply expect_frame, Hc].
  apply expect_Ok in Hc. destruct Hc as (Hat & _ & _).
  apply (parseExprsUntil_frame rec rec' close HR n n' _ _ _ _ c); assumption.
Qed.

Lemma parseAtom_frame (rec rec' : M astNode) (n n' : nat) (p p' : parser)
    (a : astNode) :
  Framed pre ext rec rec' -> n <= n' ->
  parseAtom rec n p = Ok a p' ->
  parseAtom rec' n' (frame pre ext p) = Ok a (frame pre ext p').
Proof.
  intros HR Hn H. unfold parseAtom in *.
  apply bind_Ok in H. destruct H as (tok & p1 & Hnx & H).
  rewrite (bind_step _ _ _ _ _ (next_frame _ _ _ Hnx)).
  destruct (kind tok);
    try (unfold afterSwitch, ret in *; injection H as <- <-; reflexivity).
  - (* colon *)
    apply bind_Ok in H. destruct H as (t & p2 & Hpk & H).
    rewrite (bind_step _ _ _ _ _ (peek_frame _ _ _ Hpk)).
    destruct (kindIs (kind t) Kind.identifier); [|discriminate].
    apply bind_Ok in H. destruct H as (id & p3 & Hid & H).
    rewrite (bind_step _ _ _ _ _ (next_frame _ _ _ Hid)).
    unfold ret in *. injection H as <- <-. reflexivity.
  - (* exclam *)
    apply bind_Ok in H. destruct H as (r & p2 & Hr & H).
    rewrite (bind_step _ _ _ _ _ (HR _ _ _ Hr)).
    unfold ret in *. injection H as <- <-. reflexivity.
  - (* leftParen *)
    apply bind_Ok in H. destruct H as (exprs & p2 & Hl & H).
    apply bind_Ok in H. destruct H as (c & p3 & Hc & H).
    destruct (exprs_then_close_frame _ _ _ _ _ _ _ _ _ _ _ HR Hn Hl Hc)
      as [El Ec].
    rewrite (bind_step _ _ _ _ _ El), (bind_step _ _ _ _ _ Ec).
    unfold ret in *. injection H as <- <-. reflexivity.
  - (* leftBracket *)
    apply bind_Ok in H. destruct H as (items & p2 & Hl & H).
    apply bind_Ok in H. destruct H as (c & p3 & Hc & H).
    destruct (exprs_then_close_frame _ _ _ _ _ _ _ _ _ _ _ HR Hn Hl Hc)
      as [El Ec].
    rewrite (bind_step _ _ _ _ _ El), (bind_step _ _ _ _ _ Ec).
    apply (parseMaybeAssignment_frame _ _ _ _ _ _ HR H).
  - (* leftBrace *)
    apply bind_Ok in H. destruct H as (t & p2 & Hpk & H).
    rewrite (bind_step _ _ _ _ _ (peek_frame _ _ _ Hpk)).
    destruct (kindIs (kind t) Kind.rightBrace).
    { apply bind_Ok in H. destruct H as (x & p3 & Hx & H).
      rewrite (bind_step _ _ _ _ _ (next_frame _ _ _ Hx)).
      unfold ret in *. injection H as <- <-. reflexivity. }
    apply bind_Ok in H. destruct H as (first & p3 & Hf & H).
    rewrite (bind_step _ _ _ _ _ (HR _ _ _ Hf)).
    destruct (isEOF p3); [discriminate|].
    apply bind_Ok in H. destruct H as (t' & p4 & Hpk' & H).
    rewrite (isEOF_frame_false p3 t') by (apply peek_Ok in Hpk'; tauto).
    rewrite (bind_step _ _ _ _ _ (peek_frame _ _ _ Hpk')).
    destruct (kindIs (kind t') Kind.colon).
    + apply bind_Ok in H. destruct H as (x & p5 & Hx & H).
      rewrite (bind_step _ _ _ _ _ (next_frame _ _ _ Hx)).
      apply bind_Ok in H. destruct H as (v & p6 & Hv & H).
      rewrite (bind_step _ _ _ _ _ (HR _ _ _ Hv)).
      apply bind_Ok in H. destruct H as (c & p7 & Hc & H).
      rewrite (bind_step _ _ _ _ _ (expect_frame _ _ _ _ Hc)).
      apply bind_Ok in H. destruct H as (entries & p8 & He & H).
      apply bind_Ok in H. destruct H as (c' & p9 & Hc' & H).
      pose proof (expect_Ok _ _ _ _ Hc') as (Hat & _ & _).
      rewrite (bind_step _ _ _ _ _
                 (parseEntriesUntil_frame _ _ HR _ n' _ _ _ _ c' Hn He Hat)).
      rewrite (bind_step _ _ _ _ _ (expect_frame _ _ _ _ Hc')).
      apply (parseMaybeAssignment_frame _ _ _ _ _ _ HR H).
    + apply bind_Ok in H. destruct H as (c & p5 & Hc & H).
      rewrite (bind_step _ _ _ _ _ (expect_frame _ _ _ _ Hc)).
      apply bind_Ok in H. destruct H as (exprs & p6 & Hl & H).
      apply bind_Ok in H. destruct H as (c' & p7 & Hc' & H).
      destruct (exprs_then_close_frame _ _ _ _ _ _ _ _ _ _ _ HR Hn Hl Hc')
        as [El Ec].
      rewrite (bind_step _ _ _ _ _ El), (bind_step _ _ _ _ _ Ec).
      unfold ret in *. injection H as <- <-. reflexivity.
  - (* minus *)
    apply bind_Ok in H. destruct H as (r & p2 & Hr & H).
    rewrite (bind_step _ _ _ _ _ (HR _ _ _ Hr)).
    unfold ret in *. injection H as <- <-. reflexivity.
  - (* fnKeyword *)
    apply bind_Ok in H. destruct H as (t & p2 & Hpk & H).
    rewrite (bind_step _ _ _ _ _ (peek_frame _ _ _ Hpk)).
    apply bind_Ok in H. destruct H as (name & p3 & Hname & H).
    assert (Ename :
              (if kindIs (kind t) Kind.identifier
               then id <- next ;; ret (payload id)
               else ret "") (frame pre ext p2) = Ok name (frame pre ext p3)).
    { destruct (kindIs (kind t) Kind.identifier).
      - apply bind_Ok in Hname. destruct Hname as (id & p4 & Hid & Hname).
        rewrite (bind_step _ _ _ _ _ (next_frame _ _ _ Hid)).
        unfold ret in *. injection Hname as <- <-. reflexivity.
      - unfold ret in *. injection Hname as <- <-. reflexivity. }
    rewrite (bind_step _ _ _ _ _ Ename).
    apply bind_Ok in H. destruct H as (t' & p4 & Hpk' & H).
    rewrite (bind_step _ _ _ _ _ (peek_frame _ _ _ Hpk')).
    apply bind_Ok in H. destruct H as (ar & p5 & Har & H).
    assert (Ear :
              (if kindIs (kind t') Kind.leftParen
               then next ;;; ar0 <- parseFnArgs n' [] ;;
                    expect Kind.rightParen ;;; ret ar0
               else ret ([], "")) (frame pre ext p4) = Ok ar (frame pre ext p5)).
    { destruct (kindIs (kind t') Kind.leftParen).
      - apply bind_Ok in Har. destruct Har as (x & p6 & Hx & Har).
        rewrite (bind_step _ _ _ _ _ (next_frame _ _ _ Hx)).
        apply bind_Ok in Har. destruct Har as (ar0 & p7 & Hfa & Har).
        apply bind_Ok in Har. destruct Har as (c & p8 & Hc & Har).
        pose proof (expect_Ok _ _ _ _ Hc) as (Hat & _ & _).
        rewrite (bind_step _ _ _ _ _
                   (parseFnArgs_frame _ n' _ _ _ _ c Hn Hfa Hat)).
        rewrite (bind_step _ _ _ _ _ (expect_frame _ _ _ _ Hc)).
        unfold ret in *. injection Har as <- <-. reflexivity.
      - unfold ret in *. injection Har as <- <-. reflexivity. }
    rewrite (bind_step _ _ _ _ _ Ear).
    apply bind_Ok in H. destruct H as (body & p6 & Hb & H).
    rewrite (bind_step _ _ _ _ _ (parseFnBody_frame _ _ _ _ _ HR Hb)).
    unfold ret in *. injection H as <- <-. reflexivity.
  - (* numberLiteral *)
    destruct (ContainsRune (payload tok) ".").
    + destruct (ParseFloat (payload tok)); [|discriminate].
      unfold ret in *. injection H as <- <-. reflexivity.
    + destruct (ParseInt (payload tok)) as [i [e|]]; [discriminate|].
      unfold ret in *. injection H as <- <-. reflexivity.
  - (* identifier *)
    apply (parseMaybeAssignment_frame _ _ _ _ _ _ HR H).
Qed.

Lemma nextNodeLoop_frame (rec rec' : M astNode) (n n' : nat) :
  Framed pre ext rec rec' -> n <= n' ->
  forall k k' node p a p',
    k <= k' ->
    nextNodeLoop rec n k node p = Ok a p' ->
    nextNodeLoop rec' n' k' node (frame pre ext p) = Ok a (frame pre ext p').
Proof.
  intros HR Hn. induction k as [|k IH]; intros k' node p a p' Hk H;
    [discriminate|].
  destruct k' as [|k']; [lia|]. cbn [nextNodeLoop] in *.
  destruct (isEOF p) eqn:E.
  - (* the end of the shorter tokens: the longer ones are at their end too,
       or show a comma *)
    injection H as <- <-. unfold isEOF in E. apply Nat.eqb_eq in E.
    destruct ext as [|c ext'] eqn:Eext.
    + replace (isEOF (frame pre [] p)) with true; [reflexivity|].
      symmetry. unfold isEOF. cbn [frame tokens index].
      rewrite !length_app. cbn [List.length]. apply Nat.eqb_eq. lia.
    + assert (Hc : nth_error (tokens (frame pre (c :: ext') p))
                     (index (frame pre (c :: ext') p)) = Some c).
      { cbn [frame tokens index]. rewrite nth_error_app2 by lia.
        rewrite nth_error_app2 by lia.
        replace (index p + List.length pre - List.length pre
                 - List.length (tokens p)) with 0 by lia.
        reflexivity. }
      rewrite (isEOF_at _ c Hc). rewrite (bind_step _ _ _ _ _ (peek_at _ c Hc)).
      cbn in ext_stopLed.
      destruct (kind c); try discriminate ext_stopLed; reflexivity.
  - apply bind_Ok in H. destruct H as (t & p1 & Hpk & H).
    rewrite (isEOF_frame_false p t) by (apply peek_Ok in Hpk; tauto).
    rewrite (bind_step _ _ _ _ _ (peek_frame _ _ _ Hpk)).
    apply peek_Ok in Hpk. destruct Hpk as [_ ->].
    destruct (kind t);
      try (apply (IH k'); [lia|exact H]);
      try (unfold ret in *; injection H as <- <-; reflexivity).
    + (* dot *)
      apply bind_Ok in H. destruct H as (x & p2 & Hx & H).
      rewrite (bind_step _ _ _ _ _ (next_frame _ _ _ Hx)).
      apply bind_Ok in H. destruct H as (r & p3 & Hr & H).
      rewrite (bind_step _ _ _ _ _ (parseAtom_frame _ _ _ n' _ _ _ HR Hn Hr)).
      apply (IH k'); [lia|exact H].
    + (* leftParen *)
      apply bind_Ok in H. destruct H as (x & p2 & Hx & H).
      rewrite (bind_step _ _ _ _ _ (next_frame _ _ _ Hx)).
      apply bind_Ok in H. destruct H as (args & p3 & Hl & H).
      apply bind_Ok in H. destruct H as (c & p4 & Hc & H).
      destruct (exprs_then_close_frame _ _ _ _ _ _ _ _ _ _ _ HR Hn Hl Hc)
        as [El Ec].
      rewrite (bind_step _ _ _ _ _ El), (bind_step _ _ _ _ _ Ec).
      apply (IH k'); [lia|exact H].
Qed.

Lemma nextNode_frame (fuel : nat) :
  forall fuel', fuel <= fuel' -> Framed pre ext (nextNode fuel) (nextNode fuel').
Proof.
  induction fuel as [|f IH]; intros fuel' Hf p a p' H; [discriminate|].
  destruct fuel' as [|f']; [lia|]. cbn [nextNode] in *.
  assert (HR : Framed pre ext (nextNode f) (nextNode f')) by (apply IH; lia).
  assert (Hn : f <= f') by lia.
  apply bind_Ok in H. destruct H as (node & p1 & Ha & H).
  rewrite (bind_step _ _ _ _ _ (parseAtom_frame _ _ _ f' _ _ _ HR Hn Ha)).
  apply (nextNodeLoop_frame _ _ _ _ HR Hn f f'); [lia|exact H].
Qed.

End Frame.

Lemma frame_newParser (pre s ext : list token) (p1 : parser) :
  tokens p1 = s ->
  frame pre ext p1 = mkParser (pre ++ s ++ ext) (index p1 + List.length pre).
Proof. intros <-. reflexivity. Qed.

(** X5. What [nextNode] returns depends on the tokens from the cursor up to
    where it stops only: the same node comes back, at the same place, with
    any tokens put before, with more fuel, and with any tokens put after
    that start with a comma, a colon or a right delimiter. *)
Theorem nextNode_within_longer_tokens (fuel fuel' : nat)
    (pre ext : list token) (p p' : parser) (a : astNode) :
  inBounds p ->
  nextNode fuel p = Ok a p' ->
  stopLed ext ->
  fuel <= fuel' ->
  nextNode fuel' (mkParser (pre ++ tokens p ++ ext) (index p + List.length pre))
  = Ok a (mkParser (pre ++ tokens p ++ ext) (index p' + List.length pre)).
Proof.
  intros Hp H Hext Hf.
  pose proof (nextNode_frame pre ext Hext fuel fuel' Hf p a p' H) as F.
  destruct (nextNode_Ok_moves fuel p p' a Hp H) as (T & _).
  rewrite (frame_newParser pre (tokens p) ext p' T) in F. exact F.
Qed.

(** ** Tokens past the one [nextNode] stops on

    A run that ends on a token depends on the tokens up to that one
    only. *)

Lemma agree_at (off j : nat) (p q : parser) (t : token) :
  agree off j p q -> index p <= j ->
  nth_error (tokens p) (index p) = Some t ->
  nth_error (tokens q) (index q) = Some t.
Proof.
  intros (I & _ & A) L H. rewrite I, A by exact L. exact H.
Qed.

Lemma agree_self (off j : nat) (p q : parser) :
  agree off j p q -> q = mkParser (tokens q) (index p + off).
Proof. intros (I & _). destruct q. cbn in *. now rewrite I. Qed.

Lemma agree_moved (off j : nat) (p p' q : parser) :
  agree off j p q -> tokens p' = tokens p ->
  agree off j p' (mkParser (tokens q) (index p' + off)).
Proof.
  intros (_ & L & A) T. unfold agree. cbn [tokens index]. rewrite T. auto.
Qed.

Lemma sameUpTo_bind {A B : Type} (m m' : M A) (k k' : A -> M B) :
  keepsCursor m -> (forall a, keepsCursor (k a)) ->
  sameUpTo m m' -> (forall a, sameUpTo (k a) (k' a)) ->
  sameUpTo (bind m k) (bind m' k').
Proof.
  intros Cm Ck Hm Hk off j p q b p' Hp Ag H Hj.
  apply bind_Ok in H. destruct H as (a & p1 & H1 & H2).
  pose proof (Cm p Hp) as M1. rewrite H1 in M1. cbn in M1.
  pose proof (Ck a p1 (movesOn_inBounds _ _ M1)) as M2. rewrite H2 in M2.
  cbn in M2. destruct M1 as (T1 & _ & B1). destruct M2 as (_ & L2 & _).
  rewrite (bind_step _ _ _ _ _ (Hm off j p q a p1 Hp Ag H1 ltac:(lia))).
  exact (Hk a off j p1 _ b p' B1 (agree_moved off j p p1 q Ag T1) H2 Hj).
Qed.

Lemma sameUpTo_ret {A : Type} (a : A) : sameUpTo (ret a) (ret a).
Proof.
  intros off j p q a' p' _ Ag H _. unfold ret in *. injection H as <- <-.
  f_equal. exact (agree_self off j p q Ag).
Qed.

Lemma sameUpTo_fail {A : Type} (e : parseError) (m' : M A) :
  sameUpTo (fail e) m'.
Proof. intros off j p q a p' _ _ H. discriminate H. Qed.

Lemma sameUpTo_peek : sameUpTo peek peek.
Proof.
  intros off j p q t p' _ Ag H Hj. apply peek_Ok in H. destruct H as [H ->].
  rewrite (peek_at q t (agree_at off j p q t Ag Hj H)).
  f_equal. exact (agree_self off j p q Ag).
Qed.

Lemma sameUpTo_next : sameUpTo next next.
Proof.
  intros off j p q t p' _ Ag H Hj. apply next_Ok in H. destruct H as [H ->].
  cbn [advance index] in Hj.
  rewrite (next_at q t (agree_at off j p q t Ag ltac:(lia) H)).
  unfold advance. cbn [tokens index]. destruct Ag as (I & _). now rewrite I.
Qed.

Lemma sameUpTo_expect (k : tokKind) : sameUpTo (expect k) (expect k).
Proof.
  intros off j p q t p' _ Ag H Hj. apply expect_Ok in H.
  destruct H as (H & K & ->). cbn [advance index] in Hj.
  rewrite (expect_at q t k (agree_at off j p q t Ag ltac:(lia) H) K).
  unfold advance. cbn [tokens index]. destruct Ag as (I & _). now rewrite I.
Qed.

(** Away from the end of the tokens of [p], [q] is away from its end. *)
Lemma agree_not_EOF (off j : nat) (p q : parser) :
  agree off j p q -> index p <= j -> isEOF q = false.
Proof.
  intros Ag L. pose proof Ag as (_ & Lj & _).
  destruct (nth_error (tokens p) (index p)) as [t|] eqn:N.
  - exact (isEOF_at q t (agree_at off j p q t Ag L N)).
  - apply nth_error_None in N. lia.
Qed.

(** A loop that returns [a0] at the end of the tokens: a run that stays
    within position [j] has not left the loop there. *)
Lemma sameUpTo_unlessEOF {A : Type} (a0 : A) (m m' : M A) :
  keepsCursor m -> sameUpTo m m' ->
  sameUpTo (fun p => if isEOF p then Ok a0 p else m p)
    (fun q => if isEOF q then Ok a0 q else m' q).
Proof.
  intros Cm Hm off j p q a p' Hp Ag H Hj. cbv beta in *.
  destruct (isEOF p) eqn:E.
  - injection H as <- <-. unfold isEOF in E. apply Nat.eqb_eq in E.
    destruct Ag as (_ & L & _). lia.
  - pose proof (Cm p Hp) as M. rewrite H in M. cbn in M.
    destruct M as (_ & L & _).
    rewrite (agree_not_EOF off j p q Ag ltac:(lia)).
    exact (Hm off j p q a p' Hp Ag H Hj).
Qed.

(** The same for the test that ends a brace form with an error. *)
Lemma sameUpTo_errorAtEOF {A : Type} (e : parseError) (m m' : M A) :
  keepsCursor m -> sameUpTo m m' ->
  sameUpTo (fun p => if isEOF p then Err e p else m p)
    (fun q => if isEOF q then Err e q else m' q).
Proof.
  intros Cm Hm off j p q a p' Hp Ag H Hj. cbv beta in *.
  destruct (isEOF p) eqn:E; [discriminate H|].
  pose proof (Cm p Hp) as M. rewrite H in M. cbn in M.
  destruct M as (_ & L & _).
  rewrite (agree_not_EOF off j p q Ag ltac:(lia)).
  exact (Hm off j p q a p' Hp Ag H Hj).
Qed.

Lemma stable_bind {A B : Type} (m m' : M A) (k k' : A -> M B) :
  stable m m' -> (forall a, stable (k a) (k' a)) ->
  stable (bind m k) (bind m' k').
Proof.
  intros [Cm Hm] Hk. split.
  - apply keepsCursor_bind; [exact Cm|]. intros a. apply Hk.
  - apply sameUpTo_bind; [exact Cm| | exact Hm|]; intros a; apply Hk.
Qed.

Lemma stable_ret {A : Type} (a : A) : stable (ret a) (ret a).
Proof. split; [apply keepsCursor_ret|apply sameUpTo_ret]. Qed.

Lemma stable_fail {A : Type} (r : string) :
  stable (@fail A (parseErrorOf r)) (fail (parseErrorOf r)).
Proof. split; [apply keepsCursor_fail|apply sameUpTo_fail]. Qed.

Lemma stable_peek : stable peek peek.
Proof. split; [apply keepsCursor_peek|apply sameUpTo_peek]. Qed.

Lemma stable_next : stable next next.
Proof.
  split; [apply consumes_keepsCursor, consumes_next|apply sameUpTo_next].
Qed.

Lemma stable_expect (k : tokKind) : stable (expect k) (expect k).
Proof.
  split; [apply consumes_keepsCursor, consumes_expect|apply sameUpTo_expect].
Qed.

Lemma stable_stuck {A : Type} (m' : M A) : stable (fun _ => OutOfFuel) m'.
Proof.
  split; [intros p Hp; exact I|]. intros off j p q a p' _ _ H. discriminate H.
Qed.

Lemma stable_unlessEOF {A : Type} (a0 : A) (m m' : M A) :
  stable m m' ->
  stable (fun p => if isEOF p then Ok a0 p else m p)
    (fun q => if isEOF q then Ok a0 q else m' q).
Proof.
  intros [Cm Hm]. split; [|apply sameUpTo_unlessEOF; assumption].
  intros p Hp. destruct (isEOF p); [cbn; now apply movesOn_refl|].
  exact (Cm p Hp).
Qed.

Lemma stable_errorAtEOF {A : Type} (r : string) (m m' : M A) :
  stable m m' ->
  stable (fun p => if isEOF p then Err (parseErrorOf r) p else m p)
    (fun q => if isEOF q then Err (parseErrorOf r) q else m' q).
Proof.
  intros [Cm Hm]. split; [|apply sameUpTo_errorAtEOF; assumption].
  intros p Hp. destruct (isEOF p);
    [cbn; split; [now apply movesOn_refl|reflexivity]|].
  exact (Cm p Hp).
Qed.

Ltac stable_step :=
  first
    [ assumption
    | apply stable_ret
    | apply stable_fail
    | apply stable_peek
    | apply stable_next
    | apply stable_expect
    | apply stable_bind; [|intros ?]
    | match goal with
      | |- stable (if ?c then _ else _) (if ?c then _ else _) => destruct c
      | |- stable (match ?x with inl _ => _ | inr _ => _ end) _ => destruct x
      | |- stable (match ?x with (_, _) => _ end) _ => destruct x
      | |- stable (match ?x with Some _ => _ | None => _ end) _ => destruct x
      end ].

Lemma stable_parseMaybeAssignment (rec rec' : M astNode) (left : astNode) :
  stable rec rec' ->
  stable (parseMaybeAssignment rec left) (parseMaybeAssignment rec' left).
Proof. intros HR. unfold parseMaybeAssignment. repeat stable_step. Qed.

Lemma stable_parseExprsUntil (rec rec' : M astNode) (close : tokKind) :
  stable rec rec' ->
  forall n n' acc,
    n <= n' ->
    stable (parseExprsUntil rec close n acc) (parseExprsUntil rec' close n' acc).
Proof.
  intros HR. induction n as [|n IH]; intros n' acc Hn; [apply stable_stuck|].
  destruct n' as [|n']; [lia|]. cbn [parseExprsUntil].
  apply (stable_unlessEOF acc
    (t <- peek ;;
     (if kindIs (kind t) close then ret acc
      else node <- rec ;; expect Kind.comma ;;;
           parseExprsUntil rec close n (acc ++ [node])))
    (t <- peek ;;
     (if kindIs (kind t) close then ret acc
      else node <- rec' ;; expect Kind.comma ;;;
           parseExprsUntil rec' close n' (acc ++ [node])))).
  repeat stable_step. apply IH. lia.
Qed.

Lemma stable_parseEntriesUntil (rec rec' : M astNode) :
  stable rec rec' ->
  forall n n' acc,
    n <= n' ->
    stable (parseEntriesUntil rec n acc) (parseEntriesUntil rec' n' acc).
Proof.
  intros HR. induction n as [|n IH]; intros n' acc Hn; [apply stable_stuck|].
  destruct n' as [|n']; [lia|]. cbn [parseEntriesUntil].
  apply (stable_unlessEOF acc
    (t <- peek ;;
     (if kindIs (kind t) Kind.rightBrace then ret acc
      else key <- rec ;; expect Kind.colon ;;; val <- rec ;;
           expect Kind.comma ;;;
           parseEntriesUntil rec n (acc ++ [mkObjectEntryNode key val])))
    (t <- peek ;;
     (if kindIs (kind t) Kind.rightBrace then ret acc
      else key <- rec' ;; expect Kind.colon ;;; val <- rec' ;;
           expect Kind.comma ;;;
           parseEntriesUntil rec' n' (acc ++ [mkObjectEntryNode key val])))).
  repeat stable_step. apply IH. lia.
Qed.

Lemma stable_parseFnArgs :
  forall n n' args,
    n <= n' -> stable (parseFnArgs n args) (parseFnArgs n' args).
Proof.
  induction n as [|n IH]; intros n' args Hn; [apply stable_stuck|].
  destruct n' as [|n']; [lia|]. cbn [parseFnArgs].
  apply (stable_unlessEOF (args, "")
    (t <- peek ;;
     (if kindIs (kind t) Kind.rightParen then ret (args, "")
      else arg <- expect Kind.identifier ;; t' <- peek ;;
           (if kindIs (kind t') Kind.ellipsis
            then next ;;; expect Kind.comma ;;; ret (args, payload arg)
            else expect Kind.comma ;;; parseFnArgs n (args ++ [payload arg]))))
    (t <- peek ;;
     (if kindIs (kind t) Kind.rightParen then ret (args, "")
      else arg <- expect Kind.identifier ;; t' <- peek ;;
           (if kindIs (kind t') Kind.ellipsis
            then next ;;; expect Kind.comma ;;; ret (args, payload arg)
            else expect Kind.comma ;;; parseFnArgs n' (args ++ [payload arg]))))).
  repeat stable_step. apply IH. lia.
Qed.

(** The body of a [fn] looks one token ahead of a left brace; a body that
    is parsed takes that token in. *)
Lemma stable_parseFnBody (rec rec' : M astNode) :
  consumes rec -> stable rec rec' ->
  stable (parseFnBody rec) (parseFnBody rec').
Proof.
  intros HC [Cr Hr]. split.
  - unfold parseFnBody. repeat cursor_step.
  - intros off j p q a p' Hp Ag H Hj. unfold parseFnBody in *.
    apply bind_Ok in H. destruct H as (t & p1 & Hpk & H).
    apply peek_Ok in Hpk. destruct Hpk as [Hat ->].
    assert (Lp : index p <= index p').
    { destruct (kindIs (kind t) Kind.leftBrace).
      - apply bind_Ok in H. destruct H as (t' & p2 & Hpa & H).
        assert (p2 = p).
        { unfold peekAhead, tokenAt in Hpa.
          destruct (List.length (tokens p) <? index p + 1);
            [now injection Hpa|].
          destruct (nth_error (tokens p) (index p + 1)); [|discriminate].
          now injection Hpa. }
        subst p2.
        assert (K : keepsCursor
                      (if kindIs (kind t') Kind.rightBrace
                       then next ;;; next ;;; ret (blockNode [])
                       else rec)) by (repeat cursor_step).
        specialize (K p Hp). rewrite H in K. cbn in K.
        destruct K as (_ & L & _). exact L.
      - pose proof (Cr p Hp) as K. rewrite H in K. cbn in K.
        destruct K as (_ & L & _). exact L. }
    rewrite (bind_step _ _ _ _ _
               (peek_at q t (agree_at off j p q t Ag ltac:(lia) Hat))).
    destruct (kindIs (kind t) Kind.leftBrace);
      [|exact (Hr off j p q a p' Hp Ag H Hj)].
    apply bind_Ok in H. destruct H as (t' & p2 & Hpa & H).
    assert (L : index p < List.length (tokens p))
      by (apply nth_error_Some; congruence).
    assert (Hpa' : nth_error (tokens p) (index p + 1) = Some t' /\ p2 = p).
    { unfold peekAhead in Hpa.
      replace (List.length (tokens p) <? index p + 1) with false in Hpa
        by (symmetry; apply Nat.ltb_ge; lia).
      unfold tokenAt in Hpa.
      destruct (nth_error (tokens p) (index p + 1)); [|discriminate].
      injection Hpa as -> ->. auto. }
    destruct Hpa' as [Hat' ->].
    (* the run goes on past the left brace, so the token after it is
       within [j] *)
    assert (Lj : index p + 1 <= j).
    { destruct (kindIs (kind t') Kind.rightBrace).
      - apply bind_Ok in H. destruct H as (x & p3 & Hx & H).
        apply next_Ok in Hx. destruct Hx as [_ ->].
        apply bind_Ok in H. destruct H as (y & p4 & Hy & H).
        pose proof (consumes_next (advance p)) as K.
        rewrite Hy in K. cbn in K.
        unfold ret in H. injection H as _ <-.
        assert (Ba : inBounds (advance p))
          by (unfold inBounds, advance; cbn; lia).
        destruct (K Ba) as (_ & L4). cbn in L4. lia.
      - pose proof (HC p Hp) as K. rewrite H in K. cbn in K.
        destruct K as (_ & L4). lia. }
    assert (Ex : peekAhead 1 q = Ok t' q).
    { destruct Ag as (I & Lj' & A). unfold peekAhead.
      assert (N : nth_error (tokens q) (index q + 1) = Some t').
      { rewrite I. replace (index p + off + 1) with (index p + 1 + off) by lia.
        rewrite A by lia. exact Hat'. }
      assert (index q + 1 < List.length (tokens q))
        by (apply nth_error_Some; congruence).
      replace (List.length (tokens q) <? index q + 1) with false
        by (symmetry; apply Nat.ltb_ge; lia).
      unfold tokenAt. now rewrite N. }
    rewrite (bind_step _ _ _ _ _ Ex).
    destruct (kindIs (kind t') Kind.rightBrace);
      [|exact (Hr off j p q a p' Hp Ag H Hj)].
    assert (S2 : stable (next ;;; next ;;; ret (blockNode []))
                   (next ;;; next ;;; ret (blockNode [])))
      by (repeat stable_step).
    exact (proj2 S2 off j p q a p' Hp Ag H Hj).
Qed.

Lemma stable_parseAtom (rec rec' : M astNode) (n n' : nat) :
  consumes rec -> stable rec rec' -> n <= n' ->
  stable (parseAtom rec n) (parseAtom rec' n').
Proof.
  intros HC HR Hn. unfold parseAtom. apply stable_bind; [apply stable_next|].
  intros tok.
  pose proof (fun close acc =>
                stable_parseExprsUntil rec rec' close HR n n' acc Hn) as HE.
  pose proof (fun acc => stable_parseEntriesUntil rec rec' HR n n' acc Hn) as HO.
  pose proof (fun args => stable_parseFnArgs n n' args Hn) as HA.
  pose proof (stable_parseMaybeAssignment rec rec') as HM.
  pose proof (stable_parseFnBody rec rec' HC HR) as HB.
  destruct (kind tok); unfold afterSwitch;
    repeat first [ stable_step | apply HE | apply HO | apply HA | apply HM
                 | apply HB ].
  (* the brace form, after its first expression *)
  apply stable_errorAtEOF.
  repeat first [ stable_step | apply HE | apply HO | apply HM ].
Qed.

Lemma stable_nextNodeLoop (rec rec' : M astNode) (n n' : nat) :
  consumes rec -> stable rec rec' -> n <= n' ->
  forall k k' node,
    k <= k' ->
    stable (nextNodeLoop rec n k node) (nextNodeLoop rec' n' k' node).
Proof.
  intros HC HR Hn. induction k as [|k IH]; intros k' node Hk;
    [apply stable_stuck|].
  destruct k' as [|k']; [lia|]. cbn [nextNodeLoop].
  apply stable_unlessEOF.
  pose proof (fun close acc =>
                stable_parseExprsUntil rec rec' close HR n n' acc Hn) as HE.
  pose proof (stable_parseAtom rec rec' n n' HC HR Hn) as HP.
  assert (HL : forall node', stable (nextNodeLoop rec n k node')
                               (nextNodeLoop rec' n' k' node'))
    by (intros node'; apply IH; lia).
  apply stable_bind; [apply stable_peek|]. intros t.
  destruct (kind t);
    repeat first [ stable_step | apply HE | apply HP | apply HL ].
Qed.

Lemma stable_nextNode (fuel : nat) :
  forall fuel', fuel <= fuel' -> stable (nextNode fuel) (nextNode fuel').
Proof.
  induction fuel as [|f IH]; intros fuel' Hf; [apply stable_stuck|].
  destruct fuel' as [|f']; [lia|]. cbn [nextNode].
  assert (HR : stable (nextNode f) (nextNode f')) by (apply IH; lia).
  pose proof (consumes_nextNode f) as HC.
  apply stable_bind.
  - apply stable_parseAtom; [exact HC|exact HR|lia].
  - intros node. apply stable_nextNodeLoop; [exact HC|exact HR|lia|lia].
Qed.

(** ** Sequences of expressions *)

Ltac lengths :=
  repeat (rewrite ?length_app; cbn [List.length]); lia.

Ltac reassoc :=
  repeat (progress (repeat rewrite <- app_assoc; cbn [app]));
  reflexivity.

Lemma nth_after_prefix (pre rest : list token) (t : token) :
  nth_error (pre ++ t :: rest) (List.length pre) = Some t.
Proof. rewrite nth_error_app2 by lia. now rewrite Nat.sub_diag. Qed.

Lemma at_prefix (pre rest : list token) (t : token) :
  nth_error (tokens (mkParser (pre ++ t :: rest) (List.length pre)))
    (index (mkParser (pre ++ t :: rest) (List.length pre))) = Some t.
Proof. apply nth_after_prefix. Qed.

Lemma nth_in_middle (pre s rest : list token) (i : nat) :
  i < List.length s ->
  nth_error (pre ++ s ++ rest) (i + List.length pre) = nth_error s i.
Proof.
  intros L. rewrite nth_error_app2 by lia.
  replace (i + List.length pre - List.length pre) with i by lia.
  now rewrite nth_error_app1.
Qed.

(** An expression before a token is the same expression wherever it
    stands, whatever comes after the token. *)
Lemma parsesBefore_framed (fuel fuel' : nat) (s : list token) (c : token)
    (n : astNode) (pre rest : list token) :
  parsesBefore fuel s c n -> fuel <= fuel' ->
  nextNode fuel' (mkParser (pre ++ s ++ c :: rest) (List.length pre))
  = Ok n (mkParser (pre ++ s ++ c :: rest) (List.length pre + List.length s)).
Proof.
  intros H Hf.
  pose proof (proj2 (stable_nextNode fuel fuel' Hf) (List.length pre)
                (List.length s) (newParser (s ++ [c]))
                (mkParser (pre ++ s ++ c :: rest) (List.length pre)) n
                (mkParser (s ++ [c]) (List.length s))
                (inBounds_newParser _)) as F.
  cbn [tokens index] in F. rewrite (Nat.add_comm (List.length pre)).
  apply F; [|exact H|apply le_n].
  unfold agree. cbn [newParser tokens index]. split; [reflexivity|].
  split; [lengths|]. intros i Hi.
  replace (pre ++ s ++ c :: rest) with (pre ++ (s ++ [c]) ++ rest) by reassoc.
  apply nth_in_middle. lengths.
Qed.

Lemma parsesBefore_first (fuel : nat) (s : list token) (c : token)
    (n : astNode) :
  parsesBefore fuel s c n -> exists t s', s = t :: s'.
Proof.
  intros H.
  destruct (nextNode_Ok_moves fuel _ _ _ (inBounds_newParser _) H)
    as (_ & L & _).
  cbn [newParser index] in L.
  destruct s as [|t s']; [cbn in L; lia|]. eauto.
Qed.

Lemma parsesBefore_fuel (fuel : nat) (s : list token) (c : token)
    (n : astNode) :
  parsesBefore fuel s c n -> 1 <= fuel.
Proof. intros H. destruct fuel; [discriminate|lia]. Qed.

Lemma itemsTokens_cons (it : item) (items : list item) :
  itemsTokens (it :: items)
  = itemTokens it ++ itemComma it :: itemsTokens items.
Proof. unfold itemsTokens. cbn. now rewrite <- app_assoc. Qed.

(** The loop over comma-separated expressions, on a sequence of items that
    ends with the closing token. *)
Lemma parseExprsUntil_items (fuel fuel' : nat) (close : tokKind) :
  fuel <= fuel' ->
  forall items n acc pre cl rest,
    Forall (isItem fuel) items ->
    Forall (startsNot close) items ->
    List.length items < n ->
    kind cl = close ->
    parseExprsUntil (nextNode fuel') close n acc
      (mkParser (pre ++ itemsTokens items ++ cl :: rest) (List.length pre))
    = Ok (acc ++ map itemNode items)
        (mkParser (pre ++ itemsTokens items ++ cl :: rest)
           (List.length pre + List.length (itemsTokens items))).
Proof.
  intros Hf. induction items as [|it items IH];
    intros n acc pre cl rest HI HS Hn Kcl.
  - destruct n as [|n]; [cbn in Hn; lia|].
    cbn [itemsTokens flat_map app map List.length]. cbn [parseExprsUntil].
    rewrite (isEOF_at _ cl (at_prefix pre rest cl)).
    rewrite (bind_step _ _ _ _ _ (peek_at _ cl (at_prefix pre rest cl))).
    rewrite Kcl, kindIs_refl. rewrite app_nil_r, Nat.add_0_r. reflexivity.
  - destruct n as [|n]; [cbn in Hn; lia|].
    pose proof (Forall_inv HI) as [Hal Kc].
    pose proof (Forall_inv_tail HI) as HI'.
    pose proof (Forall_inv HS) as Hst.
    pose proof (Forall_inv_tail HS) as HS'.
    destruct (parsesBefore_first _ _ _ _ Hal) as (t & s' & Es).
    rewrite itemsTokens_cons.
    set (X := itemsTokens items ++ cl :: rest).
    assert (EW : pre ++ (itemTokens it ++ itemComma it :: itemsTokens items)
                       ++ cl :: rest
                 = pre ++ itemTokens it ++ itemComma it :: X).
    { unfold X. now rewrite <- app_assoc. }
    rewrite EW.
    assert (Ht : nth_error (pre ++ itemTokens it ++ itemComma it :: X)
                   (List.length pre) = Some t).
    { rewrite Es. cbn. apply nth_after_prefix. }
    cbn [parseExprsUntil].
    rewrite (isEOF_at (mkParser _ (List.length pre)) t Ht).
    rewrite (bind_step _ _ _ _ _ (peek_at (mkParser _ (List.length pre)) t Ht)).
    assert (Kt : kindIs (kind t) close = false).
    { apply kindIs_false. apply Hst. rewrite Es. reflexivity. }
    rewrite Kt.
    rewrite (bind_step _ _ _ _ _
               (parsesBefore_framed fuel fuel' _ _ _ pre X Hal Hf)).
    assert (Hc : nth_error (pre ++ itemTokens it ++ itemComma it :: X)
                   (List.length pre + List.length (itemTokens it))
                 = Some (itemComma it)).
    { rewrite app_assoc, <- length_app. apply nth_after_prefix. }
    rewrite (bind_step _ _ _ _ _
               (expect_at (mkParser _ (List.length pre
                                       + List.length (itemTokens it)))
                  (itemComma it) _ Hc Kc)).
    unfold advance. cbn [tokens index].
    specialize (IH n (acc ++ [itemNode it])
                  (pre ++ itemTokens it ++ [itemComma it]) cl rest
                  HI' HS' ltac:(cbn in Hn; lia) Kcl).
    replace ((pre ++ itemTokens it ++ [itemComma it])
             ++ itemsTokens items ++ cl :: rest)
      with (pre ++ itemTokens it ++ itemComma it :: X) in IH
      by (unfold X; rewrite <- !app_assoc; reflexivity).
    replace (List.length (pre ++ itemTokens it ++ [itemComma it]))
      with (S (List.length pre + List.length (itemTokens it))) in IH
      by (rewrite !length_app; cbn; lia).
    rewrite IH. cbn [map]. rewrite <- app_assoc. cbn [app].
    f_equal. f_equal. rewrite !length_app. cbn [List.length]. lia.
Qed.

Lemma nextNodeLoop_atStop (rec : M astNode) (n k : nat) (node : astNode)
    (p : parser) :
  atStop p -> nextNodeLoop rec n (S k) node p = Ok node p.
Proof.
  intros [E|(t & Ht & Kt)]; cbn [nextNodeLoop].
  - now rewrite E.
  - rewrite (isEOF_at p t Ht). rewrite (bind_step _ _ _ _ _ (peek_at p t Ht)).
    destruct (kind t); try discriminate Kt; reflexivity.
Qed.

Lemma nextNodeLoop_Ok_atStop (rec : M astNode) (n k : nat) :
  forall (node a : astNode) (p p' : parser),
    nextNodeLoop rec n k node p = Ok a p' -> atStop p'.
Proof.
  induction k as [|k IH]; intros node a p p' H; [discriminate|].
  cbn [nextNodeLoop] in H.
  destruct (isEOF p) eqn:E.
  - injection H as _ <-. now left.
  - apply bind_Ok in H. destruct H as (t & p1 & Hp & H).
    apply peek_Ok in Hp. destruct Hp as [Ht ->].
    destruct (kind t) eqn:Kt;
      try (exact (IH _ _ _ _ H));
      try (injection H as _ <-; right; exists t; rewrite Kt; now split).
    + apply bind_Ok in H. destruct H as (t1 & p1 & _ & H).
      apply bind_Ok in H. destruct H as (r & p2 & _ & H).
      exact (IH _ _ _ _ H).
    + apply bind_Ok in H. destruct H as (t1 & p1 & _ & H).
      apply bind_Ok in H. destruct H as (args & p2 & _ & H).
      apply bind_Ok in H. destruct H as (t2 & p3 & _ & H).
      exact (IH _ _ _ _ H).
Qed.

Lemma nextNode_Ok_atStop (fuel : nat) (a : astNode) (p p' : parser) :
  nextNode fuel p = Ok a p' -> atStop p'.
Proof.
  destruct fuel as [|f]; [discriminate|]. cbn [nextNode]. intros H.
  apply bind_Ok in H. destruct H as (node & p1 & _ & H).
  exact (nextNodeLoop_Ok_atStop _ _ _ _ _ _ _ H).
Qed.

Lemma parsesBefore_stops (fuel : nat) (s : list token) (c : token)
    (n : astNode) :
  parsesBefore fuel s c n -> stops (kind c) = true.
Proof.
  intros H. apply nextNode_Ok_atStop in H. destruct H as [E|(t & Ht & Kt)].
  - unfold isEOF in E. cbn [tokens index] in E.
    apply Nat.eqb_eq in E. rewrite length_app in E. cbn in E. lia.
  - cbn [tokens index] in Ht.
    rewrite (nth_after_prefix s [] c) in Ht. now injection Ht as <-.
Qed.

Lemma parsesBefore_atStop (s rest front : list token) (c : token)
    (fuel : nat) (n : astNode) :
  parsesBefore fuel s c n ->
  atStop (mkParser (front ++ c :: rest) (List.length front)).
Proof.
  intros H. right. exists c. split; [apply nth_after_prefix|].
  exact (parsesBefore_stops _ _ _ _ H).
Qed.

(** ** Where an expression ends, and what it depends on *)

(** X6. [nextNode] reads no token past the one it stops on: what it returns
    for some tokens it returns, at the same place, for any tokens that are
    the same up to a position at or after the one where it stops, shifted
    by any offset, and with more fuel. *)
Theorem nextNode_reads_one_token_ahead (fuel fuel' off j : nat)
    (p q p' : parser) (a : astNode) :
  inBounds p ->
  agree off j p q ->
  nextNode fuel p = Ok a p' ->
  index p' <= j ->
  fuel <= fuel' ->
  nextNode fuel' q = Ok a (mkParser (tokens q) (index p' + off)).
Proof.
  intros Hp Ha H Hj Hf.
  exact (proj2 (stable_nextNode fuel fuel' Hf) off j p q a p' Hp Ha H Hj).
Qed.

(** X7. [nextNode] returns a node only at the end of the tokens or on a
    comma, a colon or a right delimiter: on any other token its loop goes
    on. *)
Theorem nextNode_returns_only_at_a_stop (fuel : nat) (p p' : parser)
    (a : astNode) :
  nextNode fuel p = Ok a p' ->
  isEOF p' = true
  \/ exists t,
      nth_error (tokens p') (index p') = Some t /\ stops (kind t) = true.
Proof.
  destruct fuel as [|f]; [discriminate|]. cbn [nextNode]. intros H.
  apply bind_Ok in H. destruct H as (node & p1 & _ & H).
  destruct (nextNodeLoop_Ok_atStop _ _ _ _ _ _ _ H) as [E|(t & Ht & Kt)].
  - now left.
  - right. exists t. now split.
Qed.

(** The loop of [parse] over a sequence of items, whatever comes after
    them. *)
Lemma parseLoop_items (fuel fuel' : nat) (rest : list token) :
  fuel <= fuel' ->
  forall items k nodes pre,
    Forall (isItem fuel) items ->
    parseLoop (nextNode fuel') (List.length items + k) nodes
      (mkParser (pre ++ itemsTokens items ++ rest) (List.length pre))
    = parseLoop (nextNode fuel') k (nodes ++ map itemNode items)
        (mkParser (pre ++ itemsTokens items ++ rest)
           (List.length pre + List.length (itemsTokens items))).
Proof.
  intros Hf. induction items as [|it items IH]; intros k nodes pre HI.
  - cbn [itemsTokens flat_map map List.length app Nat.add].
    now rewrite app_nil_r, Nat.add_0_r.
  - pose proof (Forall_inv HI) as [Hal Kc].
    pose proof (Forall_inv_tail HI) as HI'.
    destruct (parsesBefore_first _ _ _ _ Hal) as (t & s' & Es).
    rewrite itemsTokens_cons.
    set (X := itemsTokens items ++ rest).
    assert (EW : pre ++ (itemTokens it ++ itemComma it :: itemsTokens items)
                       ++ rest
                 = pre ++ itemTokens it ++ itemComma it :: X).
    { unfold X. now rewrite <- app_assoc. }
    rewrite EW.
    assert (Ht : nth_error (pre ++ itemTokens it ++ itemComma it :: X)
                   (List.length pre) = Some t).
    { rewrite Es. cbn. apply nth_after_prefix. }
    cbn [List.length Nat.add parseLoop].
    rewrite (isEOF_at (mkParser _ (List.length pre)) t Ht).
    rewrite (bind_step _ _ _ _ _
               (parsesBefore_framed fuel fuel' _ _ _ pre X Hal Hf)).
    assert (Hc : nth_error (pre ++ itemTokens it ++ itemComma it :: X)
                   (List.length pre + List.length (itemTokens it))
                 = Some (itemComma it)).
    { rewrite app_assoc, <- length_app. apply nth_after_prefix. }
    rewrite (bind_step _ _ _ _ _
               (expect_at (mkParser _ (List.length pre
                                       + List.length (itemTokens it)))
                  (itemComma it) _ Hc Kc)).
    unfold ret, advance. cbn [tokens index].
    specialize (IH k (nodes ++ [itemNode it])
                  (pre ++ itemTokens it ++ [itemComma it]) HI').
    replace ((pre ++ itemTokens it ++ [itemComma it])
             ++ itemsTokens items ++ rest)
      with (pre ++ itemTokens it ++ itemComma it :: X) in IH
      by (unfold X; rewrite <- !app_assoc; reflexivity).
    replace (List.length (pre ++ itemTokens it ++ [itemComma it]))
      with (S (List.length pre + List.length (itemTokens it))) in IH
      by (rewrite !length_app; cbn; lia).
    rewrite IH. cbn [map]. rewrite <- app_assoc. cbn [app].
    f_equal. f_equal. rewrite !length_app. cbn [List.length]. lia.
Qed.

(** X8. A token sequence made of expressions, each followed by a comma
    token, is parsed into the nodes of the expressions, in their order and
    without an error; an expression is any token sequence on which, before
    its comma, [nextNode] returns a node with the cursor on the comma. *)
Theorem parse_comma_separated_expressions (fuel fuel' : nat)
    (items : list item) :
  Forall (isItem fuel) items ->
  fuel <= fuel' ->
  List.length items < fuel' ->
  parse fuel' (newParser (itemsTokens items))
  = Returns (map itemNode items) None.
Proof.
  intros HI Hf Hk. unfold parse.
  pose proof (parseLoop_items fuel fuel' [] Hf items
                (fuel' - List.length items) [] [] HI) as E.
  replace (List.length items + (fuel' - List.length items)) with fuel' in E
    by lia.
  cbn [app List.length Nat.add] in E. rewrite app_nil_r in E.
  unfold newParser. rewrite E.
  destruct (fuel' - List.length items) as [|k] eqn:Ek; [lia|].
  cbn [parseLoop].
  replace (isEOF (mkParser (itemsTokens items)
                    (List.length (itemsTokens items)))) with true
    by (symmetry; apply Nat.eqb_refl).
  reflexivity.
Qed.

Lemma list_literal_framed (fuel fuel' : nat) (pre rest : list token)
    (lb rb t : token) (items : list item) :
  Forall (isItem fuel) items ->
  Forall (startsNot Kind.rightBracket) items ->
  kind lb = Kind.leftBracket ->
  kind rb = Kind.rightBracket ->
  stops (kind t) = true ->
  fuel <= fuel' ->
  List.length items < fuel' ->
  nextNode (S fuel')
    (mkParser (pre ++ lb :: itemsTokens items ++ rb :: t :: rest)
       (List.length pre))
  = Ok (listNode (map itemNode items))
      (mkParser (pre ++ lb :: itemsTokens items ++ rb :: t :: rest)
         (List.length pre + List.length (itemsTokens items) + 2)).
Proof.
  intros HI HS Klb Krb Kt Hf Hn.
  set (W := pre ++ lb :: itemsTokens items ++ rb :: t :: rest).
  assert (EW : W = (pre ++ [lb]) ++ itemsTokens items ++ rb :: t :: rest)
    by (unfold W; now rewrite <- app_assoc).
  assert (L1 : List.length (pre ++ [lb]) = S (List.length pre))
    by (rewrite length_app; cbn; lia).
  cbn [nextNode]. unfold bind at 1. unfold parseAtom. unfold bind at 1.
  rewrite (next_at (mkParser W (List.length pre)) lb (at_prefix pre _ lb)).
  unfold advance. cbn [tokens index]. rewrite Klb.
  pose proof (parseExprsUntil_items fuel fuel' Kind.rightBracket Hf items
                fuel' [] (pre ++ [lb]) rb (t :: rest) HI HS Hn Krb) as E.
  rewrite <- EW, L1 in E. rewrite (bind_step _ _ _ _ _ E).
  assert (Hrb : nth_error W (S (List.length pre) + List.length (itemsTokens items))
                = Some rb).
  { rewrite EW, app_assoc, <- L1, <- length_app. apply nth_after_prefix. }
  rewrite (bind_step _ _ _ _ _
             (expect_at (mkParser W _) rb _ Hrb Krb)).
  unfold advance. cbn [tokens index].
  assert (Ht : nth_error W
                 (S (S (List.length pre) + List.length (itemsTokens items)))
               = Some t).
  { rewrite EW. rewrite app_assoc.
    replace (S (S (List.length pre) + List.length (itemsTokens items)))
      with (List.length (((pre ++ [lb]) ++ itemsTokens items) ++ [rb]))
      by (rewrite !length_app; cbn; lia).
    change (rb :: t :: rest) with ([rb] ++ t :: rest). rewrite app_assoc.
    apply nth_after_prefix. }
  unfold parseMaybeAssignment.
  rewrite (bind_step _ _ _ _ _ (peek_at (mkParser W _) t Ht)).
  replace (negb (kindIs (kind t) Kind.assign)
           && negb (kindIs (kind t) Kind.nonlocalAssign)) with true
    by (destruct (kind t); try discriminate Kt; reflexivity).
  unfold ret. destruct fuel' as [|f]; [lia|].
  cbn [nextNodeLoop]. rewrite (isEOF_at (mkParser W _) t Ht).
  rewrite (bind_step _ _ _ _ _ (peek_at (mkParser W _) t Ht)).
  replace (List.length pre + List.length (itemsTokens items) + 2)
    with (S (S (List.length pre) + List.length (itemsTokens items))) by lia.
  destruct (kind t); try discriminate Kt; reflexivity.
Qed.

(** X10. A list literal -- a left bracket, expressions each followed by a
    comma, a right bracket -- is one expression before a comma, a colon or
    a right delimiter: the list node of the expressions' nodes, in their
    order. *)
Theorem list_literal_elements (fuel fuel' : nat) (lb rb t : token)
    (items : list item) :
  Forall (isItem fuel) items ->
  Forall (startsNot Kind.rightBracket) items ->
  kind lb = Kind.leftBracket ->
  kind rb = Kind.rightBracket ->
  stops (kind t) = true ->
  fuel <= fuel' ->
  List.length items < fuel' ->
  parsesBefore (S fuel') (lb :: itemsTokens items ++ [rb]) t
    (listNode (map itemNode items)).
Proof.
  intros HI HS Klb Krb Kt Hf Hn. unfold parsesBefore, newParser.
  pose proof (list_literal_framed fuel fuel' [] [] lb rb t items
                HI HS Klb Krb Kt Hf Hn) as E.
  cbn [app List.length Nat.add] in E.
  replace ((lb :: itemsTokens items ++ [rb]) ++ [t])
    with (lb :: itemsTokens items ++ [rb; t]) by reassoc.
  replace (List.length (lb :: itemsTokens items ++ [rb]))
    with (List.length (itemsTokens items) + 2) by lengths.
  exact E.
Qed.

Lemma call_arguments_framed (fuel fuel' : nat) (pre rest : list token)
    (f lp rp t : token) (items : list item) :
  Forall (isItem fuel) items ->
  Forall (startsNot Kind.rightParen) items ->
  kind f = Kind.identifier ->
  kind lp = Kind.leftParen ->
  kind rp = Kind.rightParen ->
  stops (kind t) = true ->
  fuel <= fuel' ->
  List.length items < fuel' ->
  2 <= fuel' ->
  nextNode (S fuel')
    (mkParser (pre ++ f :: lp :: itemsTokens items ++ rp :: t :: rest)
       (List.length pre))
  = Ok (fnCallNode (identifierNode (payload f)) (map itemNode items))
      (mkParser (pre ++ f :: lp :: itemsTokens items ++ rp :: t :: rest)
         (List.length pre + List.length (itemsTokens items) + 3)).
Proof.
  intros HI HS Kf Klp Krp Kt Hf Hn H2.
  set (W := pre ++ f :: lp :: itemsTokens items ++ rp :: t :: rest).
  assert (EW : W = (pre ++ [f; lp]) ++ itemsTokens items ++ rp :: t :: rest)
    by (unfold W; now rewrite <- app_assoc).
  assert (L1 : List.length (pre ++ [f; lp]) = S (S (List.length pre)))
    by (rewrite length_app; cbn; lia).
  assert (Hlp : nth_error W (S (List.length pre)) = Some lp).
  { unfold W. change (f :: lp :: ?x) with ([f] ++ lp :: x).
    rewrite app_assoc.
    replace (S (List.length pre)) with (List.length (pre ++ [f]))
      by (rewrite length_app; cbn; lia).
    apply nth_after_prefix. }
  cbn [nextNode]. unfold bind at 1. unfold parseAtom. unfold bind at 1.
  rewrite (next_at (mkParser W (List.length pre)) f (at_prefix pre _ f)).
  unfold advance. cbn [tokens index]. rewrite Kf.
  unfold parseMaybeAssignment.
  rewrite (bind_step _ _ _ _ _ (peek_at (mkParser W _) lp Hlp)).
  rewrite Klp.
  change (negb (kindIs Kind.leftParen Kind.assign)
          && negb (kindIs Kind.leftParen Kind.nonlocalAssign)) with true.
  cbv iota. unfold ret at 1.
  destruct fuel' as [|[|k]]; [lia|lia|].
  cbn [nextNodeLoop]. rewrite (isEOF_at (mkParser W _) lp Hlp).
  rewrite (bind_step _ _ _ _ _ (peek_at (mkParser W _) lp Hlp)). rewrite Klp.
  rewrite (bind_step _ _ _ _ _ (next_at (mkParser W _) lp Hlp)).
  unfold advance. cbn [tokens index].
  pose proof (parseExprsUntil_items fuel (S (S k)) Kind.rightParen Hf items
                (S (S k)) [] (pre ++ [f; lp]) rp (t :: rest) HI HS Hn Krp) as E.
  rewrite <- EW, L1 in E. rewrite (bind_step _ _ _ _ _ E).
  assert (Hrp : nth_error W
                  (S (S (List.length pre)) + List.length (itemsTokens items))
                = Some rp).
  { rewrite EW, app_assoc, <- L1, <- length_app. apply nth_after_prefix. }
  rewrite (bind_step _ _ _ _ _ (expect_at (mkParser W _) rp _ Hrp Krp)).
  unfold advance. cbn [tokens index].
  assert (Ht : nth_error W
                 (S (S (S (List.length pre)) + List.length (itemsTokens items)))
               = Some t).
  { rewrite EW. rewrite app_assoc.
    replace (S (S (S (List.length pre)) + List.length (itemsTokens items)))
      with (List.length (((pre ++ [f; lp]) ++ itemsTokens items) ++ [rp]))
      by (rewrite !length_app; cbn; lia).
    change (rp :: t :: rest) with ([rp] ++ t :: rest). rewrite app_assoc.
    apply nth_after_prefix. }
  rewrite (isEOF_at (mkParser W _) t Ht).
  rewrite (bind_step _ _ _ _ _ (peek_at (mkParser W _) t Ht)).
  replace (List.length pre + List.length (itemsTokens items) + 3)
    with (S (S (S (List.length pre)) + List.length (itemsTokens items)))
    by lia.
  destruct (kind t); try discriminate Kt; reflexivity.
Qed.

(** X11. A call -- an identifier, a left parenthesis, expressions each
    followed by a comma, a right parenthesis -- is one expression before a
    comma, a colon or a right delimiter: the call node of the identifier
    with the expressions' nodes as arguments, in their order. *)
Theorem call_arguments (fuel fuel' : nat) (f lp rp t : token)
    (items : list item) :
  Forall (isItem fuel) items ->
  Forall (startsNot Kind.rightParen) items ->
  kind f = Kind.identifier ->
  kind lp = Kind.leftParen ->
  kind rp = Kind.rightParen ->
  stops (kind t) = true ->
  fuel <= fuel' ->
  List.length items < fuel' ->
  2 <= fuel' ->
  parsesBefore (S fuel') (f :: lp :: itemsTokens items ++ [rp]) t
    (fnCallNode (identifierNode (payload f)) (map itemNode items)).
Proof.
  intros HI HS Kf Klp Krp Kt Hf Hn H2. unfold parsesBefore, newParser.
  pose proof (call_arguments_framed fuel fuel' [] [] f lp rp t items
                HI HS Kf Klp Krp Kt Hf Hn H2) as E.
  cbn [app List.length Nat.add] in E.
  replace ((f :: lp :: itemsTokens items ++ [rp]) ++ [t])
    with (f :: lp :: itemsTokens items ++ [rp; t]) by reassoc.
  replace (List.length (f :: lp :: itemsTokens items ++ [rp]))
    with (List.length (itemsTokens items) + 3) by lengths.
  exact E.
Qed.

Lemma parenthesized_block_framed (fuel fuel' : nat) (pre rest : list token)
    (lp rp t : token) (items : list item) :
  Forall (isItem fuel) items ->
  Forall (startsNot Kind.rightParen) items ->
  kind lp = Kind.leftParen ->
  kind rp = Kind.rightParen ->
  stops (kind t) = true ->
  fuel <= fuel' ->
  List.length items < fuel' ->
  nextNode (S fuel')
    (mkParser (pre ++ lp :: itemsTokens items ++ rp :: t :: rest)
       (List.length pre))
  = Ok (blockNode (map itemNode items))
      (mkParser (pre ++ lp :: itemsTokens items ++ rp :: t :: rest)
         (List.length pre + List.length (itemsTokens items) + 2)).
Proof.
  intros HI HS Klp Krp Kt Hf Hn.
  set (W := pre ++ lp :: itemsTokens items ++ rp :: t :: rest).
  assert (EW : W = (pre ++ [lp]) ++ itemsTokens items ++ rp :: t :: rest)
    by (unfold W; reassoc).
  assert (L1 : List.length (pre ++ [lp]) = S (List.length pre)) by lengths.
  cbn [nextNode]. unfold bind at 1. unfold parseAtom. unfold bind at 1.
  rewrite (next_at (mkParser W (List.length pre)) lp (at_prefix pre _ lp)).
  unfold advance. cbn [tokens index]. rewrite Klp.
  pose proof (parseExprsUntil_items fuel fuel' Kind.rightParen Hf items
                fuel' [] (pre ++ [lp]) rp (t :: rest) HI HS Hn Krp) as E.
  rewrite <- EW, L1 in E. rewrite (bind_step _ _ _ _ _ E).
  assert (Hrp : nth_error W (S (List.length pre) + List.length (itemsTokens items))
                = Some rp).
  { rewrite EW, app_assoc, <- L1, <- length_app. apply nth_after_prefix. }
  rewrite (bind_step _ _ _ _ _ (expect_at (mkParser W _) rp _ Hrp Krp)).
  unfold ret, advance. cbn [tokens index].
  assert (Ht : nth_error W
                 (S (S (List.length pre) + List.length (itemsTokens items)))
               = Some t).
  { replace W with ((pre ++ lp :: itemsTokens items ++ [rp]) ++ t :: rest)
      by (unfold W; reassoc).
    replace (S (S (List.length pre) + List.length (itemsTokens items)))
      with (List.length (pre ++ lp :: itemsTokens items ++ [rp])) by lengths.
    apply nth_after_prefix. }
  replace (List.length pre + List.length (itemsTokens items) + 2)
    with (S (S (List.length pre) + List.length (itemsTokens items))) by lia.
  destruct fuel' as [|k]; [lia|].
  apply nextNodeLoop_atStop. right. exists t. auto.
Qed.

(** X12. A left parenthesis, expressions each followed by a comma, none
    of them starting with a right parenthesis, and a right parenthesis are
    one expression before a comma, a colon or a right delimiter: the block
    node of the expressions' nodes. *)
Theorem parenthesized_block_is_an_expression (fuel fuel' : nat)
    (lp rp t : token) (items : list item) :
  Forall (isItem fuel) items ->
  Forall (startsNot Kind.rightParen) items ->
  kind lp = Kind.leftParen ->
  kind rp = Kind.rightParen ->
  stops (kind t) = true ->
  fuel <= fuel' ->
  List.length items < fuel' ->
  parsesBefore (S fuel') (lp :: itemsTokens items ++ [rp]) t
    (blockNode (map itemNode items)).
Proof.
  intros HI HS Klp Krp Kt Hf Hn. unfold parsesBefore, newParser.
  pose proof (parenthesized_block_framed fuel fuel' [] [] lp rp t items
                HI HS Klp Krp Kt Hf Hn) as E.
  cbn [app List.length Nat.add] in E.
  replace ((lp :: itemsTokens items ++ [rp]) ++ [t])
    with (lp :: itemsTokens items ++ [rp; t]) by reassoc.
  replace (List.length (lp :: itemsTokens items ++ [rp]))
    with (List.length (itemsTokens items) + 2) by lengths.
  exact E.
Qed.

(** ** Chains: assignment, unary operators, property access *)

Lemma assignment_chain_framed (fuel : nat) (s rest : list token) (c : token)
    (n : astNode) (targets : list (token * token)) :
  Forall isTarget targets ->
  parsesBefore fuel s c n ->
  forall pre,
    nextNode (List.length targets + fuel)
      (mkParser (pre ++ targetTokens targets ++ s ++ c :: rest)
         (List.length pre))
    = Ok (assignAll targets n)
        (mkParser (pre ++ targetTokens targets ++ s ++ c :: rest)
           (List.length pre + List.length (targetTokens targets)
            + List.length s)).
Proof.
  intros HT Hal. induction targets as [|[id op] targets IH]; intros pre.
  - cbn [targetTokens flat_map app List.length assignAll fold_right].
    rewrite Nat.add_0_r.
    exact (parsesBefore_framed fuel fuel s c n pre rest Hal (le_n _)).
  - pose proof (Forall_inv HT) as [Kid Kop]. cbn [fst snd] in Kid, Kop.
    specialize (IH (Forall_inv_tail HT) (pre ++ [id; op])).
    cbn [targetTokens flat_map fst snd app].
    fold (targetTokens targets).
    set (X := targetTokens targets ++ s ++ c :: rest) in *.
    assert (EW : (pre ++ [id; op]) ++ X = pre ++ id :: op :: X)
      by now rewrite <- app_assoc.
    rewrite EW in IH.
    set (W := pre ++ id :: op :: X) in *.
    assert (L1 : List.length (pre ++ [id; op]) = S (S (List.length pre)))
      by (rewrite length_app; cbn; lia).
    rewrite L1 in IH.
    assert (Hop : nth_error W (S (List.length pre)) = Some op).
    { unfold W. change (id :: op :: X) with ([id] ++ op :: X).
      rewrite app_assoc.
      replace (S (List.length pre)) with (List.length (pre ++ [id]))
        by (rewrite length_app; cbn; lia).
      apply nth_after_prefix. }
    cbn [List.length Nat.add nextNode]. unfold bind at 1.
    unfold parseAtom. unfold bind at 1.
    rewrite (next_at (mkParser W (List.length pre)) id (at_prefix pre _ id)).
    unfold advance. cbn [tokens index]. rewrite Kid.
    unfold parseMaybeAssignment.
    rewrite (bind_step _ _ _ _ _ (peek_at (mkParser W _) op Hop)).
    replace (negb (kindIs (kind op) Kind.assign)
             && negb (kindIs (kind op) Kind.nonlocalAssign)) with false
      by (destruct Kop as [-> | ->]; reflexivity).
    rewrite (bind_step _ _ _ _ _ (next_at (mkParser W _) op Hop)).
    unfold advance. cbn [tokens index].
    rewrite (bind_step _ _ _ _ _ IH). unfold ret.
    pose proof (parsesBefore_fuel _ _ _ _ Hal) as F1.
    destruct (List.length targets + fuel) as [|k] eqn:Ek; [lia|].
    cbn [assignAll fold_right fst snd].
    replace (List.length pre + S (S (List.length (targetTokens targets)))
             + List.length s)
      with (S (S (List.length pre)) + List.length (targetTokens targets)
            + List.length s) by lia.
    apply nextNodeLoop_atStop.
    pose proof (parsesBefore_atStop s rest
                  (pre ++ id :: op :: targetTokens targets ++ s) c fuel n Hal)
      as A.
    replace ((pre ++ id :: op :: targetTokens targets ++ s) ++ c :: rest)
      with W in A by (unfold W, X; reassoc).
    replace (List.length (pre ++ id :: op :: targetTokens targets ++ s))
      with (S (S (List.length pre)) + List.length (targetTokens targets)
            + List.length s) in A by lengths.
    exact A.
Qed.

(** X13. Assignment associates to the right and takes the whole expression
    after it: identifiers each followed by [:=] or [<-], then an
    expression, are one expression, the assignment of the first identifier
    to the assignment of the second, and so on down to the expression. *)
Theorem assignment_chain_nests_to_the_right (fuel : nat) (s : list token)
    (c : token) (n : astNode) (targets : list (token * token)) :
  Forall isTarget targets ->
  parsesBefore fuel s c n ->
  parsesBefore (List.length targets + fuel) (targetTokens targets ++ s) c
    (assignAll targets n).
Proof.
  intros HT Hal. unfold parsesBefore, newParser.
  pose proof (assignment_chain_framed fuel s [] c n targets HT Hal []) as E.
  cbn [app List.length Nat.add] in E.
  replace ((targetTokens targets ++ s) ++ [c])
    with (targetTokens targets ++ s ++ [c]) by reassoc.
  replace (List.length (targetTokens targets ++ s))
    with (List.length (targetTokens targets) + List.length s) by lengths.
  exact E.
Qed.

Lemma unary_chain_framed (fuel : nat) (s rest : list token) (c : token)
    (n : astNode) (ops : list token) :
  Forall isUnary ops ->
  parsesBefore fuel s c n ->
  forall pre,
    nextNode (List.length ops + fuel)
      (mkParser (pre ++ ops ++ s ++ c :: rest) (List.length pre))
    = Ok (unaryAll ops n)
        (mkParser (pre ++ ops ++ s ++ c :: rest)
           (List.length pre + List.length ops + List.length s)).
Proof.
  intros HU Hal. induction ops as [|op ops IH]; intros pre.
  - cbn [app List.length unaryAll fold_right]. rewrite Nat.add_0_r.
    exact (parsesBefore_framed fuel fuel s c n pre rest Hal (le_n _)).
  - pose proof (Forall_inv HU) as Kop.
    specialize (IH (Forall_inv_tail HU) (pre ++ [op])).
    cbn [app].
    set (X := ops ++ s ++ c :: rest) in *.
    assert (EW : (pre ++ [op]) ++ X = pre ++ op :: X)
      by now rewrite <- app_assoc.
    rewrite EW in IH.
    set (W := pre ++ op :: X) in *.
    assert (L1 : List.length (pre ++ [op]) = S (List.length pre))
      by (rewrite length_app; cbn; lia).
    rewrite L1 in IH.
    cbn [List.length Nat.add nextNode]. unfold bind at 1.
    unfold parseAtom. unfold bind at 1.
    rewrite (next_at (mkParser W (List.length pre)) op (at_prefix pre _ op)).
    unfold advance. cbn [tokens index].
    pose proof (parsesBefore_fuel _ _ _ _ Hal) as F1.
    destruct Kop as [Kop|Kop]; rewrite Kop;
      rewrite (bind_step _ _ _ _ _ IH); unfold ret;
      (destruct (List.length ops + fuel) as [|k] eqn:Ek; [lia|]);
      cbn [unaryAll fold_right]; rewrite Kop;
      replace (List.length pre + S (List.length ops) + List.length s)
        with (S (List.length pre) + List.length ops + List.length s) by lia;
      apply nextNodeLoop_atStop;
      pose proof (parsesBefore_atStop s rest (pre ++ op :: ops ++ s) c fuel n
                    Hal) as A;
      (replace ((pre ++ op :: ops ++ s) ++ c :: rest) with W in A
        by (unfold W, X; reassoc));
      (replace (List.length (pre ++ op :: ops ++ s))
         with (S (List.length pre) + List.length ops + List.length s) in A
        by lengths);
      exact A.
Qed.

(** X14. A unary operator takes the whole expression after it: minus and
    exclamation tokens followed by an expression are one expression, the
    unary nodes of the operators, the first outermost, around the node of
    the expression. *)
Theorem unary_chain_nests (fuel : nat) (s : list token) (c : token)
    (n : astNode) (ops : list token) :
  Forall isUnary ops ->
  parsesBefore fuel s c n ->
  parsesBefore (List.length ops + fuel) (ops ++ s) c (unaryAll ops n).
Proof.
  intros HU Hal. unfold parsesBefore, newParser.
  pose proof (unary_chain_framed fuel s [] c n ops HU Hal []) as E.
  cbn [app List.length Nat.add] in E.
  replace ((ops ++ s) ++ [c]) with (ops ++ s ++ [c]) by reassoc.
  replace (List.length (ops ++ s))
    with (List.length ops + List.length s) by lengths.
  exact E.
Qed.

Lemma accessTokens_cons (d k : token) (keys : list (token * token)) :
  accessTokens ((d, k) :: keys) = d :: k :: accessTokens keys.
Proof. reflexivity. Qed.

(** After a key of a chain comes a dot or the token that ends the chain:
    no assignment operator. *)
Lemma after_key (keys : list (token * token)) (t : token) (rest : list token) :
  Forall isAccess keys -> stops (kind t) = true ->
  exists u rest',
    accessTokens keys ++ t :: rest = u :: rest'
    /\ negb (kindIs (kind u) Kind.assign)
       && negb (kindIs (kind u) Kind.nonlocalAssign) = true.
Proof.
  intros HK Kt. destruct keys as [|[d k] keys].
  - exists t, rest. split; [reflexivity|].
    destruct (kind t); try discriminate Kt; reflexivity.
  - pose proof (Forall_inv HK) as [Kd _]. cbn [fst] in Kd.
    exists d, (k :: accessTokens keys ++ t :: rest).
    split; [reflexivity|]. rewrite Kd. reflexivity.
Qed.

Lemma nextNodeLoop_accesses (rec : M astNode) (n : nat) (t : token)
    (rest : list token) :
  stops (kind t) = true ->
  forall keys k node pre,
    Forall isAccess keys ->
    List.length keys < k ->
    nextNodeLoop rec n k node
      (mkParser (pre ++ accessTokens keys ++ t :: rest) (List.length pre))
    = Ok (accessAll keys node)
        (mkParser (pre ++ accessTokens keys ++ t :: rest)
           (List.length pre + List.length (accessTokens keys))).
Proof.
  intros Kt. induction keys as [|[d key] keys IH]; intros k node pre HK Hk.
  - destruct k as [|k]; [cbn in Hk; lia|].
    cbn [accessTokens flat_map app List.length accessAll fold_left].
    rewrite Nat.add_0_r. apply nextNodeLoop_atStop.
    right. exists t. split; [apply nth_after_prefix|exact Kt].
  - destruct k as [|k]; [cbn in Hk; lia|].
    pose proof (Forall_inv HK) as [Kd Kkey]. cbn [fst snd] in Kd, Kkey.
    pose proof (Forall_inv_tail HK) as HK'.
    destruct (after_key keys t rest HK' Kt) as (u & rest' & Eu & Ku).
    rewrite accessTokens_cons. cbn [app].
    set (X := accessTokens keys ++ t :: rest) in *.
    set (W := pre ++ d :: key :: X).
    assert (Hkey : nth_error W (S (List.length pre)) = Some key).
    { unfold W. change (d :: key :: X) with ([d] ++ key :: X).
      rewrite app_assoc.
      replace (S (List.length pre)) with (List.length (pre ++ [d]))
        by (rewrite length_app; cbn; lia).
      apply nth_after_prefix. }
    assert (Hu : nth_error W (S (S (List.length pre))) = Some u).
    { unfold W. rewrite Eu. change (d :: key :: u :: rest')
        with ([d; key] ++ u :: rest').
      rewrite app_assoc.
      replace (S (S (List.length pre))) with (List.length (pre ++ [d; key]))
        by (rewrite length_app; cbn; lia).
      apply nth_after_prefix. }
    cbn [nextNodeLoop].
    rewrite (isEOF_at (mkParser W (List.length pre)) d (at_prefix pre _ d)).
    rewrite (bind_step _ _ _ _ _
               (peek_at (mkParser W (List.length pre)) d (at_prefix pre _ d))).
    rewrite Kd.
    rewrite (bind_step _ _ _ _ _
               (next_at (mkParser W (List.length pre)) d (at_prefix pre _ d))).
    unfold advance. cbn [tokens index].
    unfold parseAtom. unfold bind at 1. unfold bind at 1.
    rewrite (next_at (mkParser W _) key Hkey).
    unfold advance. cbn [tokens index]. rewrite Kkey.
    unfold parseMaybeAssignment.
    rewrite (bind_step _ _ _ _ _ (peek_at (mkParser W _) u Hu)).
    rewrite Ku. unfold ret.
    specialize (IH k (propertyAccessNode node (identifierNode (payload key)))
                  (pre ++ [d; key]) HK' ltac:(cbn in Hk; lia)).
    replace ((pre ++ [d; key]) ++ X) with W in IH
      by (unfold W; rewrite <- app_assoc; reflexivity).
    replace (List.length (pre ++ [d; key])) with (S (S (List.length pre))) in IH
      by (rewrite length_app; cbn; lia).
    rewrite IH. cbn [accessAll fold_left snd List.length].
    f_equal. f_equal. lia.
Qed.

Lemma property_access_chain_framed (fuel : nat)
    (pre rest : list token) (b t : token) (keys : list (token * token)) :
  kind b = Kind.identifier ->
  Forall isAccess keys ->
  stops (kind t) = true ->
  List.length keys < fuel ->
  nextNode (S fuel)
    (mkParser (pre ++ b :: accessTokens keys ++ t :: rest) (List.length pre))
  = Ok (accessAll keys (identifierNode (payload b)))
      (mkParser (pre ++ b :: accessTokens keys ++ t :: rest)
         (List.length pre + List.length (accessTokens keys) + 1)).
Proof.
  intros Kb HK Kt Hk.
  destruct (after_key keys t rest HK Kt) as (u & rest' & Eu & Ku).
  set (W := pre ++ b :: accessTokens keys ++ t :: rest).
  assert (Hu : nth_error W (S (List.length pre)) = Some u).
  { unfold W. rewrite Eu. change (b :: u :: rest') with ([b] ++ u :: rest').
    rewrite app_assoc.
    replace (S (List.length pre)) with (List.length (pre ++ [b]))
      by (rewrite length_app; cbn; lia).
    apply nth_after_prefix. }
  cbn [nextNode]. unfold bind at 1. unfold parseAtom. unfold bind at 1.
  rewrite (next_at (mkParser W (List.length pre)) b (at_prefix pre _ b)).
  unfold advance. cbn [tokens index]. rewrite Kb.
  unfold parseMaybeAssignment.
  rewrite (bind_step _ _ _ _ _ (peek_at (mkParser W _) u Hu)).
  rewrite Ku. unfold ret.
  pose proof (nextNodeLoop_accesses (nextNode fuel) fuel t rest Kt keys fuel
                (identifierNode (payload b)) (pre ++ [b]) HK Hk) as E.
  replace ((pre ++ [b]) ++ accessTokens keys ++ t :: rest) with W in E
    by (unfold W; rewrite <- app_assoc; reflexivity).
  replace (List.length (pre ++ [b])) with (S (List.length pre)) in E
    by (rewrite length_app; cbn; lia).
  rewrite E. f_equal. f_equal. lia.
Qed.

(** X15. Property access associates to the left: an identifier followed by
    [.name] any number of times is one expression before a comma, a colon
    or a right delimiter, the access of the last name on the access of the
    one before it, and so on down to the identifier. *)
Theorem property_access_chain_nests_to_the_left (fuel : nat) (b t : token)
    (keys : list (token * token)) :
  kind b = Kind.identifier ->
  Forall isAccess keys ->
  stops (kind t) = true ->
  List.length keys < fuel ->
  parsesBefore (S fuel) (b :: accessTokens keys) t
    (accessAll keys (identifierNode (payload b))).
Proof.
  intros Kb HK Kt Hk. unfold parsesBefore, newParser.
  pose proof (property_access_chain_framed fuel [] [] b t keys Kb HK Kt Hk)
    as E.
  cbn [app List.length Nat.add] in E.
  replace ((b :: accessTokens keys) ++ [t])
    with (b :: accessTokens keys ++ [t]) by reassoc.
  replace (List.length (b :: accessTokens keys))
    with (List.length (accessTokens keys) + 1) by lengths.
  exact E.
Qed.

(** ** Integer literals *)

Lemma digitChar_facts (d : nat) :
  d < 10 ->
  isDigit (digitChar d) = true
  /\ Z.of_nat (nat_of_ascii (digitChar d)) = (48 + Z.of_nat d)%Z
  /\ Ascii.eqb (digitChar d) "-" = false
  /\ Ascii.eqb (digitChar d) "+" = false
  /\ Ascii.eqb "." (digitChar d) = false.
Proof.
  intros H. do 10 (destruct d as [|d]; [repeat split; reflexivity|]). lia.
Qed.

Lemma digits_step_grows (ds : list nat) (n : Z) :
  (0 <= n)%Z ->
  (n <= fold_left (fun n d => n * 10 + Z.of_nat d) ds n)%Z.
Proof.
  revert n. induction ds as [|d ds IH]; intros n Hn; cbn; [lia|].
  specialize (IH (n * 10 + Z.of_nat d)%Z ltac:(lia)). lia.
Qed.

Lemma parseUintLoop_digits (ds : list nat) :
  Forall (fun d => d < 10) ds ->
  forall n,
    (0 <= n <= maxUint64)%Z ->
    parseUintLoop (map digitChar ds) n
    = let v := fold_left (fun n d => n * 10 + Z.of_nat d)%Z ds n in
      if (v <=? maxUint64)%Z then (v, None) else (maxUint64, Some ErrRange).
Proof.
  induction 1 as [|d ds Hd HF IH]; intros n Hn; cbn [map parseUintLoop fold_left].
  - cbv zeta. destruct (Z.leb_spec n maxUint64); [reflexivity|lia].
  - destruct (digitChar_facts d Hd) as (Dg & Dv & _). rewrite Dg, Dv.
    replace (48 + Z.of_nat d - 48)%Z with (Z.of_nat d) by lia.
    pose proof (digits_step_grows ds (n * 10 + Z.of_nat d)%Z ltac:(lia)) as G.
    unfold maxUint64 in *.
    change (2 ^ 64 - 1)%Z with 18446744073709551615%Z in *.
    change ((18446744073709551615 / 10 + 1)%Z) with 1844674407370955162%Z.
    change (2 ^ 64)%Z with 18446744073709551616%Z.
    destruct (n >=? 1844674407370955162)%Z eqn:C.
    + apply Z.geb_le in C. cbv zeta.
      replace (fold_left (fun n0 d0 => n0 * 10 + Z.of_nat d0) ds
                 (n * 10 + Z.of_nat d) <=? 18446744073709551615)%Z
        with false by (symmetry; apply Z.leb_gt; lia).
      reflexivity.
    + rewrite Z.geb_leb in C. apply Z.leb_gt in C. cbv zeta.
      destruct (Z_lt_dec (n * 10 + Z.of_nat d) 18446744073709551616) as [L|L].
      * rewrite Z.mod_small by lia.
        replace ((n * 10 + Z.of_nat d <? n * 10)
                 || (n * 10 + Z.of_nat d >? 18446744073709551615))%Z
          with false
          by (symmetry; apply orb_false_iff; split;
              [apply Z.ltb_ge; lia|rewrite Z.gtb_ltb; apply Z.ltb_ge; lia]).
        rewrite IH by lia. reflexivity.
      * assert (E : ((n * 10 + Z.of_nat d) mod 18446744073709551616
                     = n * 10 + Z.of_nat d - 18446744073709551616)%Z).
        { symmetry. apply Z.mod_unique with (q := 1%Z); lia. }
        rewrite E.
        replace (n * 10 + Z.of_nat d - 18446744073709551616 <? n * 10)%Z
          with true by (symmetry; apply Z.ltb_lt; lia).
        cbn [orb].
        replace (fold_left (fun n0 d0 => n0 * 10 + Z.of_nat d0) ds
                   (n * 10 + Z.of_nat d) <=? 18446744073709551615)%Z
          with false by (symmetry; apply Z.leb_gt; lia).
        reflexivity.
Qed.

Lemma digitsValue_nonneg (ds : list nat) : (0 <= digitsValue ds)%Z.
Proof. apply (digits_step_grows ds 0%Z). lia. Qed.

Lemma ParseInt_numeral (ds : list nat) :
  ds <> [] ->
  Forall (fun d => d < 10) ds ->
  ParseInt (numeral ds)
  = if (digitsValue ds <? 2 ^ 63)%Z then (digitsValue ds, None)
    else ((2 ^ 63 - 1)%Z, Some ErrRange).
Proof.
  intros Hne HF. unfold ParseInt, numeral.
  rewrite list_ascii_of_string_of_list_ascii.
  destruct ds as [|d ds]; [contradiction|]. cbn [map].
  destruct (digitChar_facts d (Forall_inv HF)) as (_ & _ & Em & Ep & _).
  rewrite Em, Ep. cbn [orb negb andb]. unfold ParseUint.
  change (digitChar d :: map digitChar ds) with (map digitChar (d :: ds)).
  rewrite (parseUintLoop_digits (d :: ds) HF 0%Z)
    by (unfold maxUint64; cbn; lia).
  cbv zeta. fold (digitsValue (d :: ds)).
  pose proof (digitsValue_nonneg (d :: ds)) as N.
  unfold maxUint64. change (2 ^ 64 - 1)%Z with 18446744073709551615%Z.
  change (2 ^ 63)%Z with 9223372036854775808%Z.
  destruct (digitsValue (d :: ds) <=? 18446744073709551615)%Z eqn:A.
  - apply Z.leb_le in A.
    destruct (digitsValue (d :: ds) <? 9223372036854775808)%Z eqn:B.
    + apply Z.ltb_lt in B.
      replace (digitsValue (d :: ds) >=? 9223372036854775808)%Z with false
        by (symmetry; rewrite Z.geb_leb; apply Z.leb_gt; lia).
      reflexivity.
    + apply Z.ltb_ge in B.
      replace (digitsValue (d :: ds) >=? 9223372036854775808)%Z with true
        by (symmetry; rewrite Z.geb_leb; apply Z.leb_le; lia).
      reflexivity.
  - apply Z.leb_gt in A.
    replace (digitsValue (d :: ds) <? 9223372036854775808)%Z with false
      by (symmetry; apply Z.ltb_ge; lia).
    reflexivity.
Qed.

Lemma numeral_has_no_dot (ds : list nat) :
  Forall (fun d => d < 10) ds -> ContainsRune (numeral ds) "." = false.
Proof.
  intros HF. unfold ContainsRune, numeral.
  rewrite list_ascii_of_string_of_list_ascii.
  induction HF as [|d ds Hd HF IH]; [reflexivity|]. cbn [map existsb].
  destruct (digitChar_facts d Hd) as (_ & _ & _ & _ & E). now rewrite E, IH.
Qed.

(** X16. A number token whose payload is a decimal numeral is parsed into
    the integer node of its value when the value is below 2^63, and into
    the parse error "value out of range" of [strconv.ParseInt] otherwise;
    leading zeros make no difference. *)
Theorem integer_literal_value_or_range_error (rec : M astNode) (n : nat)
    (p : parser) (t : token) (ds : list nat) :
  nth_error (tokens p) (index p) = Some t ->
  kind t = Kind.numberLiteral ->
  payload t = numeral ds ->
  ds <> [] ->
  Forall (fun d => d < 10) ds ->
  parseAtom rec n p
  = if (digitsValue ds <? 2 ^ 63)%Z
    then Ok (numberNode true (digitsValue ds) PrimFloat.zero) (advance p)
    else Err (parseErrorOf (parseIntErrorText (numeral ds) ErrRange))
           (advance p).
Proof.
  intros Hat K Pl Hne HF. unfold parseAtom, bind.
  rewrite (next_at p t Hat), K, Pl.
  rewrite (numeral_has_no_dot ds HF), (ParseInt_numeral ds Hne HF).
  destruct (digitsValue ds <? 2 ^ 63)%Z; reflexivity.
Qed.

(** ** [readUntilTokenKind] and [back] *)

Lemma remaining_at_end (p : parser) :
  inBounds p -> isEOF p = true -> remaining p = [].
Proof.
  intros _ E. unfold isEOF in E. apply Nat.eqb_eq in E.
  unfold remaining. rewrite E. apply skipn_all.
Qed.

Lemma remaining_before_end (p : parser) :
  inBounds p -> isEOF p = false ->
  exists t rest, remaining p = t :: rest.
Proof.
  intros B E. unfold isEOF in E. apply Nat.eqb_neq in E.
  unfold inBounds in B. unfold remaining.
  destruct (skipn (index p) (tokens p)) as [|t rest] eqn:Sk; [|eauto].
  pose proof (length_skipn (index p) (tokens p)) as L. rewrite Sk in L.
  cbn in L. lia.
Qed.

Lemma readUntilTokenKindLoop_takes (k : tokKind) :
  forall n acc p,
    inBounds p ->
    List.length (tokens p) - index p < n ->
    readUntilTokenKindLoop n k acc p
    = Ok (acc ++ takeUntil k (remaining p))
        (advanceBy (List.length (takeUntil k (remaining p))) p).
Proof.
  induction n as [|n IH]; intros acc p B Hn; [lia|].
  cbn [readUntilTokenKindLoop]. destruct (isEOF p) eqn:E.
  - rewrite (remaining_at_end p B E). cbn. rewrite app_nil_r.
    destruct p. reflexivity.
  - destruct (remaining_before_end p B E) as (t & rest & R). rewrite R.
    destruct (remaining_cons p t rest R) as [Hat R'].
    rewrite (bind_step _ _ _ _ _ (peek_at p t Hat)). cbn [takeUntil].
    destruct (kindIs (kind t) k).
    + cbn. rewrite app_nil_r. destruct p. reflexivity.
    + rewrite (bind_step _ _ _ _ _ (next_at p t Hat)).
      assert (L : index p < List.length (tokens p))
        by (apply nth_error_Some; congruence).
      rewrite IH by (unfold inBounds, advance; cbn; lia).
      rewrite R'. rewrite <- app_assoc. cbn [app List.length].
      unfold advanceBy, advance. cbn [tokens index].
      f_equal. f_equal. lia.
Qed.

(** X17. [readUntilTokenKind] returns the tokens from the cursor up to the
    first one of the given kind, leaves the cursor on that token, or at the
    end when there is none, and neither fails nor panics. *)
Theorem readUntilTokenKind_takes_tokens_before_kind (k : tokKind) (p : parser) :
  inBounds p ->
  readUntilTokenKind k p
  = Ok (takeUntil k (remaining p))
      (advanceBy (List.length (takeUntil k (remaining p))) p).
Proof.
  intros B. unfold readUntilTokenKind.
  exact (readUntilTokenKindLoop_takes k _ [] p B (Nat.lt_succ_diag_r _)).
Qed.

(** X18. [back] undoes [next]; at the first token [back] leaves the cursor
    where it is, and past the first token [next] undoes [back]. *)
Theorem back_and_next (p : parser) :
  (forall t p', next p = Ok t p' -> back p' = Ok tt p)
  /\ (index p = 0 -> back p = Ok tt p)
  /\ (0 < index p -> inBounds p ->
      exists t p', back p = Ok tt p' /\ next p' = Ok t p).
Proof.
  split; [|split].
  - intros t p' H. apply next_Ok in H. destruct H as [_ ->].
    unfold back, advance. cbn. rewrite Nat.sub_0_r. destruct p. reflexivity.
  - intros E. unfold back. rewrite E. reflexivity.
  - intros L B. unfold back.
    replace (0 <? index p) with true by (symmetry; apply Nat.ltb_lt; lia).
    unfold inBounds in B.
    destruct (nth_error (tokens p) (index p - 1)) as [t|] eqn:N.
    + exists t, (mkParser (tokens p) (index p - 1)). split; [reflexivity|].
      rewrite (next_at (mkParser (tokens p) (index p - 1)) t N).
      unfold advance. cbn. replace (S (index p - 1)) with (index p) by lia.
      destruct p. reflexivity.
    + apply nth_error_None in N. lia.
Qed.
(** ** Blocks and object literals in braces *)

Lemma brace_block_framed (fuel fuel' : nat) (pre rest : list token)
    (lb rb t : token) (it : item) (items : list item) :
  Forall (isItem fuel) (it :: items) ->
  Forall (startsNot Kind.rightBrace) (it :: items) ->
  kind lb = Kind.leftBrace ->
  kind rb = Kind.rightBrace ->
  stops (kind t) = true ->
  fuel <= fuel' ->
  List.length items < fuel' ->
  nextNode (S fuel')
    (mkParser (pre ++ lb :: itemsTokens (it :: items) ++ rb :: t :: rest)
       (List.length pre))
  = Ok (blockNode (map itemNode (it :: items)))
      (mkParser (pre ++ lb :: itemsTokens (it :: items) ++ rb :: t :: rest)
         (List.length pre + List.length (itemsTokens (it :: items)) + 2)).
Proof.
  intros HI HS Klb Krb Kt Hf Hn.
  pose proof (Forall_inv HI) as [Hal Kc].
  pose proof (Forall_inv_tail HI) as HI'.
  pose proof (Forall_inv HS) as Hst.
  pose proof (Forall_inv_tail HS) as HS'.
  destruct (parsesBefore_first _ _ _ _ Hal) as (u & s' & Es).
  set (W := pre ++ lb :: itemsTokens (it :: items) ++ rb :: t :: rest).
  set (X := itemsTokens items ++ rb :: t :: rest).
  assert (EW : W = (pre ++ [lb]) ++ itemTokens it ++ itemComma it :: X).
  { unfold W, X. rewrite itemsTokens_cons. reassoc. }
  assert (L1 : List.length (pre ++ [lb]) = S (List.length pre)) by lengths.
  assert (Hu : nth_error W (S (List.length pre)) = Some u).
  { rewrite EW, Es, <- L1. cbn [app]. apply nth_after_prefix. }
  cbn [nextNode]. unfold bind at 1. unfold parseAtom. unfold bind at 1.
  rewrite (next_at (mkParser W (List.length pre)) lb (at_prefix pre _ lb)).
  unfold advance. cbn [tokens index]. rewrite Klb.
  rewrite (bind_step _ _ _ _ _ (peek_at (mkParser W _) u Hu)).
  replace (kindIs (kind u) Kind.rightBrace) with false
    by (symmetry; apply kindIs_false, Hst; rewrite Es; reflexivity).
  pose proof (parsesBefore_framed fuel fuel' _ _ _ (pre ++ [lb]) X Hal Hf) as F.
  rewrite <- EW, L1 in F.
  rewrite (bind_step _ _ _ _ _ F).
  assert (Hc : nth_error W (S (List.length pre) + List.length (itemTokens it))
               = Some (itemComma it)).
  { rewrite EW, app_assoc, <- L1, <- length_app. apply nth_after_prefix. }
  rewrite (isEOF_at (mkParser W _) (itemComma it) Hc).
  rewrite (bind_step _ _ _ _ _ (peek_at (mkParser W _) (itemComma it) Hc)).
  rewrite Kc. change (kindIs Kind.comma Kind.colon) with false. cbv iota.
  rewrite (bind_step _ _ _ _ _ (expect_at (mkParser W _) _ _ Hc Kc)).
  unfold advance. cbn [tokens index].
  pose proof (parseExprsUntil_items fuel fuel' Kind.rightBrace Hf items
                fuel' [itemNode it]
                (pre ++ lb :: itemTokens it ++ [itemComma it])
                rb (t :: rest) HI' HS' Hn Krb) as E.
  replace ((pre ++ lb :: itemTokens it ++ [itemComma it])
           ++ itemsTokens items ++ rb :: t :: rest)
    with W in E by (rewrite EW; unfold X; reassoc).
  replace (List.length (pre ++ lb :: itemTokens it ++ [itemComma it]))
    with (S (S (List.length pre) + List.length (itemTokens it))) in E
    by lengths.
  rewrite (bind_step _ _ _ _ _ E).
  assert (Hrb : nth_error W (S (S (List.length pre) + List.length (itemTokens it))
                             + List.length (itemsTokens items)) = Some rb).
  { rewrite EW. unfold X.
    replace ((pre ++ [lb]) ++ itemTokens it
             ++ itemComma it :: itemsTokens items ++ rb :: t :: rest)
      with ((pre ++ lb :: itemTokens it ++ itemComma it :: itemsTokens items)
            ++ rb :: t :: rest)
      by reassoc.
    replace (S (S (List.length pre) + List.length (itemTokens it))
             + List.length (itemsTokens items))
      with (List.length (pre ++ lb :: itemTokens it
                         ++ itemComma it :: itemsTokens items))
      by lengths.
    apply nth_after_prefix. }
  rewrite (bind_step _ _ _ _ _ (expect_at (mkParser W _) rb _ Hrb Krb)).
  unfold ret, advance. cbn [tokens index].
  assert (Ht : nth_error W
                 (S (S (S (List.length pre) + List.length (itemTokens it))
                     + List.length (itemsTokens items))) = Some t).
  { rewrite EW. unfold X.
    replace ((pre ++ [lb]) ++ itemTokens it
             ++ itemComma it :: itemsTokens items ++ rb :: t :: rest)
      with ((pre ++ lb :: itemTokens it ++ itemComma it :: itemsTokens items
             ++ [rb]) ++ t :: rest)
      by reassoc.
    replace (S (S (S (List.length pre) + List.length (itemTokens it))
                + List.length (itemsTokens items)))
      with (List.length (pre ++ lb :: itemTokens it
                         ++ itemComma it :: itemsTokens items ++ [rb]))
      by lengths.
    apply nth_after_prefix. }
  replace (List.length pre + List.length (itemsTokens (it :: items)) + 2)
    with (S (S (S (List.length pre) + List.length (itemTokens it))
             + List.length (itemsTokens items)))
    by (rewrite itemsTokens_cons; lengths).
  destruct fuel' as [|k]; [lia|].
  apply nextNodeLoop_atStop. right. exists t. auto.
Qed.

(** X19. A left brace, one or more expressions each followed by a comma,
    and a right brace are one expression before a comma, a colon or a right
    delimiter: the block node of the expressions' nodes. *)
Theorem brace_block_is_an_expression (fuel fuel' : nat)
    (lb rb t : token) (it : item) (items : list item) :
  Forall (isItem fuel) (it :: items) ->
  Forall (startsNot Kind.rightBrace) (it :: items) ->
  kind lb = Kind.leftBrace ->
  kind rb = Kind.rightBrace ->
  stops (kind t) = true ->
  fuel <= fuel' ->
  List.length items < fuel' ->
  parsesBefore (S fuel') (lb :: itemsTokens (it :: items) ++ [rb]) t
    (blockNode (map itemNode (it :: items))).
Proof.
  intros HI HS Klb Krb Kt Hf Hn. unfold parsesBefore, newParser.
  pose proof (brace_block_framed fuel fuel' [] [] lb rb t it items
                HI HS Klb Krb Kt Hf Hn) as E.
  cbn [app List.length Nat.add] in E.
  replace ((lb :: itemsTokens (it :: items) ++ [rb]) ++ [t])
    with (lb :: itemsTokens (it :: items) ++ [rb; t]) by reassoc.
  replace (List.length (lb :: itemsTokens (it :: items) ++ [rb]))
    with (List.length (itemsTokens (it :: items)) + 2) by lengths.
  exact E.
Qed.

Lemma entriesTokens_cons (e : entry) (es : list entry) :
  entriesTokens (e :: es)
  = keyTokens e ++ entryColon e :: valTokens e
    ++ entryComma e :: entriesTokens es.
Proof. unfold entriesTokens, entryTokens. cbn [flat_map]. reassoc. Qed.

(** One entry of an object literal, wherever it stands: the key, the colon,
    the value and the comma. *)
Lemma entry_framed (fuel fuel' : nat) (e : entry) (pre X : list token) :
  isEntry fuel e -> fuel <= fuel' ->
  let W := pre ++ keyTokens e ++ entryColon e :: valTokens e
               ++ entryComma e :: X in
  (key <- nextNode fuel' ;; expect Kind.colon ;;;
   val <- nextNode fuel' ;; expect Kind.comma ;;;
   ret (key, val)) (mkParser W (List.length pre))
  = Ok (keyNode e, valNode e)
      (mkParser W (List.length (pre ++ keyTokens e ++ entryColon e
                                :: valTokens e ++ [entryComma e]))).
Proof.
  intros (Hk & Kcol & Hv & Kcom) Hf W.
  pose proof (parsesBefore_framed fuel fuel' _ _ _ pre
                (valTokens e ++ entryComma e :: X) Hk Hf) as F1.
  fold W in F1. rewrite (bind_step _ _ _ _ _ F1).
  assert (Hcol : nth_error W (List.length pre + List.length (keyTokens e))
                 = Some (entryColon e)).
  { unfold W. rewrite app_assoc, <- length_app. apply nth_after_prefix. }
  rewrite (bind_step _ _ _ _ _ (expect_at (mkParser W _) _ _ Hcol Kcol)).
  unfold advance. cbn [tokens index].
  pose proof (parsesBefore_framed fuel fuel' _ _ _ (pre ++ keyTokens e ++ [entryColon e])
                X Hv Hf) as F2.
  replace ((pre ++ keyTokens e ++ [entryColon e]) ++ valTokens e
           ++ entryComma e :: X) with W in F2 by (unfold W; reassoc).
  replace (List.length (pre ++ keyTokens e ++ [entryColon e]))
    with (S (List.length pre + List.length (keyTokens e))) in F2 by lengths.
  rewrite (bind_step _ _ _ _ _ F2).
  assert (Hcom : nth_error W
                   (S (List.length pre + List.length (keyTokens e))
                    + List.length (valTokens e)) = Some (entryComma e)).
  { replace W with ((pre ++ keyTokens e ++ entryColon e :: valTokens e)
                    ++ entryComma e :: X) by (unfold W; reassoc).
    replace (S (List.length pre + List.length (keyTokens e))
             + List.length (valTokens e))
      with (List.length (pre ++ keyTokens e ++ entryColon e :: valTokens e))
      by lengths.
    apply nth_after_prefix. }
  rewrite (bind_step _ _ _ _ _ (expect_at (mkParser W _) _ _ Hcom Kcom)).
  unfold ret, advance. cbn [tokens index]. f_equal. f_equal. lengths.
Qed.

Lemma parseEntriesUntil_entries (fuel fuel' : nat) :
  fuel <= fuel' ->
  forall es n acc pre rb rest,
    Forall (isEntry fuel) es ->
    Forall keyStartsNotBrace es ->
    List.length es < n ->
    kind rb = Kind.rightBrace ->
    parseEntriesUntil (nextNode fuel') n acc
      (mkParser (pre ++ entriesTokens es ++ rb :: rest) (List.length pre))
    = Ok (acc ++ map entryNode es)
        (mkParser (pre ++ entriesTokens es ++ rb :: rest)
           (List.length pre + List.length (entriesTokens es))).
Proof.
  intros Hf. induction es as [|e es IH];
    intros n acc pre rb rest HE HS Hn Krb.
  - destruct n as [|n]; [cbn in Hn; lia|].
    cbn [entriesTokens flat_map app map List.length]. cbn [parseEntriesUntil].
    rewrite (isEOF_at _ rb (at_prefix pre rest rb)).
    rewrite (bind_step _ _ _ _ _ (peek_at _ rb (at_prefix pre rest rb))).
    rewrite Krb, kindIs_refl. rewrite app_nil_r, Nat.add_0_r. reflexivity.
  - destruct n as [|n]; [cbn in Hn; lia|].
    pose proof (Forall_inv HE) as He.
    pose proof (Forall_inv_tail HE) as HE'.
    pose proof (Forall_inv HS) as Hst.
    pose proof (Forall_inv_tail HS) as HS'.
    destruct (parsesBefore_first _ _ _ _ (proj1 He)) as (t & s' & Es).
    rewrite entriesTokens_cons.
    set (X := entriesTokens es ++ rb :: rest).
    set (W := pre ++ keyTokens e ++ entryColon e :: valTokens e
                  ++ entryComma e :: X).
    replace (pre ++ (keyTokens e ++ entryColon e :: valTokens e
                     ++ entryComma e :: entriesTokens es) ++ rb :: rest)
      with W by (unfold W, X; reassoc).
    assert (Ht : nth_error W (List.length pre) = Some t).
    { unfold W. rewrite Es. cbn. apply nth_after_prefix. }
    cbn [parseEntriesUntil].
    rewrite (isEOF_at (mkParser W (List.length pre)) t Ht).
    rewrite (bind_step _ _ _ _ _ (peek_at (mkParser W (List.length pre)) t Ht)).
    replace (kindIs (kind t) Kind.rightBrace) with false
      by (symmetry; apply kindIs_false, Hst; rewrite Es; reflexivity).
    pose proof (entry_framed fuel fuel' e pre X He Hf) as F.
    cbv zeta in F. fold W in F.
    apply bind_Ok in F. destruct F as (k1 & q1 & F1 & F).
    rewrite (bind_step _ _ _ _ _ F1).
    apply bind_Ok in F. destruct F as (c1 & q2 & F2 & F).
    rewrite (bind_step _ _ _ _ _ F2).
    apply bind_Ok in F. destruct F as (v1 & q3 & F3 & F).
    rewrite (bind_step _ _ _ _ _ F3).
    apply bind_Ok in F. destruct F as (c2 & q4 & F4 & F).
    rewrite (bind_step _ _ _ _ _ F4).
    unfold ret in F. injection F as -> -> ->.
    specialize (IH n (acc ++ [mkObjectEntryNode (keyNode e) (valNode e)])
                  (pre ++ keyTokens e ++ entryColon e :: valTokens e
                   ++ [entryComma e]) rb rest HE' HS'
                  ltac:(cbn in Hn; lia) Krb).
    replace ((pre ++ keyTokens e ++ entryColon e :: valTokens e
              ++ [entryComma e]) ++ entriesTokens es ++ rb :: rest)
      with W in IH by (unfold W, X; reassoc).
    rewrite IH. cbn [map]. unfold entryNode at 2.
    rewrite <- app_assoc. cbn [app]. f_equal. f_equal. lengths.
Qed.

Lemma object_literal_framed (fuel fuel' : nat) (pre rest : list token)
    (lb rb t : token) (e : entry) (es : list entry) :
  Forall (isEntry fuel) (e :: es) ->
  Forall keyStartsNotBrace (e :: es) ->
  kind lb = Kind.leftBrace ->
  kind rb = Kind.rightBrace ->
  stops (kind t) = true ->
  fuel <= fuel' ->
  List.length es < fuel' ->
  nextNode (S fuel')
    (mkParser (pre ++ lb :: entriesTokens (e :: es) ++ rb :: t :: rest)
       (List.length pre))
  = Ok (objectNode (map entryNode (e :: es)))
      (mkParser (pre ++ lb :: entriesTokens (e :: es) ++ rb :: t :: rest)
         (List.length pre + List.length (entriesTokens (e :: es)) + 2)).
Proof.
  intros HE HS Klb Krb Kt Hf Hn.
  pose proof (Forall_inv HE) as He.
  pose proof (Forall_inv_tail HE) as HE'.
  pose proof (Forall_inv HS) as Hst.
  pose proof (Forall_inv_tail HS) as HS'.
  destruct (parsesBefore_first _ _ _ _ (proj1 He)) as (t0 & s' & Es).
  destruct He as (Hk & Kcol & Hv & Kcom).
  set (X := entriesTokens es ++ rb :: t :: rest).
  set (W := pre ++ lb :: entriesTokens (e :: es) ++ rb :: t :: rest).
  assert (EW : W = (pre ++ [lb]) ++ keyTokens e ++ entryColon e
                   :: valTokens e ++ entryComma e :: X).
  { unfold W, X. rewrite entriesTokens_cons. reassoc. }
  assert (L1 : List.length (pre ++ [lb]) = S (List.length pre)) by lengths.
  assert (Ht0 : nth_error W (S (List.length pre)) = Some t0).
  { rewrite EW, Es, <- L1. cbn [app]. apply nth_after_prefix. }
  cbn [nextNode]. unfold bind at 1. unfold parseAtom. unfold bind at 1.
  rewrite (next_at (mkParser W (List.length pre)) lb (at_prefix pre _ lb)).
  unfold advance. cbn [tokens index]. rewrite Klb.
  rewrite (bind_step _ _ _ _ _ (peek_at (mkParser W _) t0 Ht0)).
  replace (kindIs (kind t0) Kind.rightBrace) with false
    by (symmetry; apply kindIs_false, Hst; rewrite Es; reflexivity).
  pose proof (parsesBefore_framed fuel fuel' _ _ _ (pre ++ [lb])
                (valTokens e ++ entryComma e :: X) Hk Hf) as F1.
  rewrite <- EW, L1 in F1. rewrite (bind_step _ _ _ _ _ F1).
  assert (Hcol : nth_error W (S (List.length pre) + List.length (keyTokens e))
                 = Some (entryColon e)).
  { rewrite EW, app_assoc, <- L1, <- length_app. apply nth_after_prefix. }
  rewrite (isEOF_at (mkParser W _) _ Hcol).
  rewrite (bind_step _ _ _ _ _ (peek_at (mkParser W _) _ Hcol)).
  rewrite Kcol, kindIs_refl.
  rewrite (bind_step _ _ _ _ _ (next_at (mkParser W _) _ Hcol)).
  unfold advance. cbn [tokens index].
  pose proof (parsesBefore_framed fuel fuel' _ _ _ (pre ++ lb :: keyTokens e ++ [entryColon e])
                X Hv Hf) as F2.
  replace ((pre ++ lb :: keyTokens e ++ [entryColon e]) ++ valTokens e
           ++ entryComma e :: X) with W in F2 by (rewrite EW; reassoc).
  replace (List.length (pre ++ lb :: keyTokens e ++ [entryColon e]))
    with (S (S (List.length pre) + List.length (keyTokens e))) in F2
    by lengths.
  rewrite (bind_step _ _ _ _ _ F2).
  assert (Hcom : nth_error W
                   (S (S (List.length pre) + List.length (keyTokens e))
                    + List.length (valTokens e)) = Some (entryComma e)).
  { replace W with ((pre ++ lb :: keyTokens e ++ entryColon e :: valTokens e)
                    ++ entryComma e :: X) by (rewrite EW; reassoc).
    replace (S (S (List.length pre) + List.length (keyTokens e))
             + List.length (valTokens e))
      with (List.length (pre ++ lb :: keyTokens e ++ entryColon e
                         :: valTokens e)) by lengths.
    apply nth_after_prefix. }
  rewrite (bind_step _ _ _ _ _ (expect_at (mkParser W _) _ _ Hcom Kcom)).
  unfold advance. cbn [tokens index].
  pose proof (parseEntriesUntil_entries fuel fuel' Hf es fuel'
                [mkObjectEntryNode (keyNode e) (valNode e)]
                (pre ++ lb :: keyTokens e ++ entryColon e :: valTokens e
                 ++ [entryComma e]) rb (t :: rest) HE' HS' Hn Krb) as E.
  replace ((pre ++ lb :: keyTokens e ++ entryColon e :: valTokens e
            ++ [entryComma e]) ++ entriesTokens es ++ rb :: t :: rest)
    with W in E by (rewrite EW; unfold X; reassoc).
  replace (List.length (pre ++ lb :: keyTokens e ++ entryColon e
                        :: valTokens e ++ [entryComma e]))
    with (S (S (S (List.length pre) + List.length (keyTokens e))
             + List.length (valTokens e))) in E by lengths.
  rewrite (bind_step _ _ _ _ _ E).
  set (P := S (S (S (List.length pre) + List.length (keyTokens e))
              + List.length (valTokens e)) + List.length (entriesTokens es)).
  assert (LP : P = List.length (pre ++ lb :: entriesTokens (e :: es)))
    by (unfold P; rewrite entriesTokens_cons; lengths).
  assert (Hrb : nth_error W P = Some rb).
  { rewrite LP. unfold W.
    replace (pre ++ lb :: entriesTokens (e :: es) ++ rb :: t :: rest)
      with ((pre ++ lb :: entriesTokens (e :: es)) ++ rb :: t :: rest)
      by reassoc.
    apply nth_after_prefix. }
  rewrite (bind_step _ _ _ _ _ (expect_at (mkParser W P) rb _ Hrb Krb)).
  unfold advance. cbn [tokens index].
  assert (Ht : nth_error W (S P) = Some t).
  { rewrite LP. unfold W.
    replace (pre ++ lb :: entriesTokens (e :: es) ++ rb :: t :: rest)
      with ((pre ++ lb :: entriesTokens (e :: es) ++ [rb]) ++ t :: rest)
      by reassoc.
    replace (S (List.length (pre ++ lb :: entriesTokens (e :: es))))
      with (List.length (pre ++ lb :: entriesTokens (e :: es) ++ [rb]))
      by lengths.
    apply nth_after_prefix. }
  unfold parseMaybeAssignment.
  rewrite (bind_step _ _ _ _ _ (peek_at (mkParser W _) t Ht)).
  replace (negb (kindIs (kind t) Kind.assign)
           && negb (kindIs (kind t) Kind.nonlocalAssign)) with true
    by (destruct (kind t); try discriminate Kt; reflexivity).
  unfold ret.
  replace (List.length pre + List.length (entriesTokens (e :: es)) + 2)
    with (S P) by (rewrite LP; lengths).
  destruct fuel' as [|f]; [lia|].
  apply nextNodeLoop_atStop. right. exists t. auto.
Qed.

(** X20. An object literal -- a left brace, one or more entries made of a
    key expression, a colon, a value expression and a comma, a right brace
    -- is one expression before a comma, a colon or a right delimiter: the
    object node of the entries, keys and values in their order. *)
Theorem object_literal_entries (fuel fuel' : nat) (lb rb t : token)
    (e : entry) (es : list entry) :
  Forall (isEntry fuel) (e :: es) ->
  Forall keyStartsNotBrace (e :: es) ->
  kind lb = Kind.leftBrace ->
  kind rb = Kind.rightBrace ->
  stops (kind t) = true ->
  fuel <= fuel' ->
  List.length es < fuel' ->
  parsesBefore (S fuel') (lb :: entriesTokens (e :: es) ++ [rb]) t
    (objectNode (map entryNode (e :: es))).
Proof.
  intros HE HS Klb Krb Kt Hf Hn. unfold parsesBefore, newParser.
  pose proof (object_literal_framed fuel fuel' [] [] lb rb t e es
                HE HS Klb Krb Kt Hf Hn) as E.
  cbn [app List.length Nat.add] in E.
  replace ((lb :: entriesTokens (e :: es) ++ [rb]) ++ [t])
    with (lb :: entriesTokens (e :: es) ++ [rb; t]) by reassoc.
  replace (List.length (lb :: entriesTokens (e :: es) ++ [rb]))
    with (List.length (entriesTokens (e :: es)) + 2) by lengths.
  exact E.
Qed.

(** ** Function definitions *)

Lemma parseFnArgs_plain (pairs : list (token * token)) :
  forall n args pre rp rest,
    Forall isArgPair pairs ->
    kind rp = Kind.rightParen ->
    List.length pairs < n ->
    parseFnArgs n args
      (mkParser (pre ++ argTokens pairs ++ rp :: rest) (List.length pre))
    = Ok (args ++ map (fun ac => payload (fst ac)) pairs, "")
        (mkParser (pre ++ argTokens pairs ++ rp :: rest)
           (List.length pre + List.length (argTokens pairs))).
Proof.
  induction pairs as [|[a c] pairs IH]; intros n args pre rp rest HF Krp Hn.
  - destruct n as [|n]; [cbn in Hn; lia|].
    cbn [argTokens flat_map app map List.length]. cbn [parseFnArgs].
    rewrite (isEOF_at _ rp (at_prefix pre rest rp)).
    rewrite (bind_step _ _ _ _ _ (peek_at _ rp (at_prefix pre rest rp))).
    rewrite Krp, kindIs_refl. rewrite app_nil_r, Nat.add_0_r. reflexivity.
  - destruct n as [|n]; [cbn in Hn; lia|].
    pose proof (Forall_inv HF) as [Ka Kc]. cbn [fst snd] in Ka, Kc.
    pose proof (Forall_inv_tail HF) as HF'.
    cbn [argTokens flat_map fst snd app]. fold (argTokens pairs).
    set (X := argTokens pairs ++ rp :: rest).
    set (W := pre ++ a :: c :: X).
    assert (Hc : nth_error W (S (List.length pre)) = Some c).
    { unfold W. replace (pre ++ a :: c :: X) with ((pre ++ [a]) ++ c :: X)
        by reassoc.
      replace (S (List.length pre)) with (List.length (pre ++ [a])) by lengths.
      apply nth_after_prefix. }
    cbn [parseFnArgs].
    rewrite (isEOF_at (mkParser W (List.length pre)) a (at_prefix pre _ a)).
    rewrite (bind_step _ _ _ _ _
               (peek_at (mkParser W (List.length pre)) a (at_prefix pre _ a))).
    rewrite Ka. change (kindIs Kind.identifier Kind.rightParen) with false.
    cbv iota.
    rewrite (bind_step _ _ _ _ _
               (expect_at (mkParser W (List.length pre)) a _
                  (at_prefix pre _ a) Ka)).
    unfold advance. cbn [tokens index].
    rewrite (bind_step _ _ _ _ _ (peek_at (mkParser W _) c Hc)).
    rewrite Kc. change (kindIs Kind.comma Kind.ellipsis) with false. cbv iota.
    rewrite (bind_step _ _ _ _ _ (expect_at (mkParser W _) c _ Hc Kc)).
    unfold advance. cbn [tokens index].
    specialize (IH n (args ++ [payload a]) (pre ++ [a; c]) rp rest HF' Krp
                  ltac:(cbn in Hn; lia)).
    replace ((pre ++ [a; c]) ++ argTokens pairs ++ rp :: rest) with W in IH
      by (unfold W, X; reassoc).
    replace (List.length (pre ++ [a; c])) with (S (S (List.length pre))) in IH
      by lengths.
    rewrite IH. cbn [map fst List.length]. rewrite <- app_assoc. cbn [app].
    f_equal. f_equal. lia.
Qed.

(** The body of a [fn] that is an expression other than [{}]. *)
Lemma parseFnBody_expression (fuel fuel' : nat) (pre body rest : list token)
    (c : token) (n : astNode) :
  parsesBefore fuel body c n ->
  emptyBraces (body ++ [c]) = false ->
  fuel <= fuel' ->
  parseFnBody (nextNode fuel')
    (mkParser (pre ++ body ++ c :: rest) (List.length pre))
  = Ok n (mkParser (pre ++ body ++ c :: rest)
            (List.length pre + List.length body)).
Proof.
  intros Hal Hne Hf.
  pose proof (parsesBefore_framed fuel fuel' body c n pre rest Hal Hf) as F.
  unfold parseFnBody.
  destruct body as [|t1 body']; [destruct (parsesBefore_first _ _ _ _ Hal)
                                   as (? & ? & ?); discriminate|].
  cbn [app].
  rewrite (bind_step _ _ _ _ _
             (peek_at (mkParser _ (List.length pre)) t1 (at_prefix pre _ t1))).
  destruct (kindIs (kind t1) Kind.leftBrace) eqn:K1; [|exact F].
  assert (E2 : exists t2 r, body' ++ c :: rest = t2 :: r
                            /\ kindIs (kind t2) Kind.rightBrace = false).
  { cbn [app emptyBraces] in Hne. destruct body' as [|t2 r'].
    - exists c, rest. split; [reflexivity|].
      cbn [app] in Hne. rewrite K1 in Hne. exact Hne.
    - exists t2, (r' ++ c :: rest). split; [reflexivity|].
      cbn [app] in Hne. rewrite K1 in Hne. exact Hne. }
  destruct E2 as (t2 & r & E2 & K2).
  assert (Pa : peekAhead 1
                 (mkParser (pre ++ t1 :: body' ++ c :: rest) (List.length pre))
               = Ok t2 (mkParser (pre ++ t1 :: body' ++ c :: rest)
                          (List.length pre))).
  { unfold peekAhead. cbn [tokens index]. rewrite E2.
    replace (List.length (pre ++ t1 :: t2 :: r)
             <? List.length pre + 1) with false
      by (symmetry; apply Nat.ltb_ge; lengths).
    unfold tokenAt. cbn [tokens].
    replace (pre ++ t1 :: t2 :: r)
      with ((pre ++ [t1]) ++ t2 :: r) by reassoc.
    replace (List.length pre + 1) with (List.length (pre ++ [t1])) by lengths.
    rewrite nth_after_prefix. reflexivity. }
  rewrite (bind_step _ _ _ _ _ Pa). rewrite K2. exact F.
Qed.

Lemma fn_definition_framed (fuel fuel' : nat)
    (pre body rest : list token) (f lp rp c : token) (name : option token)
    (pairs : list (token * token)) (n : astNode) :
  kind f = Kind.fnKeyword ->
  (forall id, name = Some id -> kind id = Kind.identifier) ->
  kind lp = Kind.leftParen ->
  Forall isArgPair pairs ->
  kind rp = Kind.rightParen ->
  parsesBefore fuel body c n ->
  emptyBraces (body ++ [c]) = false ->
  fuel <= fuel' ->
  List.length pairs < fuel' ->
  nextNode (S fuel')
    (mkParser
       (pre ++ f :: nameTokens name ++ lp :: argTokens pairs ++ rp :: body ++ c :: rest)
       (List.length pre))
  = Ok (fnNode (fnName name) (map (fun ac => payload (fst ac)) pairs) "" n)
      (mkParser
         (pre ++ f :: nameTokens name ++ lp :: argTokens pairs
              ++ rp :: body ++ c :: rest)
         (List.length
            (pre ++ f :: nameTokens name ++ lp :: argTokens pairs
                 ++ rp :: body))).
Proof.
  intros Kf Kname Klp HF Krp Hal Hne Hf Hn.
  set (ext := c :: rest).
  set (W := pre ++ f :: nameTokens name ++ lp :: argTokens pairs
                ++ rp :: body ++ ext).
  set (H1 := pre ++ f :: nameTokens name).
  assert (EW1 : W = H1 ++ lp :: argTokens pairs ++ rp :: body ++ ext)
    by (unfold W, H1; reassoc).
  assert (Hlp : nth_error W (List.length H1) = Some lp)
    by (rewrite EW1; apply nth_after_prefix).
  cbn [nextNode]. unfold bind at 1. unfold parseAtom. unfold bind at 1.
  rewrite (next_at (mkParser W (List.length pre)) f (at_prefix pre _ f)).
  unfold advance. cbn [tokens index]. rewrite Kf.
  (* the optional name *)
  assert (Hdr : forall k : string -> M astNode,
             (t <- peek ;;
              name' <- (if kindIs (kind t) Kind.identifier
                        then id <- next ;; ret (payload id)
                        else ret "") ;;
              k name') (mkParser W (S (List.length pre)))
             = k (fnName name) (mkParser W (List.length H1))).
  { intros k. destruct name as [id|]; cbn [nameTokens fnName] in *.
    - assert (Hid : nth_error W (S (List.length pre)) = Some id).
      { unfold W. replace (pre ++ f :: [id] ++ lp :: argTokens pairs
                           ++ rp :: body ++ ext)
          with ((pre ++ [f]) ++ id :: lp :: argTokens pairs
                ++ rp :: body ++ ext) by reassoc.
        replace (S (List.length pre)) with (List.length (pre ++ [f]))
          by lengths.
        apply nth_after_prefix. }
      rewrite (bind_step _ _ _ _ _ (peek_at (mkParser W _) id Hid)).
      rewrite (Kname id eq_refl), kindIs_refl. unfold bind.
      rewrite (next_at (mkParser W _) id Hid). unfold ret, advance.
      cbn [tokens index].
      replace (List.length H1) with (S (S (List.length pre)))
        by (unfold H1; lengths).
      reflexivity.
    - replace (List.length H1) with (S (List.length pre)) in *
        by (unfold H1; lengths).
      rewrite (bind_step _ _ _ _ _ (peek_at (mkParser W _) lp Hlp)).
      rewrite Klp. reflexivity. }
  rewrite Hdr.
  rewrite (bind_step _ _ _ _ _ (peek_at (mkParser W _) lp Hlp)).
  rewrite Klp, kindIs_refl.
  unfold bind at 1. unfold bind at 1.
  rewrite (next_at (mkParser W _) lp Hlp). unfold advance. cbn [tokens index].
  pose proof (parseFnArgs_plain pairs fuel' [] (H1 ++ [lp]) rp (body ++ ext)
                HF Krp Hn) as A.
  replace ((H1 ++ [lp]) ++ argTokens pairs ++ rp :: body ++ ext) with W in A
    by (rewrite EW1; reassoc).
  replace (List.length (H1 ++ [lp])) with (S (List.length H1)) in A by lengths.
  rewrite (bind_step _ _ _ _ _ A).
  set (H2 := H1 ++ lp :: argTokens pairs).
  assert (L2 : S (List.length H1) + List.length (argTokens pairs)
               = List.length H2) by (unfold H2; lengths).
  rewrite L2.
  assert (EW2 : W = H2 ++ rp :: body ++ ext)
    by (rewrite EW1; unfold H2; reassoc).
  assert (Hrp : nth_error W (List.length H2) = Some rp)
    by (rewrite EW2; apply nth_after_prefix).
  rewrite (bind_step _ _ _ _ _ (expect_at (mkParser W _) rp _ Hrp Krp)).
  unfold ret at 1, advance. cbn [tokens index fst snd].
  pose proof (parseFnBody_expression fuel fuel' (H2 ++ [rp]) body rest
                c n Hal Hne Hf) as B.
  fold ext in B.
  replace ((H2 ++ [rp]) ++ body ++ ext) with W in B by (rewrite EW2; reassoc).
  replace (List.length (H2 ++ [rp])) with (S (List.length H2)) in B by lengths.
  unfold bind at 1. rewrite B. unfold ret.
  replace (List.length (pre ++ f :: nameTokens name ++ lp :: argTokens pairs
                        ++ rp :: body))
    with (S (List.length H2) + List.length body)
    by (unfold H2, H1; lengths).
  destruct fuel' as [|k]; [lia|].
  apply nextNodeLoop_atStop.
  pose proof (parsesBefore_atStop body rest (H2 ++ rp :: body) c fuel n Hal)
    as St.
  fold ext in St.
  replace ((H2 ++ rp :: body) ++ ext) with W in St by (rewrite EW2; reassoc).
  replace (List.length (H2 ++ rp :: body))
    with (S (List.length H2) + List.length body) in St by lengths.
  exact St.
Qed.

(** X21. A function definition -- [fn], an optional name, a parenthesized
    list of argument names each followed by a comma, and a body that is an
    expression other than [{}] -- is one expression: the function node of
    the name, the argument names in their order, no rest argument, and the
    node of the body. *)
Theorem fn_definition_with_arguments (fuel fuel' : nat) (body : list token)
    (f lp rp c : token) (name : option token)
    (pairs : list (token * token)) (n : astNode) :
  kind f = Kind.fnKeyword ->
  (forall id, name = Some id -> kind id = Kind.identifier) ->
  kind lp = Kind.leftParen ->
  Forall isArgPair pairs ->
  kind rp = Kind.rightParen ->
  parsesBefore fuel body c n ->
  emptyBraces (body ++ [c]) = false ->
  fuel <= fuel' ->
  List.length pairs < fuel' ->
  parsesBefore (S fuel')
    (f :: nameTokens name ++ lp :: argTokens pairs ++ rp :: body) c
    (fnNode (fnName name) (map (fun ac => payload (fst ac)) pairs) "" n).
Proof.
  intros Kf Kname Klp HF Krp Hal Hne Hf Hn. unfold parsesBefore, newParser.
  pose proof (fn_definition_framed fuel fuel' [] body [] f lp rp c name pairs
                n Kf Kname Klp HF Krp Hal Hne Hf Hn) as E.
  cbn [app List.length Nat.add] in E.
  replace ((f :: nameTokens name ++ lp :: argTokens pairs ++ rp :: body)
           ++ [c])
    with (f :: nameTokens name ++ lp :: argTokens pairs ++ rp :: body ++ [c])
    by reassoc.
  exact E.
Qed.

(** ** The tokens without the one an expression stops on

    A run that ends on the last token of the tokens, without that token,
    comes to the same result or indexes the tokens at their end. *)

Section Cut.

Variable s : list token.
Variable c : token.

Lemma short_at (p : parser) (t : token) :
  tokens p = s ++ [c] -> index p < List.length s ->
  nth_error (tokens p) (index p) = Some t ->
  nth_error (tokens (short s p)) (index (short s p)) = Some t.
Proof.
  intros T L H. cbn [short tokens index]. rewrite T in H.
  now rewrite nth_error_app1 in H.
Qed.

Lemma cuts_bind {A B : Type} (m : M A) (k : A -> M B) :
  keepsCursor m -> (forall a, keepsCursor (k a)) ->
  cuts s c m -> (forall a, cuts s c (k a)) ->
  cuts s c (bind m k).
Proof.
  intros Cm Ck Hm Hk p b p' Hp T H Hj.
  apply bind_Ok in H. destruct H as (a & p1 & H1 & H2).
  pose proof (Cm p Hp) as M1. rewrite H1 in M1. cbn in M1.
  pose proof (Ck a p1 (movesOn_inBounds _ _ M1)) as M2. rewrite H2 in M2.
  cbn in M2. destruct M1 as (T1 & _ & B1). destruct M2 as (_ & L2 & _).
  destruct (Hm p a p1 Hp T H1 ltac:(lia)) as [E|E].
  - rewrite (bind_step _ _ _ _ _ E).
    exact (Hk a p1 b p' B1 ltac:(congruence) H2 Hj).
  - right. unfold bind. now rewrite E.
Qed.

Lemma cut_bind {A B : Type} (m : M A) (k : A -> M B) :
  cut s c m -> (forall a, cut s c (k a)) -> cut s c (bind m k).
Proof.
  intros [Cm Hm] Hk. split.
  - apply keepsCursor_bind; [exact Cm|]. intros a. apply Hk.
  - apply cuts_bind; [exact Cm| | exact Hm|]; intros a; apply Hk.
Qed.

Lemma cut_ret {A : Type} (a : A) : cut s c (ret a).
Proof.
  split; [apply keepsCursor_ret|].
  intros p a' p' _ _ H _. unfold ret in *. injection H as <- <-. now left.
Qed.

Lemma cut_fail {A : Type} (r : string) : cut s c (@fail A (parseErrorOf r)).
Proof.
  split; [apply keepsCursor_fail|]. intros p a p' _ _ H. discriminate H.
Qed.

Lemma cut_stuck {A : Type} : cut s c (fun _ => @OutOfFuel A).
Proof.
  split; [intros p Hp; exact I|]. intros p a p' _ _ H. discriminate H.
Qed.

Lemma cut_peek : cut s c peek.
Proof.
  split; [apply keepsCursor_peek|].
  intros p t p' _ T H Hj. apply peek_Ok in H. destruct H as [H ->].
  destruct (Nat.eq_dec (index p) (List.length s)) as [E|E].
  - right. unfold peek, tokenAt, short, pastEnd. cbn [tokens index].
    rewrite E.
    replace (nth_error s (List.length s)) with (@None token)
      by (symmetry; apply nth_error_None; lia).
    reflexivity.
  - left. exact (peek_at (short s p) t (short_at p t T ltac:(lia) H)).
Qed.

Lemma cut_next : cut s c next.
Proof.
  split; [apply consumes_keepsCursor, consumes_next|].
  intros p t p' _ T H Hj. apply next_Ok in H. destruct H as [H ->].
  cbn [advance index] in Hj. left.
  exact (next_at (short s p) t (short_at p t T ltac:(lia) H)).
Qed.

Lemma cut_expect (k : tokKind) : cut s c (expect k).
Proof.
  split; [apply consumes_keepsCursor, consumes_expect|].
  intros p t p' _ T H Hj. apply expect_Ok in H.
  destruct H as (H & K & ->). cbn [advance index] in Hj. left.
  exact (expect_at (short s p) t k (short_at p t T ltac:(lia) H) K).
Qed.

Lemma cut_peekAhead (n : nat) : cut s c (peekAhead n).
Proof.
  split; [apply keepsCursor_peekAhead|].
  intros p t p' _ T H Hj. unfold peekAhead in *.
  cbn [short tokens index]. rewrite T, length_app in H. cbn [List.length] in H.
  destruct (List.length s + 1 <? index p + n) eqn:G.
  - injection H as <- <-. apply Nat.ltb_lt in G.
    replace (List.length s <? index p + n) with true
      by (symmetry; apply Nat.ltb_lt; lia).
    now left.
  - apply Nat.ltb_ge in G. unfold tokenAt, short in *. rewrite T in H.
    cbn [tokens index] in *.
    destruct (nth_error (s ++ [c]) (index p + n)) as [t0|] eqn:N;
      [|discriminate].
    injection H as -> ->.
    assert (L : index p' + n < List.length (s ++ [c]))
      by (apply nth_error_Some; congruence).
    rewrite length_app in L. cbn [List.length] in L.
    replace (List.length s <? index p' + n) with false
      by (symmetry; apply Nat.ltb_ge; lia).
    destruct (Nat.eq_dec (index p' + n) (List.length s)) as [E|E].
    + right. rewrite E.
      replace (nth_error s (List.length s)) with (@None token)
        by (symmetry; apply nth_error_None; lia).
      reflexivity.
    + left. rewrite nth_error_app1 in N by lia. now rewrite N.
Qed.

(** A loop that returns [a0] at the end of the tokens: on the last token
    its body returns nothing else without moving on. *)
Lemma cut_unlessEOF {A : Type} (a0 : A) (m : M A) :
  cut s c m ->
  (forall p a p',
      inBounds p -> m p = Ok a p' -> index p' <= index p -> a = a0) ->
  cut s c (fun p => if isEOF p then Ok a0 p else m p).
Proof.
  intros [Cm Hm] Hend. split.
  - intros p Hp. destruct (isEOF p); [cbn; now apply movesOn_refl|].
    exact (Cm p Hp).
  - intros p a p' Hp T H Hj. cbv beta in *.
    destruct (isEOF p) eqn:E.
    + injection H as <- <-. unfold isEOF in E. apply Nat.eqb_eq in E.
      rewrite T, length_app in E. cbn in E. lia.
    + pose proof (Cm p Hp) as M. rewrite H in M. cbn in M.
      destruct M as (T' & L & _).
      unfold isEOF, short. cbn [tokens index].
      destruct (index p =? List.length s) eqn:E'.
      * apply Nat.eqb_eq in E'. left.
        rewrite (Hend p a p' Hp H ltac:(lia)).
        f_equal. f_equal. lia.
      * apply Nat.eqb_neq in E'. exact (Hm p a p' Hp T H Hj).
Qed.

(** The test that ends a brace form with an error: what follows it takes a
    token. *)
Lemma cut_errorAtEOF {A : Type} (r : string) (m : M A) :
  cut s c m -> consumes m ->
  cut s c (fun p => if isEOF p then Err (parseErrorOf r) p else m p).
Proof.
  intros [Cm Hm] HC. split.
  - intros p Hp. destruct (isEOF p);
      [cbn; split; [now apply movesOn_refl|reflexivity]|].
    exact (Cm p Hp).
  - intros p a p' Hp T H Hj. cbv beta in *.
    destruct (isEOF p) eqn:E; [discriminate H|].
    pose proof (HC p Hp) as M. rewrite H in M. cbn in M.
    destruct M as (_ & L).
    unfold isEOF, short. cbn [tokens index].
    replace (index p =? List.length s) with false
      by (symmetry; apply Nat.eqb_neq; lia).
    exact (Hm p a p' Hp T H Hj).
Qed.

Lemma consumes_later {A B : Type} (m : M A) (k : A -> M B) :
  keepsCursor m -> (forall a, consumes (k a)) -> consumes (bind m k).
Proof.
  intros Hm Hk p Hp. unfold bind. specialize (Hm p Hp).
  destruct (m p) as [a p1|e p1| |]; cbn in *; auto.
  specialize (Hk a p1 (movesOn_inBounds _ _ Hm)).
  destruct (k a p1) as [b p2|e p2| |]; cbn in *; auto.
  - destruct Hk as [Hk L]. split; [eapply movesOn_trans; eauto|].
    destruct Hm as (_ & ? & _). lia.
  - destruct Hk. split; [eapply movesOn_trans; eauto|assumption].
Qed.

Ltac cut_step :=
  first
    [ assumption
    | apply cut_ret
    | apply cut_fail
    | apply cut_peek
    | apply cut_peekAhead
    | apply cut_next
    | apply cut_expect
    | apply cut_bind; [|intros ?]
    | match goal with
      | |- cut _ _ (if ?b then _ else _) => destruct b
      | |- cut _ _ (match ?x with inl _ => _ | inr _ => _ end) => destruct x
      | |- cut _ _ (match ?x with (_, _) => _ end) => destruct x
      | |- cut _ _ (match ?x with Some _ => _ | None => _ end) => destruct x
      end ].

Lemma cut_parseMaybeAssignment (rec : M astNode) (left : astNode) :
  cut s c rec -> cut s c (parseMaybeAssignment rec left).
Proof. intros HR. unfold parseMaybeAssignment. repeat cut_step. Qed.

Lemma cut_parseExprsUntil (rec : M astNode) (close : tokKind) :
  consumes rec -> cut s c rec ->
  forall n acc, cut s c (parseExprsUntil rec close n acc).
Proof.
  intros HC HR. induction n as [|n IH]; intros acc; [apply cut_stuck|].
  cbn [parseExprsUntil].
  apply (cut_unlessEOF acc
    (t <- peek ;;
     (if kindIs (kind t) close then ret acc
      else node <- rec ;; expect Kind.comma ;;;
           parseExprsUntil rec close n (acc ++ [node])))).
  - repeat cut_step. apply IH.
  - intros p a p' Hp H L. apply bind_Ok in H.
    destruct H as (t & p1 & Hpk & H). apply peek_Ok in Hpk.
    destruct Hpk as [_ ->].
    destruct (kindIs (kind t) close); [now injection H as <- _|].
    assert (K : consumes (node <- rec ;; expect Kind.comma ;;;
                          parseExprsUntil rec close n (acc ++ [node]))).
    { apply consumes_bind; [exact HC|]. intros node.
      pose proof (keepsCursor_parseExprsUntil rec close
                    (consumes_keepsCursor _ HC) n) as HE.
      repeat first [ cursor_step | apply HE ]. }
    specialize (K p Hp). rewrite H in K. cbn in K. destruct K as (_ & K). lia.
Qed.

Lemma cut_parseEntriesUntil (rec : M astNode) :
  consumes rec -> cut s c rec ->
  forall n acc, cut s c (parseEntriesUntil rec n acc).
Proof.
  intros HC HR. induction n as [|n IH]; intros acc; [apply cut_stuck|].
  cbn [parseEntriesUntil].
  apply (cut_unlessEOF acc
    (t <- peek ;;
     (if kindIs (kind t) Kind.rightBrace then ret acc
      else key <- rec ;; expect Kind.colon ;;; val <- rec ;;
           expect Kind.comma ;;;
           parseEntriesUntil rec n (acc ++ [mkObjectEntryNode key val])))).
  - repeat cut_step. apply IH.
  - intros p a p' Hp H L. apply bind_Ok in H.
    destruct H as (t & p1 & Hpk & H). apply peek_Ok in Hpk.
    destruct Hpk as [_ ->].
    destruct (kindIs (kind t) Kind.rightBrace); [now injection H as <- _|].
    assert (K : consumes
                  (key <- rec ;; expect Kind.colon ;;; val <- rec ;;
                   expect Kind.comma ;;;
                   parseEntriesUntil rec n
                     (acc ++ [mkObjectEntryNode key val]))).
    { apply consumes_bind; [exact HC|]. intros key.
      pose proof (consumes_keepsCursor _ HC) as HK.
      pose proof (keepsCursor_parseEntriesUntil rec HK n) as HE.
      repeat first [ cursor_step | apply HE ]. }
    specialize (K p Hp). rewrite H in K. cbn in K. destruct K as (_ & K). lia.
Qed.

Lemma cut_parseFnArgs :
  forall n args, cut s c (parseFnArgs n args).
Proof.
  induction n as [|n IH]; intros args; [apply cut_stuck|].
  cbn [parseFnArgs].
  apply (cut_unlessEOF (args, "")
    (t <- peek ;;
     (if kindIs (kind t) Kind.rightParen then ret (args, "")
      else arg <- expect Kind.identifier ;; t' <- peek ;;
           (if kindIs (kind t') Kind.ellipsis
            then next ;;; expect Kind.comma ;;; ret (args, payload arg)
            else expect Kind.comma ;;; parseFnArgs n (args ++ [payload arg]))))).
  - repeat cut_step. apply IH.
  - intros p a p' Hp H L. apply bind_Ok in H.
    destruct H as (t & p1 & Hpk & H). apply peek_Ok in Hpk.
    destruct Hpk as [_ ->].
    destruct (kindIs (kind t) Kind.rightParen); [now injection H as <- _|].
    assert (K : consumes
                  (arg <- expect Kind.identifier ;; t' <- peek ;;
                   (if kindIs (kind t') Kind.ellipsis
                    then next ;;; expect Kind.comma ;;;
                         ret (args, payload arg)
                    else expect Kind.comma ;;;
                         parseFnArgs n (args ++ [payload arg])))).
    { apply consumes_bind; [apply consumes_expect|]. intros arg.
      pose proof (keepsCursor_parseFnArgs n) as HA.
      repeat first [ cursor_step | apply HA ]. }
    specialize (K p Hp). rewrite H in K. cbn in K. destruct K as (_ & K). lia.
Qed.

Lemma cut_parseAtom (rec : M astNode) (n : nat) :
  consumes rec -> cut s c rec -> cut s c (parseAtom rec n).
Proof.
  intros HC HR. unfold parseAtom. apply cut_bind; [apply cut_next|].
  intros tok.
  pose proof (fun close acc => cut_parseExprsUntil rec close HC HR n acc)
    as HE.
  pose proof (fun acc => cut_parseEntriesUntil rec HC HR n acc) as HO.
  pose proof (fun args => cut_parseFnArgs n args) as HA.
  pose proof (cut_parseMaybeAssignment rec) as HM.
  destruct (kind tok); unfold afterSwitch, parseFnBody;
    repeat first [ cut_step | apply HE | apply HO | apply HA | apply HM ].
  (* the brace form, after its first expression *)
  apply cut_errorAtEOF.
  - repeat first [ cut_step | apply HE | apply HO | apply HM ].
  - pose proof (consumes_keepsCursor _ HC) as HK.
    pose proof (keepsCursor_parseExprsUntil rec Kind.rightBrace HK n) as KE.
    pose proof (keepsCursor_parseEntriesUntil rec HK n) as KO.
    pose proof (keepsCursor_parseMaybeAssignment rec) as KM.
    apply consumes_later; [apply keepsCursor_peek|]. intros t'.
    destruct (kindIs (kind t') Kind.colon).
    + apply consumes_bind; [apply consumes_next|]. intros _.
      repeat first [ cursor_step | apply KE | apply KO | apply KM ].
    + apply consumes_bind; [apply consumes_expect|]. intros _.
      repeat first [ cursor_step | apply KE | apply KO | apply KM ].
Qed.

(** The loop of [nextNode] returns the node it was given when it returns
    without moving on. *)
Lemma nextNodeLoop_still (rec : M astNode) (n : nat) :
  consumes rec ->
  forall k node p a p',
    inBounds p ->
    nextNodeLoop rec n k node p = Ok a p' -> index p' <= index p ->
    a = node.
Proof.
  intros HC. pose proof (consumes_keepsCursor _ HC) as HK.
  induction k as [|k IH]; intros node p a p' Hp H L; [discriminate|].
  cbn [nextNodeLoop] in H. destruct (isEOF p); [now injection H as <- _|].
  apply bind_Ok in H. destruct H as (t & p1 & Hpk & H).
  apply peek_Ok in Hpk. destruct Hpk as [_ ->].
  assert (KD : consumes
                 (next ;;; right <- parseAtom rec n ;;
                  nextNodeLoop rec n k (propertyAccessNode node right))).
  { apply consumes_bind; [apply consumes_next|]. intros _.
    apply keepsCursor_bind;
      [apply consumes_keepsCursor, consumes_parseAtom, HK|].
    intros right. apply keepsCursor_nextNodeLoop, HK. }
  assert (KP : consumes
                 (next ;;;
                  args <- parseExprsUntil rec Kind.rightParen n [] ;;
                  expect Kind.rightParen ;;;
                  nextNodeLoop rec n k (fnCallNode node args))).
  { apply consumes_bind; [apply consumes_next|]. intros _.
    apply keepsCursor_bind; [apply keepsCursor_parseExprsUntil, HK|].
    intros args. apply keepsCursor_bind;
      [apply consumes_keepsCursor, consumes_expect|].
    intros _. apply keepsCursor_nextNodeLoop, HK. }
  destruct (kind t);
    try (exact (IH _ _ _ _ Hp H L));
    try (now injection H as <- _).
  - specialize (KD p Hp). rewrite H in KD. cbn in KD.
    destruct KD as (_ & KD). lia.
  - specialize (KP p Hp). rewrite H in KP. cbn in KP.
    destruct KP as (_ & KP). lia.
Qed.

Lemma cut_nextNodeLoop (rec : M astNode) (n : nat) :
  consumes rec -> cut s c rec ->
  forall k node, cut s c (nextNodeLoop rec n k node).
Proof.
  intros HC HR. induction k as [|k IH]; intros node; [apply cut_stuck|].
  pose proof (fun close acc => cut_parseExprsUntil rec close HC HR n acc)
    as HE.
  pose proof (cut_parseAtom rec n HC HR) as HP.
  cbn [nextNodeLoop]. apply cut_unlessEOF.
  - apply cut_bind; [apply cut_peek|]. intros t.
    destruct (kind t);
      repeat first [ cut_step | apply HE | apply HP | apply IH ].
  - intros p a p' Hp H L.
    apply (nextNodeLoop_still rec n HC (S k) node p a p' Hp); [|exact L].
    cbn [nextNodeLoop].
    destruct (isEOF p) eqn:E; [|exact H].
    apply bind_Ok in H. destruct H as (t & p1 & Hpk & _).
    apply peek_Ok in Hpk. destruct Hpk as [Hat _].
    rewrite (isEOF_at p t Hat) in E. discriminate E.
Qed.

Lemma cut_nextNode (fuel : nat) : cut s c (nextNode fuel).
Proof.
  induction fuel as [|f IH]; [apply cut_stuck|]. cbn [nextNode].
  pose proof (consumes_nextNode f) as HC.
  apply cut_bind.
  - apply cut_parseAtom; [exact HC|exact IH].
  - intros node. apply cut_nextNodeLoop; [exact HC|exact IH].
Qed.

End Cut.

(** An expression before a token, without the token: [nextNode] returns
    its node at the end of the tokens, or indexes the tokens at their
    end. *)
Lemma parsesBefore_cut (fuel fuel' : nat) (s pre : list token) (c : token)
    (n : astNode) :
  parsesBefore fuel s c n -> fuel <= fuel' ->
  nextNode fuel' (mkParser (pre ++ s) (List.length pre))
  = Ok n (mkParser (pre ++ s) (List.length (pre ++ s)))
  \/ nextNode fuel' (mkParser (pre ++ s) (List.length pre))
     = Panic (pastEnd (pre ++ s)).
Proof.
  intros H Hf.
  pose proof (parsesBefore_framed fuel fuel' s c n pre [] H Hf) as F.
  replace (pre ++ s ++ [c]) with ((pre ++ s) ++ [c]) in F by reassoc.
  replace (List.length pre + List.length s) with (List.length (pre ++ s)) in F
    by lengths.
  refine (proj2 (cut_nextNode (pre ++ s) c fuel')
            (mkParser ((pre ++ s) ++ [c]) (List.length pre)) n
            (mkParser ((pre ++ s) ++ [c]) (List.length (pre ++ s)))
            _ eq_refl F _).
  - unfold inBounds. cbn [tokens index]. lengths.
  - cbn [index]. lia.
Qed.

(** ** An expression with no comma after it *)

(** The statement of [parse] on an expression that ends the tokens. *)
Lemma statement_at_end (rec : M astNode) (k : nat) (nodes : list astNode)
    (T : list token) (i : nat) (t : token) :
  nth_error T i = Some t ->
  (forall n,
      rec (mkParser T i) = Ok n (mkParser T (List.length T)) ->
      parseLoop rec (S k) nodes (mkParser T i)
      = Returns nodes
          (Some (parseErrorOf
                   (String.append "Unexpected end of input, expected "
                      (tokString (tokenOfKind Kind.comma))))))
  /\ (forall v,
         rec (mkParser T i) = Panic v ->
         parseLoop rec (S k) nodes (mkParser T i) = Panics v).
Proof.
  intros Ht. split.
  - intros n H. cbn [parseLoop]. rewrite (isEOF_at (mkParser T i) t Ht).
    rewrite (bind_step _ _ _ _ _ H). unfold bind, expect.
    replace (isEOF (mkParser T (List.length T))) with true
      by (symmetry; apply Nat.eqb_refl).
    reflexivity.
  - intros v H. cbn [parseLoop]. rewrite (isEOF_at (mkParser T i) t Ht).
    unfold bind. rewrite H. reflexivity.
Qed.


(** X9. Nodes parsed before an error are kept, nodes parsed before a panic
    are not: after expressions each followed by a comma, a last expression
    with no comma after it makes [parse] return the nodes of the
    expressions before it together with the error "Unexpected end of
    input" of the missing comma where [nextNode] comes to the end of the
    tokens, and makes [parse] panic on the index past the end of the
    tokens, returning nothing, where [nextNode] looks at the token after
    the last expression. *)
Theorem parse_keeps_nodes_before_the_error (fuel fuel' : nat)
    (items : list item) (s : list token) (c : token) (n : astNode) :
  Forall (isItem fuel) items ->
  parsesBefore fuel s c n ->
  fuel <= fuel' ->
  List.length items < fuel' ->
  nextNode fuel'
    (mkParser (itemsTokens items ++ s) (List.length (itemsTokens items)))
  = Ok n (mkParser (itemsTokens items ++ s)
            (List.length (itemsTokens items ++ s)))
  /\ parse fuel' (newParser (itemsTokens items ++ s))
     = Returns (map itemNode items)
         (Some (parseErrorOf
                  (String.append "Unexpected end of input, expected "
                     (tokString (tokenOfKind Kind.comma)))))
  \/ nextNode fuel'
       (mkParser (itemsTokens items ++ s) (List.length (itemsTokens items)))
     = Panic (pastEnd (itemsTokens items ++ s))
     /\ parse fuel' (newParser (itemsTokens items ++ s))
        = Panics (pastEnd (itemsTokens items ++ s)).
Proof.
  intros HI Hb Hf Hk.
  assert (E : parse fuel' (newParser (itemsTokens items ++ s))
              = parseLoop (nextNode fuel') (fuel' - List.length items)
                  (map itemNode items)
                  (mkParser (itemsTokens items ++ s)
                     (List.length (itemsTokens items)))).
  { unfold parse.
    pose proof (parseLoop_items fuel fuel' s Hf items
                  (fuel' - List.length items) [] [] HI) as E.
    replace (List.length items + (fuel' - List.length items)) with fuel' in E
      by lia.
    exact E. }
  rewrite E.
  destruct (fuel' - List.length items) as [|k] eqn:Ek; [lia|].
  destruct (parsesBefore_first _ _ _ _ Hb) as (t & s' & Es).
  assert (Ht : nth_error (itemsTokens items ++ s)
                 (List.length (itemsTokens items)) = Some t)
    by (rewrite Es; apply nth_after_prefix).
  destruct (statement_at_end (nextNode fuel') k (map itemNode items)
              (itemsTokens items ++ s) (List.length (itemsTokens items)) t Ht)
    as [SO SP].
  destruct (parsesBefore_cut fuel fuel' s (itemsTokens items) c n Hb Hf)
    as [C|C]; [left|right]; (split; [exact C|]).
  - exact (SO n C).
  - exact (SP _ C).
Qed.

(** ** The brace form after its first expression *)

(** C5. A non-empty brace form is decided by the one token after its first
    inner expression.  On a colon the form is an object literal and goes on
    as entries: the first expression is the first key, a value expression
    and a comma follow, then any number of key, colon, value, comma, and
    the node is the object of all the entries in their order.  On a comma
    the form is a block and goes on as expressions each followed by a
    comma, and the node is the block of the first expression and those.
    On any other token no node is returned: the parser does not go back to
    try the other form.  And whatever non-empty brace form [parseAtom]
    returns a node for, the token after its first expression is a colon
    and the node an object with that expression as first key, or the token
    is a comma and the node a block that starts with that expression. *)
Theorem brace_form_decided_after_first_expression (fuel fuel' : nat)
    (lb c1 : token) (s1 : list token) (n1 : astNode) :
  kind lb = Kind.leftBrace ->
  parsesBefore fuel s1 c1 n1 ->
  (forall t, hd_error s1 = Some t -> kind t <> Kind.rightBrace) ->
  fuel <= fuel' ->
  (kind c1 = Kind.colon ->
   forall (v : list token) (cm : token) (nv : astNode) (es : list entry)
          (rb t : token),
     parsesBefore fuel v cm nv ->
     kind cm = Kind.comma ->
     Forall (isEntry fuel) es ->
     Forall keyStartsNotBrace es ->
     kind rb = Kind.rightBrace ->
     stops (kind t) = true ->
     List.length es < fuel' ->
     parsesBefore (S fuel')
       (lb :: s1 ++ c1 :: v ++ cm :: entriesTokens es ++ [rb]) t
       (objectNode (mkObjectEntryNode n1 nv :: map entryNode es)))
  /\ (kind c1 = Kind.comma ->
      forall (items : list item) (rb t : token),
        Forall (isItem fuel) items ->
        Forall (startsNot Kind.rightBrace) items ->
        kind rb = Kind.rightBrace ->
        stops (kind t) = true ->
        List.length items < fuel' ->
        parsesBefore (S fuel')
          (lb :: s1 ++ c1 :: itemsTokens items ++ [rb]) t
          (blockNode (n1 :: map itemNode items)))
  /\ (kind c1 <> Kind.colon -> kind c1 <> Kind.comma ->
      forall (rest : list token) (n : nat),
        parseAtom (nextNode fuel') n (newParser (lb :: s1 ++ c1 :: rest))
        = Panic (PanicString
                   (String.append "expected "
                      (String.append (tokString (tokenOfKind Kind.comma))
                         (String.append " got " (tokString c1))))))
  /\ (forall (rec : M astNode) (n : nat) (p p' : parser) (l t : token)
             (node : astNode),
         nth_error (tokens p) (index p) = Some l ->
         kind l = Kind.leftBrace ->
         nth_error (tokens p) (S (index p)) = Some t ->
         kind t <> Kind.rightBrace ->
         parseAtom rec n p = Ok node p' ->
         exists first p1 t1,
           rec (advance p) = Ok first p1
           /\ nth_error (tokens p1) (index p1) = Some t1
           /\ if kindIs (kind t1) Kind.colon
              then braceObjectOf first node
              else kind t1 = Kind.comma /\ braceBlockOf first node).
Proof.
  intros Klb Hb Hs1 Hf. split; [|split; [|split]].
  - intros Kc1 v cm nv es rb t Hv Kcm HE HS Krb Kt Hn.
    set (e := mkEntry s1 c1 v cm n1 nv).
    assert (He : isEntry fuel e) by (repeat split; assumption).
    pose proof (object_literal_framed fuel fuel' [] [] lb rb t e es
                  (Forall_cons e He HE) (Forall_cons e Hs1 HS)
                  Klb Krb Kt Hf Hn) as E.
    rewrite entriesTokens_cons in E.
    cbn [app List.length Nat.add map entryNode keyTokens entryColon
           valTokens entryComma keyNode valNode e] in E.
    unfold parsesBefore, newParser.
    replace ((lb :: s1 ++ c1 :: v ++ cm :: entriesTokens es ++ [rb]) ++ [t])
      with (lb :: (s1 ++ c1 :: v ++ cm :: entriesTokens es) ++ [rb; t])
      by reassoc.
    replace (List.length
               (lb :: s1 ++ c1 :: v ++ cm :: entriesTokens es ++ [rb]))
      with (List.length (s1 ++ c1 :: v ++ cm :: entriesTokens es) + 2)
      by lengths.
    exact E.
  - intros Kc1 items rb t HI HS Krb Kt Hn.
    set (it := mkItem s1 c1 n1).
    assert (Hit : isItem fuel it) by (split; assumption).
    pose proof (brace_block_framed fuel fuel' [] [] lb rb t it items
                  (Forall_cons it Hit HI) (Forall_cons it Hs1 HS)
                  Klb Krb Kt Hf Hn) as E.
    rewrite itemsTokens_cons in E.
    cbn [app List.length Nat.add map itemTokens itemComma itemNode it] in E.
    unfold parsesBefore, newParser.
    replace ((lb :: s1 ++ c1 :: itemsTokens items ++ [rb]) ++ [t])
      with (lb :: (s1 ++ c1 :: itemsTokens items) ++ [rb; t]) by reassoc.
    replace (List.length (lb :: s1 ++ c1 :: itemsTokens items ++ [rb]))
      with (List.length (s1 ++ c1 :: itemsTokens items) + 2) by lengths.
    exact E.
  - intros Nco Ncm rest n.
    destruct (parsesBefore_first _ _ _ _ Hb) as (t0 & s' & Es).
    set (W := lb :: s1 ++ c1 :: rest).
    pose proof (parsesBefore_framed fuel fuel' s1 c1 n1 [lb] rest Hb Hf) as F.
    cbn [app List.length] in F. fold W in F.
    assert (Ht0 : nth_error W 1 = Some t0) by (unfold W; now rewrite Es).
    assert (Hc1 : nth_error W (1 + List.length s1) = Some c1).
    { unfold W. cbn [Nat.add nth_error]. apply nth_after_prefix. }
    unfold parseAtom. unfold bind at 1.
    rewrite (next_at (newParser W) lb eq_refl).
    unfold advance. cbn [newParser tokens index]. rewrite Klb.
    rewrite (bind_step _ _ _ _ _ (peek_at (mkParser W 1) t0 Ht0)).
    replace (kindIs (kind t0) Kind.rightBrace) with false
      by (symmetry; apply kindIs_false, Hs1; rewrite Es; reflexivity).
    rewrite (bind_step _ _ _ _ _ F).
    rewrite (isEOF_at (mkParser W (1 + List.length s1)) c1 Hc1).
    rewrite (bind_step _ _ _ _ _
               (peek_at (mkParser W (1 + List.length s1)) c1 Hc1)).
    replace (kindIs (kind c1) Kind.colon) with false
      by (symmetry; apply kindIs_false, Nco).
    unfold bind at 1.
    now rewrite (expect_mismatch Kind.comma
                   (mkParser W (1 + List.length s1)) c1 Hc1 Ncm).
  - exact brace_form_head.
Qed.

(** ** Empty braces *)

Lemma length_argTokens (pairs : list (token * token)) :
  List.length (argTokens pairs) = 2 * List.length pairs.
Proof.
  induction pairs as [|ac pairs IH]; [reflexivity|].
  cbn [argTokens flat_map app List.length]. fold (argTokens pairs).
  rewrite IH. lia.
Qed.

(** The argument loop on names that are each followed by a comma, up to
    the closing parenthesis. *)
Lemma parseFnArgs_close (pairs : list (token * token)) :
  forall (n : nat) (args : list string) (p : parser) (rp : token)
         (rest : list token),
    Forall isArgPair pairs ->
    remaining p = argTokens pairs ++ rp :: rest ->
    kind rp = Kind.rightParen ->
    List.length pairs < n ->
    parseFnArgs n args p
    = Ok (args ++ map (fun ac => payload (fst ac)) pairs, "")
         (advanceBy (2 * List.length pairs) p)
    /\ remaining (advanceBy (2 * List.length pairs) p) = rp :: rest.
Proof.
  induction pairs as [|[a c0] pairs IH]; intros n args p rp rest HF Hrem Krp Hn.
  - destruct n as [|n]; [lia|]. cbn [argTokens flat_map app] in Hrem.
    replace (advanceBy (2 * List.length (@nil (token * token))) p) with p
      by (destruct p; reflexivity).
    split; [|exact Hrem].
    pose proof (remaining_cons _ _ _ Hrem) as [Hrp _].
    cbn [parseFnArgs]. rewrite (isEOF_at p rp Hrp). unfold bind at 1.
    rewrite (peek_at p rp Hrp), Krp, kindIs_refl. cbn [map].
    now rewrite app_nil_r.
  - destruct n as [|n]; [cbn in Hn; lia|].
    pose proof (Forall_inv HF) as [Ka Kc0]. cbn [fst snd] in Ka, Kc0.
    pose proof (Forall_inv_tail HF) as HF'.
    cbn [argTokens flat_map app fst snd] in Hrem.
    apply remaining_cons in Hrem. destruct Hrem as [Ha Hrem].
    apply remaining_cons in Hrem. destruct Hrem as [Hc0 Hrem].
    fold (argTokens pairs) in Hrem.
    destruct (IH n (args ++ [payload a]) (advance (advance p)) rp rest
                HF' Hrem Krp ltac:(cbn in Hn; lia)) as [E R].
    replace (advanceBy (2 * List.length pairs) (advance (advance p)))
      with (advanceBy (2 * List.length ((a, c0) :: pairs)) p) in E, R
      by (unfold advanceBy, advance; cbn [tokens index List.length];
          f_equal; lia).
    split; [|exact R].
    cbn [parseFnArgs]. rewrite (isEOF_at p a Ha). unfold bind at 1.
    rewrite (peek_at p a Ha), Ka.
    change (kindIs Kind.identifier Kind.rightParen) with false. cbv iota.
    unfold bind at 1. rewrite (expect_at p a _ Ha Ka).
    unfold bind at 1. rewrite (peek_at (advance p) c0 Hc0), Kc0.
    change (kindIs Kind.comma Kind.ellipsis) with false. cbv iota.
    unfold bind at 1. rewrite (expect_at (advance p) c0 _ Hc0 Kc0).
    rewrite E. cbn [map fst]. rewrite <- app_assoc. reflexivity.
Qed.

(** The optional name of a [fn]. *)
Lemma fn_name_step (name : option token) (u : token) (X : list token)
    (q : parser) {B : Type} (k : string -> M B) :
  remaining q = nameTokens name ++ u :: X ->
  (forall id, name = Some id -> kind id = Kind.identifier) ->
  (name = None -> kind u <> Kind.identifier) ->
  (t <- peek ;;
   name' <- (if kindIs (kind t) Kind.identifier
             then id <- next ;; ret (payload id)
             else ret "") ;;
   k name') q
  = k (fnName name) (advanceBy (List.length (nameTokens name)) q)
  /\ remaining (advanceBy (List.length (nameTokens name)) q) = u :: X.
Proof.
  intros Hrem Kname Ku. destruct name as [id|]; cbn [nameTokens fnName app
                                                       List.length] in *.
  - apply remaining_cons in Hrem. destruct Hrem as [Hid Hrem].
    split; [|exact Hrem].
    unfold bind at 1. rewrite (peek_at q id Hid).
    rewrite (Kname id eq_refl), kindIs_refl. unfold bind.
    rewrite (next_at q id Hid). reflexivity.
  - replace (advanceBy 0 q) with q by (destruct q; reflexivity).
    split; [|exact Hrem].
    pose proof (remaining_cons _ _ _ Hrem) as [Hu _].
    unfold bind at 1. rewrite (peek_at q u Hu).
    replace (kindIs (kind u) Kind.identifier) with false
      by (symmetry; apply kindIs_false, Ku; reflexivity).
    reflexivity.
Qed.

(** The optional argument list of a [fn], before the left brace of its
    body. *)
Lemma fn_args_step (n : nat) (al : option argList) (l : token)
    (X : list token) (q : parser) {B : Type}
    (k : list string * string -> M B) :
  remaining q = argListTokens al ++ l :: X ->
  isArgList al ->
  (forall a, al = Some a -> List.length (alPairs a) < n) ->
  kind l = Kind.leftBrace ->
  (t' <- peek ;;
   argsRest <- (if kindIs (kind t') Kind.leftParen
                then
                  next ;;;
                  ar <- parseFnArgs n [] ;;
                  expect Kind.rightParen ;;;
                  ret ar
                else ret ([], "")) ;;
   k argsRest) q
  = k (argNames al, argRest al) (advanceBy (List.length (argListTokens al)) q)
  /\ remaining (advanceBy (List.length (argListTokens al)) q) = l :: X.
Proof.
  intros Hrem Hal Hn Kl. destruct al as [[lp pairs rest rp]|];
    cbn [argListTokens argNames argRest isArgList alOpen alPairs alRest
           alClose app List.length] in *.
  - destruct Hal as (Klp & HF & Hrest & Krp).
    specialize (Hn _ eq_refl). cbn [alPairs] in Hn.
    apply remaining_cons in Hrem. destruct Hrem as [Hlp Hrem].
    unfold bind at 1. rewrite (peek_at q lp Hlp), Klp, kindIs_refl.
    unfold bind at 1. unfold bind at 1. rewrite (next_at q lp Hlp).
    destruct rest as [[[id e] c]|]; cbn [restTokens restName isRest] in *.
    + destruct Hrest as (Kid & Ke & Kc).
      replace (argTokens pairs ++ [id; e; c] ++ [rp] ++ l :: X)
        with (argTokens pairs ++ id :: e :: c :: rp :: l :: X) in Hrem
        by reflexivity.
      replace ((argTokens pairs ++ [id; e; c] ++ [rp]) ++ l :: X)
        with (argTokens pairs ++ id :: e :: c :: rp :: l :: X) in Hrem
        by reassoc.
      destruct (parseFnArgs_rest pairs n [] (advance q) id e c (rp :: l :: X)
                  HF Hrem Kid Ke Kc Hn) as [E R].
      unfold bind at 1. rewrite E.
      apply remaining_cons in R. destruct R as [Hrp R].
      unfold bind at 1. rewrite (expect_at _ rp _ Hrp Krp).
      unfold ret at 1.
      replace (advanceBy
                 (S (List.length (argTokens pairs ++ [id; e; c] ++ [rp]))) q)
        with (advance (advanceBy (2 * List.length pairs + 3) (advance q))).
      * split; [reflexivity|exact R].
      * unfold advanceBy, advance. cbn [tokens index]. f_equal.
        rewrite !length_app, length_argTokens. cbn [List.length]. lia.
    + replace ((argTokens pairs ++ [] ++ [rp]) ++ l :: X)
        with (argTokens pairs ++ rp :: l :: X) in Hrem by reassoc.
      destruct (parseFnArgs_close pairs n [] (advance q) rp (l :: X)
                  HF Hrem Krp Hn) as [E R].
      unfold bind at 1. rewrite E.
      apply remaining_cons in R. destruct R as [Hrp R].
      unfold bind at 1. rewrite (expect_at _ rp _ Hrp Krp).
      unfold ret at 1.
      replace (advanceBy (S (List.length (argTokens pairs ++ [] ++ [rp]))) q)
        with (advance (advanceBy (2 * List.length pairs) (advance q))).
      * split; [reflexivity|exact R].
      * unfold advanceBy, advance. cbn [tokens index]. f_equal.
        rewrite !length_app, length_argTokens. cbn [List.length]. lia.
  - replace (advanceBy 0 q) with q by (destruct q; reflexivity).
    split; [|exact Hrem].
    pose proof (remaining_cons _ _ _ Hrem) as [Hl _].
    unfold bind at 1. rewrite (peek_at q l Hl), Kl.
    reflexivity.
Qed.

(** The two braces as the body of a [fn]. *)
Lemma parseFnBody_empty (rec : M astNode) (q : parser) (l r : token)
    (X : list token) :
  remaining q = l :: r :: X ->
  kind l = Kind.leftBrace -> kind r = Kind.rightBrace ->
  parseFnBody rec q = Ok (blockNode []) (advanceBy 2 q).
Proof.
  intros Hrem Kl Kr.
  apply remaining_cons in Hrem. destruct Hrem as [Hl Hrem].
  apply remaining_cons in Hrem. destruct Hrem as [Hr _].
  cbn [advance tokens index] in Hr.
  unfold parseFnBody. unfold bind at 1.
  rewrite (peek_at q l Hl), Kl, kindIs_refl.
  unfold bind at 1. unfold peekAhead.
  assert (L : S (index q) < List.length (tokens q))
    by (apply nth_error_Some; congruence).
  replace (List.length (tokens q) <? index q + 1) with false
    by (symmetry; apply Nat.ltb_ge; lia).
  unfold tokenAt. replace (index q + 1) with (S (index q)) by lia.
  rewrite Hr, Kr, kindIs_refl.
  unfold bind. rewrite (next_at q l Hl).
  rewrite (next_at (advance q) r Hr). reflexivity.
Qed.

(** C6. [parseAtom] on a left brace directly followed by a right brace
    returns the empty object node.  On a [fn] definition whose body is the
    two braces -- [fn], an optional name, an optional parenthesized
    argument list of names each followed by a comma and possibly a rest
    argument with its ellipsis and comma, then the two braces -- it
    returns the function node of the name and the arguments whose body is
    the empty block, not the empty object. *)
Theorem empty_braces_object_or_fn_block (rec : M astNode) (n : nat)
    (p : parser) :
  (forall l r,
      nth_error (tokens p) (index p) = Some l -> kind l = Kind.leftBrace ->
      nth_error (tokens p) (1 + index p) = Some r -> kind r = Kind.rightBrace ->
      parseAtom rec n p
      = Ok (objectNode []) (mkParser (tokens p) (2 + index p)))
  /\ (forall (f : token) (name : option token) (al : option argList)
             (l r : token) (rest : list token),
         remaining p
         = f :: nameTokens name ++ argListTokens al ++ l :: r :: rest ->
         kind f = Kind.fnKeyword ->
         (forall id, name = Some id -> kind id = Kind.identifier) ->
         isArgList al ->
         (forall a, al = Some a -> List.length (alPairs a) < n) ->
         kind l = Kind.leftBrace -> kind r = Kind.rightBrace ->
         parseAtom rec n p
         = Ok (fnNode (fnName name) (argNames al) (argRest al) (blockNode []))
             (advanceBy
                (List.length (nameTokens name)
                 + List.length (argListTokens al) + 3) p)).
Proof.
  split.
  - intros l r Hl Kl Hr Kr. unfold parseAtom. unfold bind at 1.
    rewrite (next_at p l Hl), Kl. unfold bind at 1.
    rewrite (peek_at (advance p) r Hr), Kr. cbn [kindIs].
    rewrite kindIs_refl. unfold bind. rewrite (next_at (advance p) r Hr).
    reflexivity.
  - intros f name al l r rest Hrem Kf Kname Hal Hn Kl Kr.
    apply remaining_cons in Hrem. destruct Hrem as [Hf Hrem].
    unfold parseAtom. unfold bind at 1. rewrite (next_at p f Hf), Kf.
    assert (Hu : exists u X,
               argListTokens al ++ l :: r :: rest = u :: X
               /\ kind u <> Kind.identifier).
    { destruct al as [a|].
      - exists (alOpen a),
          ((argTokens (alPairs a) ++ restTokens (alRest a) ++ [alClose a])
           ++ l :: r :: rest).
        split; [reflexivity|]. destruct Hal as (K & _). rewrite K.
        discriminate.
      - exists l, (r :: rest). split; [reflexivity|]. rewrite Kl.
        discriminate. }
    destruct Hu as (u & X & Eu & Ku).
    rewrite Eu in Hrem.
    destruct (fn_name_step name u X (advance p)
                (fun name' =>
                   t' <- peek ;;
                   argsRest <- (if kindIs (kind t') Kind.leftParen
                                then
                                  next ;;;
                                  ar <- parseFnArgs n [] ;;
                                  expect Kind.rightParen ;;;
                                  ret ar
                                else ret ([], "")) ;;
                   body <- parseFnBody rec ;;
                   ret (fnNode name' (fst argsRest) (snd argsRest) body))
                Hrem Kname (fun _ => Ku)) as [E1 R1].
    rewrite E1. rewrite <- Eu in R1.
    destruct (fn_args_step n al l (r :: rest)
                (advanceBy (List.length (nameTokens name)) (advance p))
                (fun argsRest =>
                   body <- parseFnBody rec ;;
                   ret (fnNode (fnName name) (fst argsRest) (snd argsRest)
                          body))
                R1 Hal Hn Kl) as [E2 R2].
    rewrite E2.
    rewrite (bind_step _ _ _ _ _ (parseFnBody_empty rec _ l r rest R2 Kl Kr)).
    unfold ret. cbn [fst snd]. f_equal.
    unfold advanceBy, advance. cbn [tokens index]. f_equal. lia.
Qed.

End Parser.

(** ** Closed instances

    The statements above hold for every rendering of tokens, every
    [strconv.Quote] and every [strconv.ParseFloat]; the instances below
    keep them universally quantified and fix the tokens. *)

Example ParseInt_examples :
  ParseInt "64710" = (64710%Z, None)
  /\ ParseInt "+5" = (5%Z, None)
  /\ ParseInt "-9223372036854775808" = ((- 2 ^ 63)%Z, None)
  /\ ParseInt "9223372036854775808" = ((2 ^ 63 - 1)%Z, Some ErrRange)
  /\ ParseInt "12x" = (0%Z, Some ErrSyntax)
  /\ ParseInt "-" = (0%Z, Some ErrSyntax)
  /\ ParseInt "" = (0%Z, Some ErrSyntax).
Proof. repeat split; reflexivity. Qed.

(** [obj.k(1,),] with the comma the parser expects after every argument
    and after the expression. *)
Example parse_postfix_example :
  forall ts q pf,
    parse ts q pf 4
      (newParser
         [ident "obj"; tk Kind.dot; ident "k"; tk Kind.leftParen; num "1";
          tk Kind.comma; tk Kind.rightParen; tk Kind.comma])
    = Returns
        [fnCallNode
           (propertyAccessNode (identifierNode "obj") (identifierNode "k"))
           [numberNode true 1 PrimFloat.zero]]
        None.
Proof. reflexivity. Qed.

(** [x := [?, _,],] *)
Example parse_assignment_example :
  forall ts q pf,
    parse ts q pf 6
      (newParser
         [ident "x"; tk Kind.assign; tk Kind.leftBracket; tk Kind.qmark;
          tk Kind.comma; tk Kind.underscore; tk Kind.comma;
          tk Kind.rightBracket; tk Kind.comma])
    = Returns
        [assignmentNode true (identifierNode "x")
           (listNode [nullNode; emptyNode])]
        None.
Proof. reflexivity. Qed.

Lemma parse_stalls_on_operator_witness :
  oneTokenAtom Kind.trueLiteral = true
  /\ stalls Kind.plus = true /\ stalls Kind.less = true
  /\ stalls Kind.pipeArrow = true /\ stalls Kind.pushArrow = true
  /\ forall ts q pf fuel op,
      In op [Kind.plus; Kind.less; Kind.pipeArrow; Kind.pushArrow] ->
      parse ts q pf fuel (newParser [tk Kind.trueLiteral; tk op; num "2"])
      = StillRunning.
Proof.
  do 5 (split; [reflexivity|]).
  intros ts q pf fuel op Hop.
  apply (parse_stalls_on_operator ts q pf (tk Kind.trueLiteral) (tk op)
           [num "2"]); [reflexivity|].
  cbn in Hop. decompose [or] Hop; subst; try reflexivity. contradiction.
Defined.

Lemma unexpected_token_yields_false_node_witness :
  reachesAfterSwitch Kind.rightParen = true
  /\ forall ts q pf,
      parse ts q pf 2 (newParser [tk Kind.rightParen; tk Kind.comma])
      = Returns [booleanNode false] None.
Proof.
  split; [reflexivity|]. intros ts q pf.
  apply (unexpected_token_yields_false_node ts q pf (tk Kind.rightParen)
           eq_refl 0).
Defined.

Lemma parse_panics_witness :
  kind (tk Kind.rightParen) <> Kind.comma
  /\ isEOF (mkParser [ident "x"] 1) = true
  /\ forall ts q pf,
      expect ts Kind.comma (mkParser [num "1"; tk Kind.rightParen] 1)
      = Panic (PanicString
                 (String.append "expected "
                    (String.append (ts (tk Kind.comma))
                       (String.append " got " (ts (tk Kind.rightParen))))))
      /\ peek (mkParser [ident "x"] 1) = Panic (IndexOutOfRange 1 1)
      /\ peekAhead 1 (mkParser [tk Kind.fnKeyword; tk Kind.leftBrace] 1)
         = Panic (IndexOutOfRange 2 2)
      /\ parse ts q pf 2 (newParser [ident "x"])
         = Panics (IndexOutOfRange 1 1).
Proof.
  split; [discriminate|]. split; [reflexivity|]. intros ts q pf.
  destruct (parse_panics ts q pf) as (A & B & C & _ & D & _).
  split; [apply (A Kind.comma (mkParser [num "1"; tk Kind.rightParen] 1)
                   (tk Kind.rightParen)); [reflexivity|discriminate]|].
  split; [apply (proj1 (B (mkParser [ident "x"] 1) eq_refl))|].
  split; [apply (C (mkParser [tk Kind.fnKeyword; tk Kind.leftBrace] 1)
                   eq_refl)|].
  apply (D 0).
Defined.

Lemma colon_without_identifier_is_an_error_witness :
  kind (tk Kind.ifKeyword) <> Kind.identifier
  /\ forall ts q pf,
      parseAtom ts q pf (nextNode ts q pf 1) 1
        (newParser [tk Kind.colon; tk Kind.ifKeyword])
      = Err (parseErrorOf
               (String.append "Expected identifier after ':', got "
                  (ts (tk Kind.ifKeyword))))
            (mkParser [tk Kind.colon; tk Kind.ifKeyword] 1).
Proof.
  split; [discriminate|]. intros ts q pf.
  apply (colon_without_identifier_is_an_error ts q pf (nextNode ts q pf 1) 1
           (newParser [tk Kind.colon; tk Kind.ifKeyword])
           (tk Kind.colon) (tk Kind.ifKeyword));
    [reflexivity|reflexivity|reflexivity|discriminate].
Defined.

Lemma empty_braces_object_or_fn_block_witness :
  (forall ts q pf,
      parseAtom ts q pf (nextNode ts q pf 1) 1
        (newParser [tk Kind.leftBrace; tk Kind.rightBrace])
      = Ok (objectNode []) (mkParser [tk Kind.leftBrace; tk Kind.rightBrace] 2))
  /\ (forall ts q pf,
         parseAtom ts q pf (nextNode ts q pf 1) 1
           (newParser [tk Kind.fnKeyword; tk Kind.leftBrace; tk Kind.rightBrace])
         = Ok (fnNode "" [] "" (blockNode []))
              (mkParser
                 [tk Kind.fnKeyword; tk Kind.leftBrace; tk Kind.rightBrace] 3))
  /\ (forall ts q pf,
         parseAtom ts q pf (nextNode ts q pf 1) 1
           (newParser [tk Kind.fnKeyword; ident "f"; tk Kind.leftBrace;
                       tk Kind.rightBrace])
         = Ok (fnNode "f" [] "" (blockNode []))
              (mkParser
                 [tk Kind.fnKeyword; ident "f"; tk Kind.leftBrace;
                  tk Kind.rightBrace] 4))
  /\ (forall ts q pf,
         parseAtom ts q pf (nextNode ts q pf 1) 1
           (newParser [tk Kind.fnKeyword; tk Kind.leftParen;
                       tk Kind.rightParen; tk Kind.leftBrace;
                       tk Kind.rightBrace])
         = Ok (fnNode "" [] "" (blockNode []))
              (mkParser
                 [tk Kind.fnKeyword; tk Kind.leftParen; tk Kind.rightParen;
                  tk Kind.leftBrace; tk Kind.rightBrace] 5))
  /\ (forall ts q pf,
         parseAtom ts q pf (nextNode ts q pf 1) 2
           (newParser [tk Kind.fnKeyword; ident "f"; tk Kind.leftParen;
                       ident "a"; tk Kind.comma; tk Kind.rightParen;
                       tk Kind.leftBrace; tk Kind.rightBrace])
         = Ok (fnNode "f" ["a"] "" (blockNode []))
              (mkParser
                 [tk Kind.fnKeyword; ident "f"; tk Kind.leftParen;
                  ident "a"; tk Kind.comma; tk Kind.rightParen;
                  tk Kind.leftBrace; tk Kind.rightBrace] 8))
  /\ (forall ts q pf,
         parseAtom ts q pf (nextNode ts q pf 1) 2
           (newParser [tk Kind.fnKeyword; ident "f"; tk Kind.leftParen;
                       ident "a"; tk Kind.comma; ident "r"; tk Kind.ellipsis;
                       tk Kind.comma; tk Kind.rightParen;
                       tk Kind.leftBrace; tk Kind.rightBrace])
         = Ok (fnNode "f" ["a"] "r" (blockNode []))
              (mkParser
                 [tk Kind.fnKeyword; ident "f"; tk Kind.leftParen;
                  ident "a"; tk Kind.comma; ident "r"; tk Kind.ellipsis;
                  tk Kind.comma; tk Kind.rightParen;
                  tk Kind.leftBrace; tk Kind.rightBrace] 11)).
Proof.
  split; [|split; [|split; [|split; [|split]]]]; intros ts q pf.
  - apply (proj1 (empty_braces_object_or_fn_block ts q pf
                    (nextNode ts q pf 1) 1
                    (newParser [tk Kind.leftBrace; tk Kind.rightBrace]))
             (tk Kind.leftBrace) (tk Kind.rightBrace)); reflexivity.
  - apply (proj2 (empty_braces_object_or_fn_block ts q pf
                    (nextNode ts q pf 1) 1
                    (newParser [tk Kind.fnKeyword; tk Kind.leftBrace;
                                tk Kind.rightBrace]))
             (tk Kind.fnKeyword) None None (tk Kind.leftBrace)
             (tk Kind.rightBrace) []);
      [reflexivity|reflexivity|discriminate|exact I|discriminate
      |reflexivity|reflexivity].
  - apply (proj2 (empty_braces_object_or_fn_block ts q pf
                    (nextNode ts q pf 1) 1
                    (newParser [tk Kind.fnKeyword; ident "f";
                                tk Kind.leftBrace; tk Kind.rightBrace]))
             (tk Kind.fnKeyword) (Some (ident "f")) None (tk Kind.leftBrace)
             (tk Kind.rightBrace) []);
      [reflexivity|reflexivity|intros id [= <-]; reflexivity|exact I
      |discriminate|reflexivity|reflexivity].
  - apply (proj2 (empty_braces_object_or_fn_block ts q pf
                    (nextNode ts q pf 1) 1
                    (newParser [tk Kind.fnKeyword; tk Kind.leftParen;
                                tk Kind.rightParen; tk Kind.leftBrace;
                                tk Kind.rightBrace]))
             (tk Kind.fnKeyword) None
             (Some (mkArgList (tk Kind.leftParen) [] None
                      (tk Kind.rightParen)))
             (tk Kind.leftBrace) (tk Kind.rightBrace) []);
      [reflexivity|reflexivity|discriminate
      |split; [reflexivity|split; [constructor|split; [exact I|reflexivity]]]
      |intros a [= <-]; cbn; lia|reflexivity|reflexivity].
  - apply (proj2 (empty_braces_object_or_fn_block ts q pf
                    (nextNode ts q pf 1) 2
                    (newParser [tk Kind.fnKeyword; ident "f";
                                tk Kind.leftParen; ident "a"; tk Kind.comma;
                                tk Kind.rightParen; tk Kind.leftBrace;
                                tk Kind.rightBrace]))
             (tk Kind.fnKeyword) (Some (ident "f"))
             (Some (mkArgList (tk Kind.leftParen)
                      [(ident "a", tk Kind.comma)] None
                      (tk Kind.rightParen)))
             (tk Kind.leftBrace) (tk Kind.rightBrace) []);
      [reflexivity|reflexivity|intros id [= <-]; reflexivity
      |split; [reflexivity
              |split; [repeat constructor|split; [exact I|reflexivity]]]
      |intros a [= <-]; cbn; lia|reflexivity|reflexivity].
  - apply (proj2 (empty_braces_object_or_fn_block ts q pf
                    (nextNode ts q pf 1) 2
                    (newParser [tk Kind.fnKeyword; ident "f";
                                tk Kind.leftParen; ident "a"; tk Kind.comma;
                                ident "r"; tk Kind.ellipsis; tk Kind.comma;
                                tk Kind.rightParen; tk Kind.leftBrace;
                                tk Kind.rightBrace]))
             (tk Kind.fnKeyword) (Some (ident "f"))
             (Some (mkArgList (tk Kind.leftParen)
                      [(ident "a", tk Kind.comma)]
                      (Some (ident "r", tk Kind.ellipsis, tk Kind.comma))
                      (tk Kind.rightParen)))
             (tk Kind.leftBrace) (tk Kind.rightBrace) []);
      [reflexivity|reflexivity|intros id [= <-]; reflexivity
      |split; [reflexivity
              |split; [repeat constructor
                      |split; [repeat split|reflexivity]]]
      |intros a [= <-]; cbn; lia|reflexivity|reflexivity].
Defined.

Lemma brace_form_decided_after_first_expression_witness :
  kind (tk Kind.leftBrace) = Kind.leftBrace
  /\ (forall t, hd_error [ident "a"] = Some t -> kind t <> Kind.rightBrace)
  /\ forall ts q pf,
      (parsesBefore ts q pf 2 [ident "a"] (tk Kind.colon) (identifierNode "a")
       /\ parsesBefore ts q pf 4
            [tk Kind.leftBrace;
             ident "a"; tk Kind.colon; num "1"; tk Kind.comma;
             ident "b"; tk Kind.colon; num "2"; tk Kind.comma;
             tk Kind.rightBrace]
            (tk Kind.comma)
            (objectNode
               [mkObjectEntryNode (identifierNode "a")
                  (numberNode true 1 PrimFloat.zero);
                mkObjectEntryNode (identifierNode "b")
                  (numberNode true 2 PrimFloat.zero)]))
      /\ (parsesBefore ts q pf 2 [ident "a"] (tk Kind.comma)
            (identifierNode "a")
          /\ parsesBefore ts q pf 4
               [tk Kind.leftBrace; ident "a"; tk Kind.comma;
                ident "b"; tk Kind.comma; num "2"; tk Kind.comma;
                tk Kind.rightBrace]
               (tk Kind.comma)
               (blockNode
                  [identifierNode "a"; identifierNode "b";
                   numberNode true 2 PrimFloat.zero]))
      /\ (parsesBefore ts q pf 2 [ident "a"] (tk Kind.rightParen)
            (identifierNode "a")
          /\ parseAtom ts q pf (nextNode ts q pf 3) 3
               (newParser
                  [tk Kind.leftBrace; ident "a"; tk Kind.rightParen;
                   tk Kind.rightBrace])
             = Panic (PanicString
                        (String.append "expected "
                           (String.append (ts (tokenOfKind Kind.comma))
                              (String.append " got "
                                 (ts (tk Kind.rightParen)))))))
      /\ (exists first p1 t1,
            nextNode ts q pf 3 (mkParser braceObject 1) = Ok first p1
            /\ nth_error (tokens p1) (index p1) = Some t1
            /\ kindIs (kind t1) Kind.colon = true
            /\ braceObjectOf first
                 (objectNode
                    [mkObjectEntryNode (identifierNode "a")
                       (numberNode true 1 PrimFloat.zero)]))
      /\ (exists first p1 t1,
            nextNode ts q pf 3 (mkParser braceBlock 1) = Ok first p1
            /\ nth_error (tokens p1) (index p1) = Some t1
            /\ kind t1 = Kind.comma
            /\ braceBlockOf first
                 (blockNode [identifierNode "a"; identifierNode "b"])).
Proof.
  assert (Hs : forall t, hd_error [ident "a"] = Some t ->
                         kind t <> Kind.rightBrace)
    by (intros t [= <-]; discriminate).
  split; [reflexivity|]. split; [exact Hs|]. intros ts q pf.
  split; [|split; [|split; [|split]]].
  - split; [reflexivity|].
    exact (proj1 (brace_form_decided_after_first_expression ts q pf 2 3
                    (tk Kind.leftBrace) (tk Kind.colon) [ident "a"]
                    (identifierNode "a") eq_refl eq_refl Hs
                    (le_S _ _ (le_n 2)))
             eq_refl [num "1"] (tk Kind.comma)
             (numberNode true 1 PrimFloat.zero) [numEntry "b" "2" 2]
             (tk Kind.rightBrace) (tk Kind.comma) eq_refl eq_refl
             ltac:(repeat constructor)
             ltac:(repeat constructor; intros t [= <-]; discriminate)
             eq_refl eq_refl ltac:(cbn; lia)).
  - split; [reflexivity|].
    exact (proj1 (proj2 (brace_form_decided_after_first_expression ts q pf
                           2 3 (tk Kind.leftBrace) (tk Kind.comma)
                           [ident "a"] (identifierNode "a") eq_refl eq_refl
                           Hs (le_S _ _ (le_n 2))))
             eq_refl [identItem "b"; numItem "2" 2]
             (tk Kind.rightBrace) (tk Kind.comma)
             ltac:(repeat constructor)
             ltac:(repeat constructor; intros t [= <-]; discriminate)
             eq_refl eq_refl ltac:(cbn; lia)).
  - split; [reflexivity|].
    exact (proj1 (proj2 (proj2
                   (brace_form_decided_after_first_expression ts q pf
                      2 3 (tk Kind.leftBrace) (tk Kind.rightParen)
                      [ident "a"] (identifierNode "a") eq_refl eq_refl
                      Hs (le_S _ _ (le_n 2)))))
             ltac:(discriminate) ltac:(discriminate)
             [tk Kind.rightBrace] 3).
  - destruct (proj2 (proj2 (proj2
                (brace_form_decided_after_first_expression ts q pf
                   2 3 (tk Kind.leftBrace) (tk Kind.colon)
                   [ident "a"] (identifierNode "a") eq_refl eq_refl
                   Hs (le_S _ _ (le_n 2)))))
                (nextNode ts q pf 3) 3 (newParser braceObject)
                (mkParser braceObject 6)
                (tk Kind.leftBrace) (ident "a")
                (objectNode
                   [mkObjectEntryNode (identifierNode "a")
                      (numberNode true 1 PrimFloat.zero)])
                eq_refl eq_refl eq_refl ltac:(discriminate) eq_refl)
      as (first & p1 & t1 & H1 & H2 & H3).
    exists first, p1, t1. split; [exact H1|]. split; [exact H2|].
    destruct (kindIs (kind t1) Kind.colon) eqn:K.
    + split; [reflexivity|exact H3].
    + exfalso. destruct H3 as [_ H3]. exact H3.
  - destruct (proj2 (proj2 (proj2
                (brace_form_decided_after_first_expression ts q pf
                   2 3 (tk Kind.leftBrace) (tk Kind.comma)
                   [ident "a"] (identifierNode "a") eq_refl eq_refl
                   Hs (le_S _ _ (le_n 2)))))
                (nextNode ts q pf 3) 3 (newParser braceBlock)
                (mkParser braceBlock 6)
                (tk Kind.leftBrace) (ident "a")
                (blockNode [identifierNode "a"; identifierNode "b"])
                eq_refl eq_refl eq_refl ltac:(discriminate) eq_refl)
      as (first & p1 & t1 & H1 & H2 & H3).
    exists first, p1, t1. split; [exact H1|]. split; [exact H2|].
    destruct (kindIs (kind t1) Kind.colon) eqn:K.
    + exfalso. exact H3.
    + exact H3.
Defined.



Lemma rest_argument_with_comma_witness :
  remaining (newParser getRestWithComma)
  = tk Kind.fnKeyword
      :: nameTokens (Some (ident "getRest"))
      ++ tk Kind.leftParen
      :: argTokens [(ident "first", tk Kind.comma)]
      ++ [ident "rest"; tk Kind.ellipsis; tk Kind.comma; tk Kind.rightParen;
          tk Kind.leftBrace; ident "rest"; tk Kind.comma; tk Kind.rightBrace]
  /\ forall ts q pf,
      parseAtom ts q pf (nextNode ts q pf 3) 3 (newParser getRestWithComma)
      = Ok (fnNode "getRest" ["first"] "rest"
              (blockNode [identifierNode "rest"]))
           (mkParser getRestWithComma 13)
      /\ get "rest"
           (bindCall ["first"] "rest"
              [IntValue 1; IntValue 2; IntValue 3; IntValue 4; IntValue 5])
         = Some (ListValue [IntValue 2; IntValue 3; IntValue 4; IntValue 5]).
Proof.
  split; [reflexivity|]. intros ts q pf.
  destruct (rest_argument_with_comma ts q pf (nextNode ts q pf 3) 3
              (newParser getRestWithComma) (mkParser getRestWithComma 13)
              (tk Kind.fnKeyword) (tk Kind.leftParen) (ident "rest")
              (tk Kind.ellipsis) (tk Kind.comma) (tk Kind.rightParen)
              (Some (ident "getRest")) [(ident "first", tk Kind.comma)]
              [tk Kind.leftBrace; ident "rest"; tk Kind.comma;
               tk Kind.rightBrace]
              (blockNode [identifierNode "rest"])
              eq_refl eq_refl
              ltac:(intros id E; injection E as <-; reflexivity)
              eq_refl
              ltac:(repeat constructor)
              eq_refl eq_refl eq_refl eq_refl
              ltac:(repeat constructor) eq_refl) as [A B].
  split; [exact A|].
  apply (B ltac:(discriminate)
           [IntValue 1; IntValue 2; IntValue 3; IntValue 4; IntValue 5]).
Defined.

(** In the tokens of [fn getRest(first, rest...) { rest }] the ellipsis is
    directly followed by the closing parenthesis, and [parse] never returns
    a node for them: it is stopped by the panic of [expect]. *)
Lemma rest_argument_without_comma_is_not_parsed :
  nth_error getRestNoComma 6 = Some (tk Kind.ellipsis)
  /\ nth_error getRestNoComma 7 = Some (tk Kind.rightParen)
  /\ (forall ts q pf fuel nodes err,
         parse ts q pf fuel (newParser getRestNoComma) <> Returns nodes err)
  /\ (forall ts q pf fuel,
         parse ts q pf (3 + fuel) (newParser getRestNoComma)
         = Panics (PanicString
                     (String.append "expected "
                        (String.append (ts (tk Kind.comma))
                           (String.append " got "
                              (ts (tk Kind.rightParen))))))).
Proof.
  split; [reflexivity|]. split; [reflexivity|]. split.
  - intros ts q pf fuel nodes err.
    destruct fuel as [|[|[|fuel]]]; discriminate.
  - intros ts q pf fuel. reflexivity.
Defined.

(** ** Closed instances of the further properties *)

Lemma nextNode_consumes_a_token_witness :
  inBounds (newParser oneComma)
  /\ forall ts q pf,
      nextNode ts q pf 2 (newParser oneComma)
      = Ok (numberNode true 1 PrimFloat.zero) (mkParser oneComma 1)
      /\ tokens (mkParser oneComma 1) = tokens (newParser oneComma)
      /\ index (newParser oneComma) < index (mkParser oneComma 1)
      /\ index (mkParser oneComma 1)
         <= List.length (tokens (newParser oneComma)).
Proof.
  assert (B : inBounds (newParser oneComma)) by (unfold inBounds; cbn; lia).
  split; [exact B|]. intros ts q pf. split; [reflexivity|].
  apply (nextNode_consumes_a_token ts q pf 2 (newParser oneComma)
           (mkParser oneComma 1) (numberNode true 1 PrimFloat.zero) B).
  reflexivity.
Defined.

Lemma parse_accepts_only_comma_ended_witness :
  (forall ts q pf,
      parse ts q pf 3 (newParser oneComma)
      = Returns [numberNode true 1 PrimFloat.zero] None)
  /\ (oneComma = []
      \/ exists front c, oneComma = front ++ [c] /\ kind c = Kind.comma).
Proof.
  split; [reflexivity|].
  apply (parse_accepts_only_comma_ended (fun _ => EmptyString) (fun s => s)
           (fun s => inr s) 3 oneComma [numberNode true 1 PrimFloat.zero]).
  reflexivity.
Defined.

Lemma parse_returns_at_most_half_as_many_nodes_witness :
  (forall ts q pf,
      parse ts q pf 3 (newParser oneComma)
      = Returns [numberNode true 1 PrimFloat.zero] None)
  /\ 2 * List.length [numberNode true 1 PrimFloat.zero]
     <= List.length oneComma.
Proof.
  split; [reflexivity|].
  apply (parse_returns_at_most_half_as_many_nodes (fun _ => EmptyString)
           (fun s => s) (fun s => inr s) 3 oneComma
           [numberNode true 1 PrimFloat.zero] None).
  reflexivity.
Defined.

Lemma parse_error_has_no_position_witness :
  isEOF (mkParser [num "1"] 1) = true
  /\ forall ts q pf,
      parse ts q pf 2 (newParser [num "1"])
      = Returns []
          (Some (parseErrorOf
                   (String.append "Unexpected end of input, expected "
                      (ts (tokenOfKind Kind.comma)))))
      /\ errPos (parseErrorOf
                   (String.append "Unexpected end of input, expected "
                      (ts (tokenOfKind Kind.comma)))) = zeroPos.
Proof.
  split; [reflexivity|]. intros ts q pf. split; [reflexivity|].
  apply (parse_error_has_no_position ts q pf 2 [num "1"] []).
  reflexivity.
Defined.

Lemma nextNode_within_longer_tokens_witness :
  inBounds (newParser [num "1"])
  /\ stopLed [tk Kind.comma; tk Kind.rightBracket]
  /\ forall ts q pf,
      nextNode ts q pf 2 (newParser [num "1"])
      = Ok (numberNode true 1 PrimFloat.zero) (mkParser [num "1"] 1)
      /\ nextNode ts q pf 3
           (mkParser
              [tk Kind.leftBracket; num "1"; tk Kind.comma;
               tk Kind.rightBracket] 1)
         = Ok (numberNode true 1 PrimFloat.zero)
             (mkParser
                [tk Kind.leftBracket; num "1"; tk Kind.comma;
                 tk Kind.rightBracket] 2).
Proof.
  assert (B : inBounds (newParser [num "1"])) by (unfold inBounds; cbn; lia).
  split; [exact B|]. split; [reflexivity|]. intros ts q pf.
  split; [reflexivity|].
  apply (nextNode_within_longer_tokens ts q pf 2 3 [tk Kind.leftBracket]
           [tk Kind.comma; tk Kind.rightBracket] (newParser [num "1"])
           (mkParser [num "1"] 1) (numberNode true 1 PrimFloat.zero) B);
    [reflexivity|reflexivity|lia].
Defined.

Lemma nextNode_reads_one_token_ahead_witness :
  inBounds (newParser oneComma)
  /\ agree 1 1 (newParser oneComma)
       (mkParser [tk Kind.leftParen; num "1"; tk Kind.comma; ident "x"] 1)
  /\ forall ts q pf,
      nextNode ts q pf 2 (newParser oneComma)
      = Ok (numberNode true 1 PrimFloat.zero) (mkParser oneComma 1)
      /\ nextNode ts q pf 3
           (mkParser [tk Kind.leftParen; num "1"; tk Kind.comma; ident "x"] 1)
         = Ok (numberNode true 1 PrimFloat.zero)
             (mkParser [tk Kind.leftParen; num "1"; tk Kind.comma; ident "x"]
                2).
Proof.
  assert (B : inBounds (newParser oneComma)) by (unfold inBounds; cbn; lia).
  assert (A : agree 1 1 (newParser oneComma)
                (mkParser [tk Kind.leftParen; num "1"; tk Kind.comma;
                           ident "x"] 1)).
  { split; [reflexivity|]. split; [cbn; lia|].
    intros i Hi. destruct i as [|[|i]]; [reflexivity|reflexivity|lia]. }
  split; [exact B|]. split; [exact A|]. intros ts q pf.
  split; [reflexivity|].
  apply (nextNode_reads_one_token_ahead ts q pf 2 3 1 1 (newParser oneComma)
           (mkParser [tk Kind.leftParen; num "1"; tk Kind.comma; ident "x"] 1)
           (mkParser oneComma 1) (numberNode true 1 PrimFloat.zero) B A);
    [reflexivity|cbn; lia|lia].
Defined.

Lemma nextNode_returns_only_at_a_stop_witness :
  stops (kind (tk Kind.comma)) = true
  /\ forall ts q pf,
      nextNode ts q pf 2 (newParser oneComma)
      = Ok (numberNode true 1 PrimFloat.zero) (mkParser oneComma 1)
      /\ (isEOF (mkParser oneComma 1) = true
          \/ exists t,
              nth_error (tokens (mkParser oneComma 1))
                (index (mkParser oneComma 1)) = Some t
              /\ stops (kind t) = true).
Proof.
  split; [reflexivity|]. intros ts q pf. split; [reflexivity|].
  apply (nextNode_returns_only_at_a_stop ts q pf 2 (newParser oneComma)
           (mkParser oneComma 1) (numberNode true 1 PrimFloat.zero)).
  reflexivity.
Defined.

Lemma parse_comma_separated_expressions_witness :
  itemsTokens oneAndX
  = [num "1"; tk Kind.comma; ident "x"; tk Kind.comma]
  /\ forall ts q pf,
      Forall (isItem ts q pf 2) oneAndX
      /\ parse ts q pf 3 (newParser (itemsTokens oneAndX))
         = Returns [numberNode true 1 PrimFloat.zero; identifierNode "x"] None.
Proof.
  split; [reflexivity|]. intros ts q pf.
  assert (HI : Forall (isItem ts q pf 2) oneAndX)
    by (repeat constructor).
  split; [exact HI|].
  apply (parse_comma_separated_expressions ts q pf 2 3 oneAndX HI);
    [lia|cbn; lia].
Defined.

Lemma parse_keeps_nodes_before_the_error_witness :
  itemsTokens oneAndX ++ [num "2"]
  = [num "1"; tk Kind.comma; ident "x"; tk Kind.comma; num "2"]
  /\ forall ts q pf,
      Forall (isItem ts q pf 2) oneAndX
      /\ parsesBefore ts q pf 2 [num "2"] (tk Kind.comma)
           (numberNode true 2 PrimFloat.zero)
      /\ parse ts q pf 3 (newParser (itemsTokens oneAndX ++ [num "2"]))
         = Returns [numberNode true 1 PrimFloat.zero; identifierNode "x"]
             (Some (parseErrorOf
                      (String.append "Unexpected end of input, expected "
                         (ts (tokenOfKind Kind.comma)))))
      /\ parsesBefore ts q pf 2 [ident "y"] (tk Kind.comma)
           (identifierNode "y")
      /\ parse ts q pf 3 (newParser (itemsTokens oneAndX ++ [ident "y"]))
         = Panics (IndexOutOfRange 5 5).
Proof.
  split; [reflexivity|]. intros ts q pf.
  assert (HI : Forall (isItem ts q pf 2) oneAndX)
    by (repeat constructor).
  split; [exact HI|]. split; [reflexivity|]. split; [|split; [reflexivity|]].
  - destruct (parse_keeps_nodes_before_the_error ts q pf 2 3 oneAndX
                [num "2"] (tk Kind.comma) (numberNode true 2 PrimFloat.zero)
                HI eq_refl (le_S _ _ (le_n 2)) (le_n 3)) as [[_ B]|[N _]].
    + exact B.
    + discriminate N.
  - destruct (parse_keeps_nodes_before_the_error ts q pf 2 3 oneAndX
                [ident "y"] (tk Kind.comma) (identifierNode "y")
                HI eq_refl (le_S _ _ (le_n 2)) (le_n 3)) as [[N _]|[_ B]].
    + discriminate N.
    + exact B.
Defined.

Lemma list_literal_elements_witness :
  Forall (startsNot Kind.rightBracket) oneAndX
  /\ forall ts q pf,
      Forall (isItem ts q pf 2) oneAndX
      /\ parsesBefore ts q pf 4
           (tk Kind.leftBracket :: itemsTokens oneAndX
            ++ [tk Kind.rightBracket])
           (tk Kind.comma)
           (listNode [numberNode true 1 PrimFloat.zero; identifierNode "x"]).
Proof.
  assert (HS : Forall (startsNot Kind.rightBracket) oneAndX)
    by (repeat constructor; intros t [= <-]; discriminate).
  split; [exact HS|]. intros ts q pf.
  assert (HI : Forall (isItem ts q pf 2) oneAndX)
    by (repeat constructor).
  split; [exact HI|].
  apply (list_literal_elements ts q pf 2 3 (tk Kind.leftBracket)
           (tk Kind.rightBracket) (tk Kind.comma) oneAndX HI HS);
    [reflexivity|reflexivity|reflexivity|lia|cbn; lia].
Defined.

Lemma call_arguments_witness :
  Forall (startsNot Kind.rightParen) oneAndX
  /\ forall ts q pf,
      Forall (isItem ts q pf 2) oneAndX
      /\ parsesBefore ts q pf 4
           (ident "f" :: tk Kind.leftParen :: itemsTokens oneAndX
            ++ [tk Kind.rightParen])
           (tk Kind.comma)
           (fnCallNode (identifierNode "f")
              [numberNode true 1 PrimFloat.zero; identifierNode "x"]).
Proof.
  assert (HS : Forall (startsNot Kind.rightParen) oneAndX)
    by (repeat constructor; intros t [= <-]; discriminate).
  split; [exact HS|]. intros ts q pf.
  assert (HI : Forall (isItem ts q pf 2) oneAndX)
    by (repeat constructor).
  split; [exact HI|].
  apply (call_arguments ts q pf 2 3 (ident "f") (tk Kind.leftParen)
           (tk Kind.rightParen) (tk Kind.comma) oneAndX HI HS);
    [reflexivity|reflexivity|reflexivity|reflexivity|lia|cbn; lia|lia].
Defined.

Lemma parenthesized_block_is_an_expression_witness :
  Forall (startsNot Kind.rightParen) oneAndX
  /\ forall ts q pf,
      Forall (isItem ts q pf 2) oneAndX
      /\ parsesBefore ts q pf 4
           (tk Kind.leftParen :: itemsTokens oneAndX ++ [tk Kind.rightParen])
           (tk Kind.rightBracket)
           (blockNode [numberNode true 1 PrimFloat.zero; identifierNode "x"]).
Proof.
  assert (HS : Forall (startsNot Kind.rightParen) oneAndX)
    by (repeat constructor; intros t [= <-]; discriminate).
  split; [exact HS|]. intros ts q pf.
  assert (HI : Forall (isItem ts q pf 2) oneAndX)
    by (repeat constructor).
  split; [exact HI|].
  apply (parenthesized_block_is_an_expression ts q pf 2 3
           (tk Kind.leftParen) (tk Kind.rightParen) (tk Kind.rightBracket)
           oneAndX HI HS);
    [reflexivity|reflexivity|reflexivity|lia|cbn; lia].
Defined.

Lemma assignment_chain_nests_to_the_right_witness :
  Forall isTarget
    [(ident "a", tk Kind.assign); (ident "b", tk Kind.nonlocalAssign)]
  /\ forall ts q pf,
      parsesBefore ts q pf 2 [num "1"] (tk Kind.comma)
        (numberNode true 1 PrimFloat.zero)
      /\ parsesBefore ts q pf 4
           [ident "a"; tk Kind.assign; ident "b"; tk Kind.nonlocalAssign;
            num "1"]
           (tk Kind.comma)
           (assignmentNode true (identifierNode "a")
              (assignmentNode false (identifierNode "b")
                 (numberNode true 1 PrimFloat.zero))).
Proof.
  assert (HT : Forall isTarget
                 [(ident "a", tk Kind.assign);
                  (ident "b", tk Kind.nonlocalAssign)]).
  { constructor; [split; [reflexivity|left; reflexivity]|].
    constructor; [split; [reflexivity|right; reflexivity]|constructor]. }
  split; [exact HT|]. intros ts q pf. split; [reflexivity|].
  apply (assignment_chain_nests_to_the_right ts q pf 2 [num "1"]
           (tk Kind.comma) (numberNode true 1 PrimFloat.zero)
           [(ident "a", tk Kind.assign); (ident "b", tk Kind.nonlocalAssign)]
           HT).
  reflexivity.
Defined.

Lemma unary_chain_nests_witness :
  Forall isUnary [tk Kind.minus; tk Kind.exclam]
  /\ forall ts q pf,
      parsesBefore ts q pf 2 [num "1"] (tk Kind.comma)
        (numberNode true 1 PrimFloat.zero)
      /\ parsesBefore ts q pf 4 [tk Kind.minus; tk Kind.exclam; num "1"]
           (tk Kind.comma)
           (unaryNode Kind.minus
              (unaryNode Kind.exclam (numberNode true 1 PrimFloat.zero))).
Proof.
  assert (HU : Forall isUnary [tk Kind.minus; tk Kind.exclam]).
  { constructor; [left; reflexivity|].
    constructor; [right; reflexivity|constructor]. }
  split; [exact HU|]. intros ts q pf. split; [reflexivity|].
  apply (unary_chain_nests ts q pf 2 [num "1"] (tk Kind.comma)
           (numberNode true 1 PrimFloat.zero)
           [tk Kind.minus; tk Kind.exclam] HU).
  reflexivity.
Defined.

Lemma property_access_chain_nests_to_the_left_witness :
  Forall isAccess [(tk Kind.dot, ident "b"); (tk Kind.dot, ident "c")]
  /\ forall ts q pf,
      parsesBefore ts q pf 4
        [ident "a"; tk Kind.dot; ident "b"; tk Kind.dot; ident "c"]
        (tk Kind.comma)
        (propertyAccessNode
           (propertyAccessNode (identifierNode "a") (identifierNode "b"))
           (identifierNode "c")).
Proof.
  assert (HK : Forall isAccess
                 [(tk Kind.dot, ident "b"); (tk Kind.dot, ident "c")])
    by (repeat constructor).
  split; [exact HK|]. intros ts q pf.
  apply (property_access_chain_nests_to_the_left ts q pf 3 (ident "a")
           (tk Kind.comma)
           [(tk Kind.dot, ident "b"); (tk Kind.dot, ident "c")]);
    [reflexivity|exact HK|reflexivity|cbn; lia].
Defined.

Lemma integer_literal_value_or_range_error_witness :
  payload (num "007") = numeral [0; 0; 7]
  /\ payload (num "9223372036854775808")
     = numeral [9; 2; 2; 3; 3; 7; 2; 0; 3; 6; 8; 5; 4; 7; 7; 5; 8; 0; 8]
  /\ forall ts q pf rec,
      parseAtom ts q pf rec 0 (newParser [num "007"])
      = Ok (numberNode true 7 PrimFloat.zero) (mkParser [num "007"] 1)
      /\ parseAtom ts q pf rec 0 (newParser [num "9223372036854775808"])
         = Err (parseErrorOf
                  (parseIntErrorText q "9223372036854775808" ErrRange))
             (mkParser [num "9223372036854775808"] 1).
Proof.
  split; [reflexivity|]. split; [reflexivity|]. intros ts q pf rec. split.
  - apply (integer_literal_value_or_range_error ts q pf rec 0
             (newParser [num "007"]) (num "007") [0; 0; 7]);
      [reflexivity|reflexivity|reflexivity|discriminate|].
    repeat (constructor; [lia|]). constructor.
  - apply (integer_literal_value_or_range_error ts q pf rec 0
             (newParser [num "9223372036854775808"])
             (num "9223372036854775808")
             [9; 2; 2; 3; 3; 7; 2; 0; 3; 6; 8; 5; 4; 7; 7; 5; 8; 0; 8]);
      [reflexivity|reflexivity|reflexivity|discriminate|].
    repeat (constructor; [lia|]). constructor.
Defined.

Lemma readUntilTokenKind_takes_tokens_before_kind_witness :
  inBounds (mkParser [num "1"; ident "x"; tk Kind.comma; num "2"] 1)
  /\ readUntilTokenKind Kind.comma
       (mkParser [num "1"; ident "x"; tk Kind.comma; num "2"] 1)
     = Ok [ident "x"]
         (mkParser [num "1"; ident "x"; tk Kind.comma; num "2"] 2)
  /\ readUntilTokenKind Kind.colon
       (mkParser [num "1"; ident "x"; tk Kind.comma; num "2"] 1)
     = Ok [ident "x"; tk Kind.comma; num "2"]
         (mkParser [num "1"; ident "x"; tk Kind.comma; num "2"] 4).
Proof.
  assert (B : inBounds
                (mkParser [num "1"; ident "x"; tk Kind.comma; num "2"] 1))
    by (unfold inBounds; cbn; lia).
  split; [exact B|]. split.
  - exact (readUntilTokenKind_takes_tokens_before_kind Kind.comma
             (mkParser [num "1"; ident "x"; tk Kind.comma; num "2"] 1) B).
  - exact (readUntilTokenKind_takes_tokens_before_kind Kind.colon
             (mkParser [num "1"; ident "x"; tk Kind.comma; num "2"] 1) B).
Defined.

Lemma back_and_next_witness :
  next (newParser oneComma) = Ok (num "1") (mkParser oneComma 1)
  /\ back (mkParser oneComma 1) = Ok tt (newParser oneComma)
  /\ back (newParser oneComma) = Ok tt (newParser oneComma).
Proof.
  split; [reflexivity|]. split.
  - apply (proj1 (back_and_next (newParser oneComma)) (num "1")
             (mkParser oneComma 1)).
    reflexivity.
  - apply (proj1 (proj2 (back_and_next (newParser oneComma)))).
    reflexivity.
Defined.

Lemma brace_block_is_an_expression_witness :
  Forall (startsNot Kind.rightBrace) oneAndX
  /\ forall ts q pf,
      Forall (isItem ts q pf 2) oneAndX
      /\ parsesBefore ts q pf 4
           (tk Kind.leftBrace :: itemsTokens oneAndX ++ [tk Kind.rightBrace])
           (tk Kind.comma)
           (blockNode [numberNode true 1 PrimFloat.zero; identifierNode "x"]).
Proof.
  assert (HS : Forall (startsNot Kind.rightBrace) oneAndX)
    by (repeat constructor; intros t [= <-]; discriminate).
  split; [exact HS|]. intros ts q pf.
  assert (HI : Forall (isItem ts q pf 2) oneAndX)
    by (repeat constructor).
  split; [exact HI|].
  apply (brace_block_is_an_expression ts q pf 2 3 (tk Kind.leftBrace)
           (tk Kind.rightBrace) (tk Kind.comma) (numItem "1" 1)
           [identItem "x"] HI HS);
    [reflexivity|reflexivity|reflexivity|lia|cbn; lia].
Defined.

Lemma object_literal_entries_witness :
  Forall keyStartsNotBrace [numEntry "k" "1" 1; numEntry "m" "2" 2]
  /\ forall ts q pf,
      Forall (isEntry ts q pf 2) [numEntry "k" "1" 1; numEntry "m" "2" 2]
      /\ parsesBefore ts q pf 4
           [tk Kind.leftBrace;
            ident "k"; tk Kind.colon; num "1"; tk Kind.comma;
            ident "m"; tk Kind.colon; num "2"; tk Kind.comma;
            tk Kind.rightBrace]
           (tk Kind.comma)
           (objectNode
              [mkObjectEntryNode (identifierNode "k")
                 (numberNode true 1 PrimFloat.zero);
               mkObjectEntryNode (identifierNode "m")
                 (numberNode true 2 PrimFloat.zero)]).
Proof.
  assert (HS : Forall keyStartsNotBrace
                 [numEntry "k" "1" 1; numEntry "m" "2" 2])
    by (repeat constructor; intros t [= <-]; discriminate).
  split; [exact HS|]. intros ts q pf.
  assert (HE : Forall (isEntry ts q pf 2)
                 [numEntry "k" "1" 1; numEntry "m" "2" 2])
    by (repeat constructor).
  split; [exact HE|].
  apply (object_literal_entries ts q pf 2 3 (tk Kind.leftBrace)
           (tk Kind.rightBrace) (tk Kind.comma) (numEntry "k" "1" 1)
           [numEntry "m" "2" 2] HE HS);
    [reflexivity|reflexivity|reflexivity|lia|cbn; lia].
Defined.

Lemma fn_definition_with_arguments_witness :
  Forall isArgPair [(ident "a", tk Kind.comma); (ident "b", tk Kind.comma)]
  /\ emptyBraces ([ident "a"] ++ [tk Kind.comma]) = false
  /\ forall ts q pf,
      parsesBefore ts q pf 2 [ident "a"] (tk Kind.comma) (identifierNode "a")
      /\ parsesBefore ts q pf 4
           [tk Kind.fnKeyword; ident "first"; tk Kind.leftParen;
            ident "a"; tk Kind.comma; ident "b"; tk Kind.comma;
            tk Kind.rightParen; ident "a"]
           (tk Kind.comma)
           (fnNode "first" ["a"; "b"] "" (identifierNode "a")).
Proof.
  assert (HF : Forall isArgPair
                 [(ident "a", tk Kind.comma); (ident "b", tk Kind.comma)])
    by (repeat constructor).
  split; [exact HF|]. split; [reflexivity|]. intros ts q pf.
  split; [reflexivity|].
  apply (fn_definition_with_arguments ts q pf 2 3 [ident "a"]
           (tk Kind.fnKeyword) (tk Kind.leftParen) (tk Kind.rightParen)
           (tk Kind.comma) (Some (ident "first"))
           [(ident "a", tk Kind.comma); (ident "b", tk Kind.comma)]
           (identifierNode "a"));
    [reflexivity|intros id [= <-]; reflexivity|reflexivity|exact HF
    |reflexivity|reflexivity|reflexivity|lia|cbn; lia].
Defined.
